(** * reflexa-ai asset scripts: a shallow embedding

    Two one-shot Python scripts are modelled here:

    - [public/audio/generate_voice_stop_cue.py] ([Module ToneCue]): synthesises
      a descending sine tone and writes it as a 16-bit mono PCM WAV file;
    - [scripts/svg-to-png.py] ([Module IconRasterizer]): asks cairosvg to
      rasterise four SVG icons.

    Python floats are IEEE-754 binary64 values and are modelled by Rocq's
    primitive floats; Python ints are [Z]; [bytes] objects are [list byte];
    exceptions are an explicit [result] type; the file system and the console
    are threaded through as explicit state. *)

From Stdlib Require Import ZArith QArith Qabs Qpower Lia Lqa List Floats Uint63.
From Stdlib Require Import Strings.Byte Strings.Ascii.
From stdpp Require Import base gmap strings pretty.

Local Open Scope Z_scope.

(** ** Python run-time values: exceptions and results *)

Inductive py_exn : Type :=
  | ValueError          (* math domain error, int(nan) *)
  | OverflowError       (* int(inf), float(huge int), math range error *)
  | ZeroDivisionError
  | StructError         (* struct.error *)
  | OSError             (* open() failed *)
  | ImportError
  | OtherException (msg : string).

Inductive result (A : Type) : Type :=
  | Ok (a : A)
  | Raise (e : py_exn).
Arguments Ok {A} a.
Arguments Raise {A} e.

#[global] Instance result_ret : MRet result := fun A a => Ok a.

#[global] Instance result_bind : MBind result := fun A B k r =>
  match r with
  | Ok a => k a
  | Raise e => Raise e
  end.

Definition is_ok {A} (r : result A) : bool :=
  match r with Ok _ => true | Raise _ => false end.

(** ** Python floats *)

Module PyFloat.

(** [float(z)] for a Python int: the nearest binary64 value (ties to even),
    [OverflowError] when the int is too large for a double. *)
Definition of_int (z : Z) : result float :=
  let f := SF2Prim (binary_normalize prec emax z 0 false) in
  if is_infinity f then Raise OverflowError else Ok f.

(** [int(x)] for a Python float: truncation toward zero; [ValueError] on
    NaN, [OverflowError] on an infinity. *)
Definition to_int (x : float) : result Z :=
  match Prim2SF x with
  | S754_nan => Raise ValueError
  | S754_infinity _ => Raise OverflowError
  | S754_zero _ => Ok 0
  | S754_finite s m e => Ok (cond_Zopp s (Z.shiftl (Z.pos m) e))
  end.

(** [math.floor(x)]: the largest integer not above [x], with the same
    exceptions as [int(x)]. *)
Definition floor (x : float) : result Z :=
  match Prim2SF x with
  | S754_nan => Raise ValueError
  | S754_infinity _ => Raise OverflowError
  | S754_zero _ => Ok 0
  | S754_finite s m e => Ok (Z.shiftl (cond_Zopp s (Z.pos m)) e)
  end.

(** [round(x)] for a Python float: the nearest integer, ties to the even
    one, with the same exceptions as [int(x)]. *)
Definition round (x : float) : result Z :=
  match Prim2SF x with
  | S754_nan => Raise ValueError
  | S754_infinity _ => Raise OverflowError
  | S754_zero _ => Ok 0
  | S754_finite s m e =>
      if 0 <=? e then Ok (cond_Zopp s (Z.shiftl (Z.pos m) e))
      else
        let q := Z.shiftl (Z.pos m) e in
        let twice_rest := 2 * (Z.pos m - Z.shiftl q (- e)) in
        let unit := Z.shiftl 1 (- e) in
        let up := (unit <? twice_rest) || ((unit =? twice_rest) && Z.odd q) in
        Ok (cond_Zopp s (if up then q + 1 else q))
  end.

(** [a / b] on two Python ints (true division).  For operands below 2^53
    in magnitude the correctly rounded quotient is the binary64 quotient of
    the two exact conversions; the generator only divides sample indices
    by counts that have already been packed into 32-bit header fields. *)
Definition int_truediv (a b : Z) : result float :=
  if b =? 0 then Raise ZeroDivisionError
  else
    x ← of_int a;
    y ← of_int b;
    Ok (x / y)%float.

(** [math.pi] *)
Definition pi : float := 0x1.921fb54442d18p+1%float.

(** The exact rational value of a finite float (0 for the others). *)
Definition pow2 (e : Z) : Q := Qpower 2 e.

Definition SF2Q (x : spec_float) : Q :=
  match x with
  | S754_finite s m e => inject_Z (cond_Zopp s (Z.pos m)) * pow2 e
  | _ => 0
  end.

Definition SFfinite (x : spec_float) : bool :=
  match x with
  | S754_finite _ _ _ | S754_zero _ => true
  | _ => false
  end.

Definition F2Q (x : float) : Q := SF2Q (Prim2SF x).

Definition finite (x : float) : bool := SFfinite (Prim2SF x).

(** [x] is a finite float whose value lies in the closed interval. *)
Definition in_range (lo hi : Q) (x : float) : Prop :=
  finite x = true /\ (lo <= F2Q x)%Q /\ (F2Q x <= hi)%Q.

(** The magnitude and the sign bit of a float. *)
Definition SFmag (x : spec_float) : Q :=
  match x with
  | S754_finite _ m e => inject_Z (Z.pos m) * pow2 e
  | _ => 0
  end.

Definition SFsign (x : spec_float) : bool :=
  match x with
  | S754_finite s _ _ | S754_zero s | S754_infinity s => s
  | S754_nan => false
  end.

(** What rounding delivers: a finite float of the given sign whose
    magnitude does not exceed the bound. *)
Definition rounded_below (s : bool) (B : Q) (r : spec_float) : Prop :=
  SFfinite r = true /\ SFsign r = s /\ (SFmag r <= B)%Q.

(** A rounded result: finite, magnitude within the bound, and on the same
    side of zero as the exact value [V]. *)
Definition rounds_to (V B : Q) (r : spec_float) : Prop :=
  SFfinite r = true /\ (SFmag r <= B)%Q /\
  ((0 <= V)%Q -> (0 <= SF2Q r)%Q) /\ ((V <= 0)%Q -> (SF2Q r <= 0)%Q).

(** The shift register of the rounding routine holds the integer part
    [shr_m] of the exact value [N / D], and its round and sticky bits are
    both clear exactly when nothing has been lost. *)
Definition shr_inv (N D : Z) (r : shr_record) : Prop :=
  0 <= shr_m r /\
  shr_m r * D <= N < (shr_m r + 1) * D /\
  (N = shr_m r * D <-> shr_r r = false /\ shr_s r = false).

(** The positive float with the given significand and exponent. *)
Definition dyadic (m : positive) (e : Z) : float :=
  SF2Prim (S754_finite false m e).

End PyFloat.

(** ** The C math library behind [math.sin] and [math.pow] *)

Record Libm : Type := {
  libm_sin : float -> float;
  libm_pow : float -> float -> float
}.

Module PyMath.

(** [math.sin]: CPython's [math_1] wrapper with [can_overflow = 0]. *)
Definition sin (L : Libm) (x : float) : result float :=
  let r := libm_sin L x in
  if is_nan r && negb (is_nan x) then Raise ValueError
  else if is_infinity r && is_finite x then Raise ValueError
  else Ok r.

(** [math.pow(x, 2)]: CPython's [math_pow_impl] at the exponent the
    generator passes (the int 2, converted to 2.0).  Non-finite [x] is
    answered without calling libm: NaN stays NaN, an infinity gives
    [fabs(x)]. *)
Definition pow2 (L : Libm) (x : float) : result float :=
  if is_nan x then Ok x
  else if is_infinity x then Ok (abs x)
  else
    let r := libm_pow L x 2%float in
    if is_nan r then Raise ValueError
    else if is_infinity r then
      (if (x =? 0)%float then Raise ValueError else Raise OverflowError)
    else Ok r.

End PyMath.

(** ** [struct.pack] with a little-endian ([<]) format *)

Module Struct.

Inductive field : Type :=
  | F4s   (* 4s: four bytes, truncated or zero-padded *)
  | FI    (* I: unsigned 32-bit *)
  | FH    (* H: unsigned 16-bit *)
  | Fh.   (* h: signed 16-bit *)

Inductive arg : Type :=
  | Bytes (b : list byte)
  | Int (z : Z).

Definition byte_of_Z (z : Z) : byte :=
  default x00 (Byte.of_N (Z.to_N (Z.land z 255))).

(** The [n] low-order bytes of [z], least significant first (two's
    complement for a negative [z]). *)
Fixpoint le_bytes (n : nat) (z : Z) : list byte :=
  match n with
  | O => []
  | S n' => byte_of_Z z :: le_bytes n' (Z.shiftr z 8)
  end.

Definition pack_field (f : field) (a : arg) : result (list byte) :=
  match f, a with
  | F4s, Bytes b => Ok (take 4 (b ++ replicate 4 x00))
  | FI, Int z =>
      if (0 <=? z) && (z <=? 4294967295) then Ok (le_bytes 4 z)
      else Raise StructError
  | FH, Int z =>
      if (0 <=? z) && (z <=? 65535) then Ok (le_bytes 2 z)
      else Raise StructError
  | Fh, Int z =>
      if (-32768 <=? z) && (z <=? 32767) then Ok (le_bytes 2 z)
      else Raise StructError
  | _, _ => Raise StructError
  end.

Fixpoint pack (fmt : list field) (args : list arg) : result (list byte) :=
  match fmt, args with
  | [], [] => Ok []
  | f :: fmt', a :: args' =>
      b ← pack_field f a;
      bs ← pack fmt' args';
      Ok (b ++ bs)
  | _, _ => Raise StructError
  end.

(** Reading a field back, as a WAV parser does. *)
Fixpoint le_unsigned (bs : list byte) : Z :=
  match bs with
  | [] => 0
  | b :: bs' => Z.of_N (Byte.to_N b) + 256 * le_unsigned bs'
  end.

Definition le_signed16 (bs : list byte) : Z :=
  let u := le_unsigned bs in
  if u <? 32768 then u else u - 65536.

End Struct.

(** ** Files *)

Module FS.

(** The files that exist, with their contents, and the paths that cannot
    be opened for writing. *)
Record filesystem : Type := {
  files : gmap string (list byte);
  unwritable : gset string
}.

Definition exists_ (path : string) (fs : filesystem) : bool :=
  bool_decide (is_Some (files fs !! path)).

(** [open(path, 'wb')]: creates or truncates the file. *)
Definition open_wb (path : string) (fs : filesystem) : result filesystem :=
  if bool_decide (path ∈ unwritable fs) then Raise OSError
  else Ok {| files := <[path := []]> (files fs); unwritable := unwritable fs |}.

(** [f.write(b)] on a file opened by [open_wb].  A write that the operating
    system refuses (a full disk, say) is not modelled: once the file is
    open, writing succeeds. *)
Definition write (path : string) (b : list byte) (fs : filesystem) : filesystem :=
  {| files := <[path := default [] (files fs !! path) ++ b]> (files fs);
     unwritable := unwritable fs |}.

End FS.

(** ** public/audio/generate_voice_stop_cue.py *)

Module ToneCue.

Import PyFloat.

(** The keyword parameters of [generate_wav].  The frequency defaults are
    the Python ints 800 and 400; both, and their difference, are exactly
    representable, so they are carried as floats. *)
Record ToneSpecification : Type := {
  duration : float;
  start_freq : float;
  end_freq : float;
  sample_rate : Z
}.

Definition default_spec : ToneSpecification :=
  {| duration := 0.25; start_freq := 800; end_freq := 400;
     sample_rate := 44100 |}.

(** The literal 0.3 of line 39, as the double Python reads it. *)
Definition volume : float := 0x1.3333333333333p-2%float.

(** What the script prints, one constructor per [print] call: lines 53-57
    and lines 65, 66 and 67. *)
Inductive console_line : Type :=
  | Generated (filename : string)
  | DurationMs (ms : float)
  | Frequency (f0 f1 : float)
  | SampleRate (hz : Z)
  | Samples (n : Z)
  | NoteWav
  | NoteConvert
  | NoteFfmpeg (filename : string).

Record world : Type := {
  fs : FS.filesystem;
  stdout : list console_line
}.

(** [print(...)].  A console that refuses the text (a closed pipe, an
    encoding without the characters) is not modelled: printing succeeds. *)
Definition print (l : console_line) (w : world) : world :=
  {| fs := fs w; stdout := stdout w ++ [l] |}.

Definition bytes_of_string (s : string) : list byte :=
  String.list_byte_of_string s.

(** [range(n)] *)
Definition range (n : Z) : list Z := map Z.of_nat (seq 0 (Z.to_nat n)).

Section Generator.

Variable L : Libm.
Variable spec : ToneSpecification.

(** Line 15: [int(sample_rate * duration)]. *)
Definition num_samples : result Z :=
  r ← of_int (sample_rate spec);
  to_int (r * duration spec)%float.

(** Lines 18-21. *)
Definition wav_header (n : Z) : result (list byte) :=
  Struct.pack [Struct.F4s; Struct.FI; Struct.F4s]
    [Struct.Bytes (bytes_of_string "RIFF"); Struct.Int (36 + n * 2);
     Struct.Bytes (bytes_of_string "WAVE")].

Definition fmt_chunk : result (list byte) :=
  Struct.pack
    [Struct.F4s; Struct.FI; Struct.FH; Struct.FH; Struct.FI; Struct.FI;
     Struct.FH; Struct.FH]
    [Struct.Bytes (bytes_of_string "fmt "); Struct.Int 16; Struct.Int 1;
     Struct.Int 1; Struct.Int (sample_rate spec);
     Struct.Int (sample_rate spec * 2); Struct.Int 2; Struct.Int 16].

Definition data_header (n : Z) : result (list byte) :=
  Struct.pack [Struct.F4s; Struct.FI]
    [Struct.Bytes (bytes_of_string "data"); Struct.Int (n * 2)].

(** Lines 26-39: the amplitude of sample [i] out of [n]. *)
Definition amplitude (n i : Z) : result float :=
  t ← int_truediv i (sample_rate spec);
  progress ← int_truediv i n;
  let freq :=
    (start_freq spec + (end_freq spec - start_freq spec) * progress)%float in
  sample ← PyMath.sin L (2 * pi * freq * t)%float;
  fade_out ← PyMath.pow2 L (1 - progress)%float;
  Ok (sample * fade_out * volume)%float.

(** Line 42. *)
Definition sample_int (n i : Z) : result Z :=
  a ← amplitude n i;
  to_int (a * 32767)%float.

(** Line 43: the packed sample appended to [samples]. *)
Definition sample_bytes (n i : Z) : result (list byte) :=
  z ← sample_int n i;
  Struct.pack [Struct.Fh] [Struct.Int z].

(** Lines 24-43: the loop, with the list [samples] as accumulator. *)
Fixpoint sample_loop (n : Z) (indices : list Z) (samples : list (list byte))
  : result (list (list byte)) :=
  match indices with
  | [] => Ok samples
  | i :: rest =>
      b ← sample_bytes n i;
      sample_loop n rest (samples ++ [b])
  end.

(** Lines 50-51. *)
Fixpoint write_all (filename : string) (samples : list (list byte))
    (f : FS.filesystem) : FS.filesystem :=
  match samples with
  | [] => f
  | s :: rest => write_all filename rest (FS.write filename s f)
  end.

(** Everything computed before the file is opened (lines 15-43). *)
Definition render
  : result (Z * list byte * list byte * list byte * list (list byte)) :=
  n ← num_samples;
  h ← wav_header n;
  c ← fmt_chunk;
  d ← data_header n;
  samples ← sample_loop n (range n) [];
  Ok (n, h, c, d, samples).

(** [generate_wav(filename, duration, start_freq, end_freq, sample_rate)] *)
Definition generate_wav (filename : string) (w : world)
  : result unit * world :=
  match render with
  | Raise e => (Raise e, w)
  | Ok (n, h, c, d, samples) =>
      match FS.open_wb filename (fs w) with
      | Raise e => (Raise e, w)
      | Ok f0 =>
          let f1 := FS.write filename h f0 in
          let f2 := FS.write filename c f1 in
          let f3 := FS.write filename d f2 in
          let f4 := write_all filename samples f3 in
          let w1 := {| fs := f4; stdout := stdout w |} in
          let w2 := print (Generated filename) w1 in
          let w3 := print (DurationMs (duration spec * 1000)%float) w2 in
          let w4 := print (Frequency (start_freq spec) (end_freq spec)) w3 in
          let w5 := print (SampleRate (sample_rate spec)) w4 in
          (Ok (), print (Samples n) w5)
      end
  end.

End Generator.

(** The console lines of a successful run. *)
Definition summary (spec : ToneSpecification) (filename : string) (n : Z)
  : list console_line :=
  [Generated filename; DurationMs (duration spec * 1000)%float;
   Frequency (start_freq spec) (end_freq spec); SampleRate (sample_rate spec);
   Samples n].

(** The script body: [generate_wav(output_file)] with every default, then
    the three [print] calls of lines 65-67. *)
Definition main (L : Libm) (argv : list string) (w : world)
  : result unit * world :=
  let output_file :=
    match argv with
    | _ :: a :: _ => a
    | _ => "voice-stop-cue.wav"%string
    end in
  match generate_wav L default_spec output_file w with
  | (Raise e, w') => (Raise e, w')
  | (Ok _, w') =>
      (Ok (), print (NoteFfmpeg output_file) (print NoteConvert (print NoteWav w')))
  end.

End ToneCue.

(** ** A reference math library

    [math.sin] and [math.pow] are whatever the platform's libm computes.  The
    development is parametric in it; this instance evaluates the model on
    concrete inputs.  Sine reduces the argument by multiples of 2π and sums
    the odd Taylor polynomial of degree 29, clamped to [-1, 1]; the square
    is the correctly rounded product. *)

Module RefLibm.

Local Open Scope float_scope.

Definition two_pi : float := 2 * PyFloat.pi.

(** Adding and subtracting 1.5 * 2^52 rounds to the nearest integer. *)
Definition magic : float := 0x1.8p+52.

Definition nearest_integer (x : float) : float := (x + magic) - magic.

Definition sin_poly (r : float) : float :=
  let r2 := r * r in
  let c (k : float) := 1 / k in
  r * (1 - r2 * c 6 * (1 - r2 * c 20 * (1 - r2 * c 42 * (1 - r2 * c 72 *
      (1 - r2 * c 110 * (1 - r2 * c 156 * (1 - r2 * c 210 * (1 - r2 * c 272 *
      (1 - r2 * c 342 * (1 - r2 * c 420 * (1 - r2 * c 506 * (1 - r2 * c 600 *
      (1 - r2 * c 702 * (1 - r2 * c 812)))))))))))))).

Definition clamp (p : float) : float :=
  if p <? -1 then -1
  else if 1 <? p then 1
  else if is_nan p then 0
  else p.

Definition sin (x : float) : float :=
  if is_finite x then
    let k := nearest_integer (x / two_pi) in
    clamp (sin_poly (x - k * two_pi))
  else nan.

Definition pow (x y : float) : float :=
  if y =? 2 then x * x else nan.

Definition libm : Libm := {| libm_sin := sin; libm_pow := pow |}.

End RefLibm.

(** ** The generator as the specification words it *)

(** A specification is valid when the duration and the sample rate are
    positive. *)
Definition valid_spec (spec : ToneCue.ToneSpecification) : Prop :=
  (0 <? ToneCue.duration spec)%float = true /\ 0 < ToneCue.sample_rate spec.

(** [floor(sampleRateHz * durationSeconds)] *)
Definition floor_sample_count (spec : ToneCue.ToneSpecification) : result Z :=
  r ← PyFloat.of_int (ToneCue.sample_rate spec);
  PyFloat.floor (r * ToneCue.duration spec)%float.

(** [round(amplitude * 32767)], rounding to nearest. *)
Definition rounded_sample_int (L : Libm) (spec : ToneCue.ToneSpecification)
    (n i : Z) : result Z :=
  a ← ToneCue.amplitude L spec n i;
  PyFloat.round (a * 32767)%float.

(** The two factors of line 39 on their own: the sine of the swept phase
    (lines 27-33) and the envelope (lines 28 and 36). *)
Module Loop.

Definition sample (L : Libm) (spec : ToneCue.ToneSpecification) (n i : Z)
  : result float :=
  t ← PyFloat.int_truediv i (ToneCue.sample_rate spec);
  progress ← PyFloat.int_truediv i n;
  let freq :=
    (ToneCue.start_freq spec
     + (ToneCue.end_freq spec - ToneCue.start_freq spec) * progress)%float in
  PyMath.sin L (2 * PyFloat.pi * freq * t)%float.

Definition fade_out (L : Libm) (n i : Z) : result float :=
  progress ← PyFloat.int_truediv i n;
  PyMath.pow2 L (1 - progress)%float.

End Loop.

(** Lines 60-62: the output path the script settles on. *)
Definition chosen_output (argv : list string) : string :=
  match argv with
  | _ :: a :: _ => a
  | _ => "voice-stop-cue.wav"%string
  end.

(** Half a second of a constant 1 Hz tone at four samples per second. *)
Definition flat_spec : ToneCue.ToneSpecification :=
  {| ToneCue.duration := 0.5; ToneCue.start_freq := 1; ToneCue.end_freq := 1;
     ToneCue.sample_rate := 4 |}.

(** A machine with no files and a blank console. *)
Definition empty_world : ToneCue.world :=
  {| ToneCue.fs := {| FS.files := ∅; FS.unwritable := ∅ |}; ToneCue.stdout := [] |}.

(** The same machine with a stale file already in place. *)
Definition stale_world : ToneCue.world :=
  {| ToneCue.fs := {| FS.files := {[ "cue.wav"%string := [x00; x01; x02] ]};
                      FS.unwritable := ∅ |};
     ToneCue.stdout := [] |}.

(** The defaults with a duration of zero. *)
Definition zero_duration_spec : ToneCue.ToneSpecification :=
  {| ToneCue.duration := 0; ToneCue.start_freq := 800; ToneCue.end_freq := 400;
     ToneCue.sample_rate := 44100 |}.


(** A sample rate one above the largest the byte-rate field can take. *)
Definition oversize_rate_spec : ToneCue.ToneSpecification :=
  {| ToneCue.duration := 0; ToneCue.start_freq := 800; ToneCue.end_freq := 400;
     ToneCue.sample_rate := 2147483648 |}.

(** The defaults at a sample rate of zero. *)
Definition zero_rate_spec : ToneCue.ToneSpecification :=
  {| ToneCue.duration := 0.25; ToneCue.start_freq := 800; ToneCue.end_freq := 400;
     ToneCue.sample_rate := 0 |}.

(** The defaults with a duration that is not a number. *)
Definition nan_duration_spec : ToneCue.ToneSpecification :=
  {| ToneCue.duration := nan; ToneCue.start_freq := 800; ToneCue.end_freq := 400;
     ToneCue.sample_rate := 44100 |}.

(** A machine on which the default output cannot be opened for writing. *)
Definition read_only_world : ToneCue.world :=
  {| ToneCue.fs := {| FS.files := ∅;
                      FS.unwritable := {[ "voice-stop-cue.wav"%string ]} |};
     ToneCue.stdout := [] |}.

(** Frequencies up to 2^900 Hz in magnitude keep the phase of line 33
    finite. *)
Definition frequency_limit : float := 0x1p+900%float.

Definition moderate_frequencies (spec : ToneCue.ToneSpecification) : Prop :=
  PyFloat.finite (ToneCue.start_freq spec) = true /\
  PyFloat.finite (ToneCue.end_freq spec) = true /\
  (Qabs (PyFloat.F2Q (ToneCue.start_freq spec)) <= PyFloat.F2Q frequency_limit)%Q /\
  (Qabs (PyFloat.F2Q (ToneCue.end_freq spec)) <= PyFloat.F2Q frequency_limit)%Q.

Definition phase_limit : float := 0x1p+936%float.

(** 9830.5, a representable number above 0.3 * 32767. *)
Definition sample_ceiling : float := 9830.5%float.

(** ** The canonical PCM layout, in the words of the format

    A RIFF chunk, a 16-byte [fmt ] subchunk describing mono 16-bit linear
    PCM, and a [data] subchunk holding the samples. *)

Definition riff_header (sample_rate n : Z) : list byte :=
  String.list_byte_of_string "RIFF" ++ Struct.le_bytes 4 (36 + n * 2) ++
  String.list_byte_of_string "WAVE" ++
  String.list_byte_of_string "fmt " ++ Struct.le_bytes 4 16 ++
  Struct.le_bytes 2 1 ++ Struct.le_bytes 2 1 ++
  Struct.le_bytes 4 sample_rate ++ Struct.le_bytes 4 (sample_rate * 2) ++
  Struct.le_bytes 2 2 ++ Struct.le_bytes 2 16 ++
  String.list_byte_of_string "data" ++ Struct.le_bytes 4 (n * 2).

Definition riff_layout (sample_rate n : Z) (samples : list Z) : list byte :=
  riff_header sample_rate n ++ concat (map (Struct.le_bytes 2) samples).

(** The bytes [off, off + len) of a file. *)
Definition slice (off len : nat) (content : list byte) : list byte :=
  take len (drop off content).

(** ** What is assumed of the platform's libm

    A sine that is not NaN lies in [-1, 1], and the square of a float of the
    unit interval stays in the unit interval. *)

Definition sin_bounded (L : Libm) : Prop :=
  forall x, is_nan (libm_sin L x) = true \/ PyFloat.in_range (-1) 1 (libm_sin L x).

(** For the run to complete the sine of a finite argument must also be a
    number. *)
Definition sin_total (L : Libm) : Prop :=
  forall x, PyFloat.finite x = true -> PyFloat.in_range (-1) 1 (libm_sin L x).

Definition pow_unit (L : Libm) : Prop :=
  forall x, PyFloat.in_range 0 1 x -> PyFloat.in_range 0 1 (libm_pow L x 2%float).

(** The square of 1 is 1 (C Annex F: [pow(+1, y)] is 1 for every [y]). *)
Definition pow_one (L : Libm) : Prop :=
  libm_pow L 1%float 2%float = 1%float.

(** The square of a float of [0, 2^-k] stays in [0, 4^-k]: a power of two
    is a float, so this holds of any [pow] whose error is below one unit in
    the last place.  At [k = 0] it is [pow_unit]. *)
Definition pow_dyadic (L : Libm) : Prop :=
  forall k x, 0 <= k <= 52 ->
    PyFloat.in_range 0 (PyFloat.pow2 (- k)) x ->
    PyFloat.in_range 0 (PyFloat.pow2 (- (2 * k))) (libm_pow L x 2%float).

(** The sine of a zero is a zero (C Annex F: [sin(±0)] is [±0]). *)
Definition sin_zero (L : Libm) : Prop :=
  forall x s, Prim2SF x = S754_zero s ->
    exists s', Prim2SF (libm_sin L x) = S754_zero s'.

(** ** [os.path] on POSIX *)

Module OsPath.

Local Open Scope string_scope.

Definition is_sep (c : ascii) : bool := bool_decide (c = "/"%char).

Fixpoint has_sep (s : string) : bool :=
  match s with
  | EmptyString => false
  | String c rest => is_sep c || has_sep rest
  end.

Fixpoint all_sep (s : string) : bool :=
  match s with
  | EmptyString => true
  | String c rest => is_sep c && all_sep rest
  end.

(** [p[:p.rfind('/') + 1]] *)
Fixpoint through_last_sep (s : string) : string :=
  match s with
  | EmptyString => EmptyString
  | String c rest =>
      if is_sep c || has_sep rest then String c (through_last_sep rest)
      else EmptyString
  end.

(** [s.rstrip('/')] *)
Fixpoint rstrip_sep (s : string) : string :=
  match s with
  | EmptyString => EmptyString
  | String c rest => if all_sep s then EmptyString else String c (rstrip_sep rest)
  end.

Definition dirname (p : string) : string :=
  let head := through_last_sep p in
  if all_sep head then head else rstrip_sep head.

Fixpoint ends_with_sep (s : string) : bool :=
  match s with
  | EmptyString => false
  | String c EmptyString => is_sep c
  | String _ rest => ends_with_sep rest
  end.

Definition join2 (path b : string) : string :=
  match b with
  | String c _ =>
      if is_sep c then b
      else if bool_decide (path = EmptyString) || ends_with_sep path then path +:+ b
      else path +:+ "/" +:+ b
  | EmptyString =>
      if bool_decide (path = EmptyString) || ends_with_sep path then path
      else path +:+ "/"
  end.

Definition join (a : string) (ps : list string) : string :=
  fold_left join2 ps a.

End OsPath.

(** ** scripts/svg-to-png.py *)

Module IconRasterizer.

Local Open Scope string_scope.

(** What [import cairosvg] provides: [svg2png(url, write_to, output_width,
    output_height)], which may touch the file system and may raise. *)
Record Cairosvg : Type := {
  svg2png : string -> string -> Z -> Z -> FS.filesystem ->
            result unit * FS.filesystem
}.

(** The process environment: the value of [__file__] and the outcome of
    the import ([None] when it raises [ImportError]). *)
Record environment : Type := {
  script_file : string;
  cairosvg : option Cairosvg
}.

Inductive console_line : Type :=
  | NotInstalled
  | ToInstall
  | Alternative
  | NotFound (svg_file : string)
  | GeneratedIcon (size : Z)
  | ErrorConverting (size : Z) (e : py_exn)
  | Complete.

(** The file-system calls the script makes, in order: [os.path.exists] and
    [cairosvg.svg2png]. *)
Inductive fs_call : Type :=
  | Probe (path : string)
  | Render (url write_to : string) (width height : Z).

Record world : Type := {
  fs : FS.filesystem;
  stdout : list console_line;
  calls : list fs_call
}.

Definition print (l : console_line) (w : world) : world :=
  {| fs := fs w; stdout := (stdout w ++ [l])%list; calls := calls w |}.

Definition sizes : list Z := [16; 32; 48; 128].

Definition icons_dir (env : environment) : string :=
  OsPath.join (OsPath.dirname (script_file env)) [".."; "public"; "icons"].

Definition svg_file (env : environment) (size : Z) : string :=
  OsPath.join (icons_dir env) ["icon-" +:+ pretty size +:+ ".svg"].

Definition png_file (env : environment) (size : Z) : string :=
  OsPath.join (icons_dir env) ["icon-" +:+ pretty size +:+ ".png"].

(** Lines 23-39: the body of the loop for one size. *)
Definition convert (env : environment) (c : Cairosvg) (size : Z) (w : world)
  : world :=
  let probed := (calls w ++ [Probe (svg_file env size)])%list in
  if negb (FS.exists_ (svg_file env size) (fs w)) then
    print (NotFound (svg_file env size))
      {| fs := fs w; stdout := stdout w; calls := probed |}
  else
    let called :=
      (probed ++ [Render (svg_file env size) (png_file env size) size size])%list in
    match svg2png c (svg_file env size) (png_file env size) size size (fs w) with
    | (Ok _, f) =>
        print (GeneratedIcon size) {| fs := f; stdout := stdout w; calls := called |}
    | (Raise e, f) =>
        print (ErrorConverting size e)
          {| fs := f; stdout := stdout w; calls := called |}
    end.

(** Lines 22-39. *)
Fixpoint convert_all (env : environment) (c : Cairosvg) (todo : list Z)
    (w : world) : world :=
  match todo with
  | [] => w
  | size :: rest => convert_all env c rest (convert env c size w)
  end.

(** The whole script; the first component is the exit code. *)
Definition main (env : environment) (w : world) : Z * world :=
  match cairosvg env with
  | None => (1, print Alternative (print ToInstall (print NotInstalled w)))
  | Some c => (0, print Complete (convert_all env c sizes w))
  end.

(** The paths the script has asked [os.path.exists] about, in order. *)
Fixpoint probes (cs : list fs_call) : list string :=
  match cs with
  | [] => []
  | Probe path :: rest => path :: probes rest
  | Render _ _ _ _ :: rest => probes rest
  end.

(** What [os.path.join] puts in front of a relative last component. *)
Definition dir_prefix (dir : string) : string :=
  if bool_decide (dir = EmptyString) || OsPath.ends_with_sep dir then dir
  else dir +:+ "/".

(** A console line that reports on the given size. *)
Definition reports (env : environment) (size : Z) (l : console_line) : Prop :=
  l = NotFound (svg_file env size) \/ l = GeneratedIcon size \/
  exists e, l = ErrorConverting size e.

(** The collaborator's contract: given an existing source it succeeds and
    leaves the file system as it was but for the destination, which now
    exists. *)
Definition rasterizes (c : Cairosvg) : Prop :=
  forall url write_to width height f,
    is_Some (FS.files f !! url) ->
    exists png,
      svg2png c url write_to width height f =
      (Ok (), {| FS.files := <[write_to := png]> (FS.files f);
                 FS.unwritable := FS.unwritable f |}).

(** A stand-in rasterizer: writes the PNG signature when the source exists
    and raises otherwise. *)
Definition png_signature : list byte :=
  [x89; x50; x4e; x47; x0d; x0a; x1a; x0a].

Definition stub_cairosvg : Cairosvg :=
  {| svg2png := fun url write_to _ _ f =>
       if FS.exists_ url f then
         (Ok (), {| FS.files := <[write_to := png_signature]> (FS.files f);
                    FS.unwritable := FS.unwritable f |})
       else (Raise (OtherException "no such file"), f) |}.

Definition stub_env : environment :=
  {| script_file := "scripts/svg-to-png.py"; cairosvg := Some stub_cairosvg |}.

Definition no_cairosvg_env : environment :=
  {| script_file := "scripts/svg-to-png.py"; cairosvg := None |}.

(** An asset directory without [icon-48.svg]. *)
Definition three_icons : world :=
  {| fs := {| FS.files :=
                {[ "scripts/../public/icons/icon-16.svg" := [x3c];
                   "scripts/../public/icons/icon-32.svg" := [x3c];
                   "scripts/../public/icons/icon-128.svg" := [x3c] ]};
              FS.unwritable := ∅ |};
     stdout := [];
     calls := [] |}.

(** The console line of a size when the rasterizer honours its contract:
    decided by the presence of the source alone. *)
Definition outcome (env : environment) (f : FS.filesystem) (size : Z)
  : console_line :=
  if FS.exists_ (svg_file env size) f then GeneratedIcon size
  else NotFound (svg_file env size).

(** The same when every call of the rasterizer raises [e]. *)
Definition failed_outcome (env : environment) (e : py_exn) (f : FS.filesystem)
    (size : Z) : console_line :=
  if FS.exists_ (svg_file env size) f then ErrorConverting size e
  else NotFound (svg_file env size).

(** A rasterizer that raises [e] whatever it is given, touching nothing. *)
Definition always_fails (c : Cairosvg) (e : py_exn) : Prop :=
  forall url write_to width height f,
    svg2png c url write_to width height f = (Raise e, f).

(** The calls of [cairosvg.svg2png] among the file-system calls. *)
Fixpoint renders (cs : list fs_call) : list fs_call :=
  match cs with
  | [] => []
  | Probe _ :: rest => renders rest
  | Render url write_to width height :: rest =>
      Render url write_to width height :: renders rest
  end.

(** The one call the loop makes for a size. *)
Definition render_call (env : environment) (size : Z) : fs_call :=
  Render (svg_file env size) (png_file env size) size size.

Definition broken_cairosvg : Cairosvg :=
  {| svg2png := fun _ _ _ _ f => (Raise (OtherException "cairo"), f) |}.

Definition broken_env : environment :=
  {| script_file := "scripts/svg-to-png.py"; cairosvg := Some broken_cairosvg |}.

(** The script started by an absolute path. *)
Definition absolute_env : environment :=
  {| script_file := "/repo/scripts/svg-to-png.py"; cairosvg := Some stub_cairosvg |}.

(** A machine without any file. *)
Definition no_icons : world :=
  {| fs := {| FS.files := ∅; FS.unwritable := ∅ |}; stdout := []; calls := [] |}.

(** One turn of the loop as the specification words it: the line printed
    for a size reports what happened to that size.  Not found when the
    source is missing, in which case the rasterizer is not called and
    nothing changes; otherwise the rasterizer is called once, and the line
    is the success line when the call returned and the error line, with
    the exception, when it raised. *)
Inductive turn (env : environment) (c : Cairosvg) (size : Z) (f : FS.filesystem)
  : console_line -> FS.filesystem -> Prop :=
  | turn_not_found :
      FS.files f !! svg_file env size = None ->
      turn env c size f (NotFound (svg_file env size)) f
  | turn_generated f' :
      is_Some (FS.files f !! svg_file env size) ->
      svg2png c (svg_file env size) (png_file env size) size size f = (Ok (), f') ->
      turn env c size f (GeneratedIcon size) f'
  | turn_error e f' :
      is_Some (FS.files f !! svg_file env size) ->
      svg2png c (svg_file env size) (png_file env size) size size f = (Raise e, f') ->
      turn env c size f (ErrorConverting size e) f'.

(** The turns of a list of sizes, one after the other: each size gets its
    turn on the file system the turns before it have left. *)
Inductive turns (env : environment) (c : Cairosvg)
  : list Z -> FS.filesystem -> list console_line -> FS.filesystem -> Prop :=
  | turns_nil f : turns env c [] f [] f
  | turns_cons size rest f line f1 lines f2 :
      turn env c size f line f1 ->
      turns env c rest f1 lines f2 ->
      turns env c (size :: rest) f (line :: lines) f2.

(** A rasterizer that rejects one source, raising [e] and touching
    nothing, and honours its contract on every other source. *)
Definition rejects (c : Cairosvg) (bad : string) (e : py_exn) : Prop :=
  (forall write_to width height f,
     svg2png c bad write_to width height f = (Raise e, f)) /\
  (forall url write_to width height f,
     url <> bad -> is_Some (FS.files f !! url) ->
     exists png,
       svg2png c url write_to width height f =
       (Ok (), {| FS.files := <[write_to := png]> (FS.files f);
                  FS.unwritable := FS.unwritable f |})).

(** The console line of a size under such a rasterizer. *)
Definition local_outcome (env : environment) (bad : Z) (e : py_exn)
    (f : FS.filesystem) (size : Z) : console_line :=
  if FS.exists_ (svg_file env size) f then
    if bool_decide (size = bad) then ErrorConverting size e
    else GeneratedIcon size
  else NotFound (svg_file env size).

(** A stand-in rasterizer that cannot read [icon-32.svg]. *)
Definition picky_cairosvg : Cairosvg :=
  {| svg2png := fun url write_to width height f =>
       if bool_decide (url = "scripts/../public/icons/icon-32.svg") then
         (Raise (OtherException "malformed"), f)
       else svg2png stub_cairosvg url write_to width height f |}.

Definition picky_env : environment :=
  {| script_file := "scripts/svg-to-png.py"; cairosvg := Some picky_cairosvg |}.

End IconRasterizer.

(** * Facts about binary64 rounding

    The library specifies each primitive operation by the bit-level
    algorithm of [SpecFloat].  The lemmas below extract from it what the
    generator's arithmetic needs: a rounded result never exceeds, in
    magnitude, a representable bound on the exact result. *)

Module FloatFacts.

Import PyFloat.

Lemma digits2_pos_size (p : positive) : digits2_pos p = Pos.size p.
Proof. induction p; simpl; congruence. Qed.

Lemma digits2_bounds (p : positive) :
  2 ^ (Z.pos (digits2_pos p) - 1) <= Z.pos p < 2 ^ Z.pos (digits2_pos p).
Proof.
  rewrite digits2_pos_size. split.
  - pose proof (Pos.size_le p) as H.
    apply Pos2Z.pos_le_pos in H. rewrite Pos2Z.inj_pow in H.
    replace (Z.pos (Pos.size p)) with (Z.succ (Z.pos (Pos.size p) - 1)) in H by lia.
    rewrite Z.pow_succ_r in H by lia. change (Z.pos p~0) with (2 * Z.pos p) in H. lia.
  - pose proof (Pos.size_gt p) as H.
    apply Pos2Z.pos_lt_pos in H. now rewrite Pos2Z.inj_pow in H.
Qed.


Lemma shr_1_inv N D r : 0 < D -> shr_inv N D r -> shr_inv N (2 * D) (shr_1 r).
Proof.
  intros HD. destruct r as [m r s]. unfold shr_inv.
  cbn [shr_m shr_r shr_s]. intros (Hm & Hb & Hx).
  destruct m as [|[p|p|]|p]; cbn [shr_1 shr_m shr_r shr_s]; try lia.
  - split; [lia|]. split; [lia|].
    destruct r, s; cbn [orb] in *; split; intros; try lia; intuition (try discriminate; try lia).
  - rewrite (Pos2Z.inj_xO p) in Hb, Hx.
    split; [lia|]. split; [lia|].
    destruct r, s; cbn [orb] in *; split; intros; try lia; intuition (try discriminate; try lia).
Qed.

Lemma pow2_xI p : 2 ^ Z.pos p~1 = 2 ^ Z.pos p * (2 ^ Z.pos p * 2).
Proof.
  rewrite (Pos2Z.inj_xI p).
  replace (2 * Z.pos p + 1) with (Z.pos p + Z.pos p + 1) by lia.
  rewrite !Z.pow_add_r by lia. rewrite Z.pow_1_r. ring.
Qed.

Lemma pow2_xO p : 2 ^ Z.pos p~0 = 2 ^ Z.pos p * 2 ^ Z.pos p.
Proof.
  rewrite (Pos2Z.inj_xO p).
  replace (2 * Z.pos p) with (Z.pos p + Z.pos p) by lia.
  rewrite !Z.pow_add_r by lia. ring.
Qed.

Lemma iter_shr_1_inv p : forall N D r,
  0 < D -> shr_inv N D r -> shr_inv N (2 ^ Z.pos p * D) (SpecFloat.iter_pos shr_1 p r).
Proof.
  induction p as [p IH|p IH|]; intros N D r HD H; cbn [SpecFloat.iter_pos].
  - assert (0 < 2 ^ Z.pos p) by (apply Z.pow_pos_nonneg; lia).
    apply shr_1_inv in H; [|lia].
    apply IH in H; [|lia]. apply IH in H; [|nia].
    rewrite pow2_xI. 
    replace (2 ^ Z.pos p * (2 ^ Z.pos p * 2) * D) with (2 ^ Z.pos p * (2 ^ Z.pos p * (2 * D))) by ring.
    exact H.
  - assert (0 < 2 ^ Z.pos p) by (apply Z.pow_pos_nonneg; lia).
    apply IH in H; [|lia]. apply IH in H; [|nia].
    rewrite pow2_xO.
    replace (2 ^ Z.pos p * 2 ^ Z.pos p * D) with (2 ^ Z.pos p * (2 ^ Z.pos p * D)) by ring.
    exact H.
  - apply shr_1_inv in H; [|lia]. exact H.
Qed.

Lemma fexp_eq x : fexp prec emax x = Z.max (x - 53) (-1074).
Proof. reflexivity. Qed.

Lemma shr_spec rec e n N D :
  0 < D -> shr_inv N D rec ->
  snd (shr rec e n) = e + Z.max n 0 /\
  shr_inv N (2 ^ Z.max n 0 * D) (fst (shr rec e n)).
Proof.
  intros HD H. destruct n as [|p|p]; cbn [shr fst snd].
  - rewrite Z.max_id. change (2 ^ 0) with 1. rewrite Z.mul_1_l. split; [lia|exact H].
  - rewrite Z.max_l by lia. split; [reflexivity|]. now apply iter_shr_1_inv.
  - rewrite Z.max_r by lia. change (2 ^ 0) with 1. rewrite Z.mul_1_l. split; [lia|exact H].
Qed.

Lemma shr_record_of_loc_inv N D m l :
  0 <= m -> m * D <= N < (m + 1) * D -> (N = m * D <-> l = loc_Exact) ->
  shr_inv N D (shr_record_of_loc m l).
Proof.
  intros Hm Hb Hx. unfold shr_inv.
  destruct l as [|[| |]]; cbn [shr_record_of_loc shr_m shr_r shr_s];
    (split; [exact Hm|]); (split; [exact Hb|]);
    split; intros HH; try (apply Hx in HH; discriminate); try tauto;
    destruct HH; try discriminate.
  all: now apply Hx.
Qed.

Lemma Zdigits2_cases m :
  0 <= m ->
  (m = 0 /\ Zdigits2 m = 0) \/
  (0 < m /\ 0 < Zdigits2 m /\ 2 ^ (Zdigits2 m - 1) <= m < 2 ^ Zdigits2 m).
Proof.
  intros Hm. destruct m as [|p|p]; [left; auto| right | lia].
  cbn [Zdigits2]. split; [lia|]. split; [lia|]. apply digits2_bounds.
Qed.

Lemma bounded_inv mb eb :
  bounded prec emax mb eb = true ->
  fexp prec emax (Z.pos (digits2_pos mb) + eb) = eb /\ eb <= 971.
Proof.
  unfold bounded, canonical_mantissa. intros H.
  apply andb_prop in H as [H1 H2].
  apply Z.eqb_eq in H1. apply Z.leb_le in H2. split; [exact H1|].
  exact H2.
Qed.

(** Comparing magnitudes gives a comparison of digit counts. *)
Lemma digits_le_of_le a b da db s :
  0 <= s -> 0 < da -> 2 ^ (da - 1) <= a -> 0 <= db -> b < 2 ^ db ->
  a <= b * 2 ^ s -> da <= db + s.
Proof.
  intros Hs Hda Ha Hdb Hb Hab.
  assert (2 ^ (da - 1) < 2 ^ (db + s)) as Hlt.
  { rewrite Z.pow_add_r by lia.
    assert (0 < 2 ^ s) by (apply Z.pow_pos_nonneg; lia). nia. }
  apply Z.pow_lt_mono_r_iff in Hlt; lia.
Qed.

Lemma round_nearest_even_bounds m r s N D Nb :
  0 < D -> shr_inv N D {| shr_m := m; shr_r := r; shr_s := s |} ->
  N <= Nb * D ->
  let m' := round_nearest_even m (loc_of_shr_record {| shr_m := m; shr_r := r; shr_s := s |}) in
  0 <= m' <= Nb.
Proof.
  intros HD (Hm & Hb & Hx) HN. cbn [shr_m shr_r shr_s] in *.
  assert (m <= Nb) by nia.
  assert (r = false /\ s = false \/ m + 1 <= Nb) as Hc.
  { destruct r, s; auto; right;
      (assert (N <> m * D) by (intros HH; apply Hx in HH; destruct HH; discriminate)); nia. }
  destruct r, s; cbn [loc_of_shr_record round_nearest_even];
    try (destruct (Z.even m)); destruct Hc as [[? ?]|?]; try discriminate; lia.
Qed.

Lemma round_aux_Z sx mx ex lx N D mb eb :
  0 < D -> 0 <= mx -> mx * D <= N < (mx + 1) * D ->
  (N = mx * D <-> lx = loc_Exact) ->
  ex <= fexp prec emax (Zdigits2 mx + ex) ->
  bounded prec emax mb eb = true ->
  N * 2 ^ (ex - Z.min ex eb) <= Z.pos mb * 2 ^ (eb - Z.min ex eb) * D ->
  binary_round_aux prec emax sx mx ex lx = S754_zero sx \/
  exists m e, binary_round_aux prec emax sx mx ex lx = S754_finite sx m e /\
     e <= eb /\ Z.pos m <= Z.pos mb * 2 ^ (eb - e).
Proof.
  intros HD Hmx Hb Hx Hpre Hbd Hle.
  apply bounded_inv in Hbd as [Hcan Hemax].
  pose proof (digits2_bounds mb) as Hdb.
  set (db := Z.pos (digits2_pos mb)) in *.
  assert (0 < db) as Hdbpos by (unfold db; lia).
  set (e1 := fexp prec emax (Zdigits2 mx + ex)) in *.
  (* the quantum of the rounded value is at most that of the bound *)
  assert (e1 <= eb) as He1.
  { destruct (Zdigits2_cases mx Hmx) as [[-> Hd]|(Hpos & Hdpos & Hd)].
    - subst e1. rewrite !fexp_eq in *. cbn [Zdigits2] in *. lia.
    - assert (Zdigits2 mx + ex <= db + eb) as Hdig.
      { destruct (Z.le_gt_cases ex eb) as [Hc|Hc].
        - rewrite Z.min_l in Hle by lia. rewrite Z.sub_diag in Hle.
          change (2 ^ 0) with 1 in Hle. rewrite Z.mul_1_r in Hle.
          assert (mx <= Z.pos mb * 2 ^ (eb - ex)) by nia.
          pose proof (digits_le_of_le mx (Z.pos mb) (Zdigits2 mx) db (eb - ex)).
          lia.
        - rewrite Z.min_r in Hle by lia. rewrite Z.sub_diag in Hle.
          change (2 ^ 0) with 1 in Hle. rewrite Z.mul_1_r in Hle.
          assert (mx * 2 ^ (ex - eb) <= Z.pos mb) by nia.
          assert (2 ^ (Zdigits2 mx - 1 + (ex - eb)) < 2 ^ db) as Hlt.
          { rewrite Z.pow_add_r by lia.
            assert (0 < 2 ^ (ex - eb)) by (apply Z.pow_pos_nonneg; lia). nia. }
          apply Z.pow_lt_mono_r_iff in Hlt; lia. }
      subst e1. rewrite !fexp_eq in *. lia. }
  assert (ex <= eb) as Hexeb by lia.
  rewrite Z.min_l in Hle by lia. rewrite Z.sub_diag in Hle.
  change (2 ^ 0) with 1 in Hle. rewrite Z.mul_1_r in Hle.
  (* first shift *)
  unfold binary_round_aux, shr_fexp. fold e1.
  pose proof (shr_spec (shr_record_of_loc mx lx) ex (e1 - ex) N D HD
                (shr_record_of_loc_inv N D mx lx Hmx Hb Hx)) as [Hs1 Hi1].
  destruct (shr (shr_record_of_loc mx lx) ex (e1 - ex)) as [rec1 e1'].
  cbn [fst snd] in Hs1, Hi1.
  rewrite Z.max_l in Hs1 by lia. rewrite Z.max_l in Hi1 by lia.
  assert (e1' = e1) as -> by lia. clear Hs1.
  set (D1 := 2 ^ (e1 - ex) * D) in *.
  assert (0 < 2 ^ (e1 - ex)) as Hp1 by (apply Z.pow_pos_nonneg; lia).
  assert (0 < D1) as HD1 by (unfold D1; nia).
  set (Nb := Z.pos mb * 2 ^ (eb - e1)).
  assert (N <= Nb * D1) as HNb.
  { unfold Nb, D1.
    replace (eb - ex) with ((eb - e1) + (e1 - ex)) in Hle by lia.
    rewrite Z.pow_add_r in Hle by lia. nia. }
  destruct rec1 as [m1 r1 s1].
  pose proof (round_nearest_even_bounds m1 r1 s1 N D1 Nb HD1 Hi1 HNb) as Hm2.
  cbn zeta in Hm2. cbn [shr_m].
  set (m2 := round_nearest_even m1
               (loc_of_shr_record {| shr_m := m1; shr_r := r1; shr_s := s1 |})) in *.
  (* second shift *)
  set (k2 := fexp prec emax (Zdigits2 m2 + e1) - e1).
  assert (shr_inv m2 1 (shr_record_of_loc m2 loc_Exact)) as Hi0.
  { apply shr_record_of_loc_inv; try lia. split; auto. intros; lia. }
  pose proof (shr_spec (shr_record_of_loc m2 loc_Exact) e1 k2 m2 1 ltac:(lia) Hi0)
    as [Hs2 Hi2].
  destruct (shr (shr_record_of_loc m2 loc_Exact) e1 k2) as [rec2 e2].
  cbn [fst snd] in Hs2, Hi2. rewrite Z.mul_1_r in Hi2.
  destruct Hi2 as (Hm3 & Hb3 & _).
  destruct (shr_m rec2) as [|m3|m3] eqn:Em3; [left; reflexivity| |lia].
  right. exists m3, e2.
  assert (0 < 2 ^ Z.max k2 0) as Hp2 by (apply Z.pow_pos_nonneg; lia).
  assert (0 < 2 ^ (eb - e1)) as Hp3 by (apply Z.pow_pos_nonneg; lia).
  assert (0 < m2) as Hm2pos by nia.
  assert (e2 <= eb) as He2.
  { destruct (Z.le_gt_cases k2 0) as [Hk|Hk]; [lia|].
    rewrite Z.max_l in Hs2 by lia.
    destruct (Zdigits2_cases m2 ltac:(lia)) as [[? ?]|(_ & Hdpos & Hd)]; [lia|].
    pose proof (digits_le_of_le m2 (Z.pos mb) (Zdigits2 m2) db (eb - e1)).
    assert (Zdigits2 m2 <= db + (eb - e1)) by (unfold Nb in Hm2; lia).
    unfold k2 in Hs2. rewrite fexp_eq in Hs2, Hcan. lia. }
  assert (Z.pos m3 <= Z.pos mb * 2 ^ (eb - e2)) as Hval.
  { assert (Z.pos m3 * 2 ^ Z.max k2 0 <= Nb) as H1 by lia.
    unfold Nb in H1.
    replace (eb - e1) with ((eb - e2) + Z.max k2 0) in H1 by lia.
    rewrite Z.pow_add_r in H1 by lia.
    rewrite Z.mul_assoc in H1.
    apply Z.mul_le_mono_pos_r in H1; lia. }
  replace (e2 <=? emax - prec) with true.
  - auto.
  - symmetry. apply Z.leb_le. change (emax - prec) with 971. lia.
Qed.

Local Open Scope Q_scope.

Lemma pow2_pos e : 0 < pow2 e.
Proof. unfold pow2. apply Qpower_0_lt. reflexivity. Qed.

Lemma pow2_add a b : pow2 (a + b) == pow2 a * pow2 b.
Proof. unfold pow2. apply Qpower_plus. discriminate. Qed.

Lemma pow2_Z e : (0 <= e)%Z -> pow2 e == inject_Z (2 ^ e).
Proof. intros H. unfold pow2. rewrite Zpower_Qpower by exact H. reflexivity. Qed.

Lemma pow2_split e c : (c <= e)%Z -> pow2 e == inject_Z (2 ^ (e - c)) * pow2 c.
Proof.
  intros H. replace e with ((e - c) + c)%Z at 1 by lia.
  rewrite pow2_add, pow2_Z by lia. reflexivity.
Qed.

Lemma scaled_le_Z a ea b eb :
  inject_Z a * pow2 ea <= inject_Z b * pow2 eb ->
  (a * 2 ^ (ea - Z.min ea eb) <= b * 2 ^ (eb - Z.min ea eb))%Z.
Proof.
  intros H. set (c := Z.min ea eb).
  rewrite (pow2_split ea c), (pow2_split eb c) in H by (unfold c; lia).
  rewrite !Qmult_assoc in H. rewrite <- !inject_Z_mult in H.
  apply Qmult_le_r in H; [|apply pow2_pos].
  rewrite Zle_Qle. exact H.
Qed.

Lemma Z_le_scaled a ea b eb :
  (ea <= eb)%Z -> (a <= b * 2 ^ (eb - ea))%Z ->
  inject_Z a * pow2 ea <= inject_Z b * pow2 eb.
Proof.
  intros He H. rewrite (pow2_split eb ea) by lia.
  rewrite Qmult_assoc, <- inject_Z_mult.
  apply Qmult_le_r; [apply pow2_pos|]. rewrite <- Zle_Qle. exact H.
Qed.





Lemma SFmag_nonneg x : 0 <= SFmag x.
Proof.
  destruct x; cbn; try apply Qle_refl.
  apply Qmult_le_0_compat; [|apply Qlt_le_weak, pow2_pos].
  change 0 with (inject_Z 0). rewrite <- Zle_Qle. lia.
Qed.

Lemma SF2Q_sign_mag x :
  SF2Q x == if SFsign x then - SFmag x else SFmag x.
Proof.
  destruct x as [s|s| |s m e]; cbn; try (destruct s; reflexivity); try reflexivity.
  destruct s; cbn [cond_Zopp]; [|reflexivity].
  rewrite inject_Z_opp. ring.
Qed.


Lemma round_aux_Q sx mx ex lx N D mb eb :
  (0 < D)%Z -> (0 <= mx)%Z -> (mx * D <= N < (mx + 1) * D)%Z ->
  (N = (mx * D)%Z <-> lx = loc_Exact) ->
  (ex <= fexp prec emax (Zdigits2 mx + ex))%Z ->
  bounded prec emax mb eb = true ->
  inject_Z N * pow2 ex <= inject_Z (Z.pos mb * D) * pow2 eb ->
  rounded_below sx (inject_Z (Z.pos mb) * pow2 eb)
    (binary_round_aux prec emax sx mx ex lx).
Proof.
  intros HD Hmx Hb Hx Hpre Hbd Hle.
  apply scaled_le_Z in Hle.
  destruct (round_aux_Z sx mx ex lx N D mb eb HD Hmx Hb Hx Hpre Hbd) as [->|(m & e & -> & He & Hm)].
  - lia.
  - repeat split. cbn. apply Qmult_le_0_compat; [|apply Qlt_le_weak, pow2_pos].
    change 0 with (inject_Z 0). rewrite <- Zle_Qle. lia.
  - repeat split. cbn. now apply Z_le_scaled.
Qed.

Local Open Scope Z_scope.

Lemma digits2_mul_lower a b :
  Z.pos (digits2_pos a) + Z.pos (digits2_pos b) - 1 <= Z.pos (digits2_pos (a * b)).
Proof.
  pose proof (digits2_bounds a) as [Ha _].
  pose proof (digits2_bounds b) as [Hb _].
  pose proof (digits2_bounds (a * b)) as [_ Hab].
  set (da := Z.pos (digits2_pos a)) in *. set (db := Z.pos (digits2_pos b)) in *.
  set (dab := Z.pos (digits2_pos (a * b))) in *.
  assert (0 < da) by (unfold da; lia). assert (0 < db) by (unfold db; lia).
  assert (2 ^ (da - 1 + (db - 1)) < 2 ^ dab) as Hlt.
  { rewrite Z.pow_add_r by lia. rewrite Pos2Z.inj_mul in Hab.
    assert (0 < 2 ^ (da - 1)) by (apply Z.pow_pos_nonneg; lia).
    assert (0 < 2 ^ (db - 1)) by (apply Z.pow_pos_nonneg; lia). nia. }
  apply Z.pow_lt_mono_r_iff in Hlt; unfold dab in *; lia.
Qed.

Lemma rounded_below_zero s B : (0 <= B)%Q -> rounded_below s B (S754_zero s).
Proof. intros H. repeat split. exact H. Qed.

Lemma bound_nonneg mb eb : (0 <= inject_Z (Z.pos mb) * pow2 eb)%Q.
Proof.
  apply Qmult_le_0_compat; [|apply Qlt_le_weak, pow2_pos].
  change 0%Q with (inject_Z 0). rewrite <- Zle_Qle. lia.
Qed.

Lemma SFmul_bound x y mb eb :
  valid_binary x = true -> valid_binary y = true ->
  SFfinite x = true -> SFfinite y = true ->
  bounded prec emax mb eb = true ->
  (SFmag x * SFmag y <= inject_Z (Z.pos mb) * pow2 eb)%Q ->
  rounded_below (xorb (SFsign x) (SFsign y)) (inject_Z (Z.pos mb) * pow2 eb)
    (SFmul prec emax x y).
Proof.
  intros Vx Vy Fx Fy Hb Hle.
  destruct x as [sx|sx| |sx mx ex], y as [sy|sy| |sy my ey]; try discriminate;
    cbn [SFmul SFsign]; try (apply rounded_below_zero, bound_nonneg).
  cbn [valid_binary] in Vx, Vy.
  apply bounded_inv in Vx as [Cx _]. apply bounded_inv in Vy as [Cy Ey].
  rewrite fexp_eq in Cx, Cy.
  pose proof (digits2_mul_lower mx my) as Hd.
  apply (round_aux_Q _ _ _ _ (Z.pos (mx * my)) 1); try lia.
  - split; intros; [reflexivity|lia].
  - rewrite fexp_eq. cbn [Zdigits2]. lia.
  - exact Hb.
  - cbn [SFmag] in Hle. rewrite Z.mul_1_r.
    rewrite Pos2Z.inj_mul, inject_Z_mult, pow2_add.
    eapply Qle_trans; [|exact Hle]. apply Qle_lteq. right. ring.
Qed.

Lemma new_location_exact n k : new_location n k = loc_Exact <-> k = 0.
Proof.
  unfold new_location, new_location_even, new_location_odd.
  destruct (Z.even n); destruct (Z.eqb_spec k 0); split; intros; try discriminate; try lia; auto.
Qed.

Lemma SFdiv_core_spec m1 e1 m2 e2 :
  let '(q, e', l) := SFdiv_core_binary prec emax (Z.pos m1) e1 (Z.pos m2) e2 in
  let N := Z.pos m1 * 2 ^ (e1 - e2 - e') in
  e' <= e1 - e2 /\ 0 <= q /\
  q * Z.pos m2 <= N < (q + 1) * Z.pos m2 /\
  (N = q * Z.pos m2 <-> l = loc_Exact) /\
  e' <= fexp prec emax (Zdigits2 q + e').
Proof.
  unfold SFdiv_core_binary.
  set (d1 := Zdigits2 (Z.pos m1)). set (d2 := Zdigits2 (Z.pos m2)).
  set (e' := Z.min (fexp prec emax (d1 + e1 - (d2 + e2))) (e1 - e2)).
  set (s := e1 - e2 - e').
  assert (0 <= s) as Hs by (unfold s, e'; lia).
  set (m' := match s with Z.pos _ => Z.shiftl (Z.pos m1) s | 0 => Z.pos m1 | Z.neg _ => 0 end).
  assert (m' = Z.pos m1 * 2 ^ s) as Hm'.
  { unfold m'. destruct s as [|p|p]; [change (2 ^ 0) with 1; lia| |lia].
    rewrite Z.shiftl_mul_pow2 by lia. reflexivity. }
  pose proof (Z_div_mod m' (Z.pos m2) ltac:(lia)) as Hdiv.
  destruct (Z.div_eucl m' (Z.pos m2)) as [q r]. destruct Hdiv as [Heq Hr].
  cbv zeta. fold s. rewrite <- Hm'.
  assert (0 < 2 ^ s) as Hps by (apply Z.pow_pos_nonneg; lia).
  assert (0 <= q) as Hq by nia.
  split; [unfold e'; lia|]. split; [exact Hq|]. split; [nia|]. split.
  - rewrite new_location_exact. split; intros; nia.
  - rewrite fexp_eq. destruct (Z.le_gt_cases e' (-1074)) as [Hc|Hc]; [lia|].
    assert (e' <= d1 + e1 - (d2 + e2) - 53) as He'.
    { unfold e' in *. rewrite fexp_eq in *. lia. }
    pose proof (digits2_bounds m1) as [H1 _]. pose proof (digits2_bounds m2) as [_ H2].
    fold (Zdigits2 (Z.pos m1)) in H1. fold (Zdigits2 (Z.pos m2)) in H2.
    fold d1 in H1. fold d2 in H2.
    assert (0 < d1) by (unfold d1; cbn; lia). assert (0 < d2) by (unfold d2; cbn; lia).
    assert (2 ^ 52 * 2 ^ d2 <= m') as Hbig.
    { rewrite Hm'. rewrite <- Z.pow_add_r by lia.
      apply Z.le_trans with (2 ^ (d1 - 1) * 2 ^ s); [|nia].
      rewrite <- Z.pow_add_r by lia. apply Z.pow_le_mono_r; lia. }
    assert (2 ^ 52 <= q) as Hq52.
    { assert (0 < 2 ^ 52) by reflexivity.
      assert (2 ^ 52 * Z.pos m2 < (q + 1) * Z.pos m2) as Hlt by nia.
      apply Z.mul_lt_mono_pos_r in Hlt; lia. }
    destruct (Zdigits2_cases q Hq) as [[? ?]|(_ & _ & _ & Hd)]; [lia|].
    assert (2 ^ 52 < 2 ^ Zdigits2 q) as Hlt by lia.
    apply Z.pow_lt_mono_r_iff in Hlt; [lia|lia|].
    destruct q; cbn; lia.
Qed.

Lemma SFdiv_bound x y mb eb :
  SFfinite x = true ->
  (exists s m e, y = S754_finite s m e) ->
  bounded prec emax mb eb = true ->
  (SFmag x <= inject_Z (Z.pos mb) * pow2 eb * SFmag y)%Q ->
  rounded_below (xorb (SFsign x) (SFsign y)) (inject_Z (Z.pos mb) * pow2 eb)
    (SFdiv prec emax x y).
Proof.
  intros Fx (sy & my & ey & ->) Hb Hle.
  destruct x as [sx|sx| |sx mx ex]; try discriminate; cbn [SFdiv SFsign].
  { apply rounded_below_zero, bound_nonneg. }
  pose proof (SFdiv_core_spec mx ex my ey) as Hcore.
  destruct (SFdiv_core_binary prec emax (Z.pos mx) ex (Z.pos my) ey) as [[q e'] l].
  cbv zeta in Hcore. destruct Hcore as (He' & Hq & Hqb & Hqx & Hpre).
  apply (round_aux_Q _ _ _ _ (Z.pos mx * 2 ^ (ex - ey - e')) (Z.pos my));
    try assumption; try lia.
  cbn [SFmag] in Hle.
  rewrite inject_Z_mult, <- (pow2_Z (ex - ey - e')) by lia.
  rewrite <- Qmult_assoc, <- pow2_add.
  replace (ex - ey - e' + e') with (ex + - ey) by lia. rewrite pow2_add.
  rewrite inject_Z_mult.
  apply Qmult_le_r with (z := pow2 ey); [apply pow2_pos|].
  assert (pow2 (- ey) * pow2 ey == 1)%Q as Hinv.
  { rewrite <- pow2_add. replace (- ey + ey) with 0 by lia. reflexivity. }
  assert (inject_Z (Z.pos mx) * (pow2 ex * pow2 (- ey)) * pow2 ey
          == inject_Z (Z.pos mx) * pow2 ex * (pow2 (- ey) * pow2 ey))%Q as E by ring.
  rewrite E, Hinv. eapply Qle_trans; [|eapply Qle_trans; [exact Hle|]];
    apply Qle_lteq; right; ring.
Qed.

Lemma iter_xO_pow2 m d : Z.pos (Pos.iter xO m d) = Z.pos m * 2 ^ Z.pos d.
Proof.
  induction d as [|d IH] using Pos.peano_ind.
  - cbn [Pos.iter]. rewrite Pos2Z.inj_xO. change (2 ^ 1) with 2. ring.
  - rewrite Pos.iter_succ, Pos2Z.inj_xO, IH, Pos2Z.inj_succ, Z.pow_succ_r by lia. ring.
Qed.

Lemma shl_align_spec mx ex ex' :
  snd (shl_align mx ex ex') = Z.min ex ex' /\
  Z.pos (fst (shl_align mx ex ex')) = Z.pos mx * 2 ^ (ex - Z.min ex ex').
Proof.
  unfold shl_align. destruct (ex' - ex) as [|d|d] eqn:E; cbn [fst snd].
  - rewrite Z.min_l by lia. rewrite Z.sub_diag. change (2 ^ 0) with 1. lia.
  - rewrite Z.min_l by lia. rewrite Z.sub_diag. change (2 ^ 0) with 1. lia.
  - rewrite Z.min_r by lia. split; [reflexivity|].
    rewrite iter_xO_pow2. f_equal. f_equal. lia.
Qed.

Lemma digits2_unique m d :
  2 ^ (d - 1) <= Z.pos m < 2 ^ d -> Z.pos (digits2_pos m) = d.
Proof.
  intros [H1 H2]. pose proof (digits2_bounds m) as [H3 H4].
  set (d' := Z.pos (digits2_pos m)) in *.
  assert (0 < d') by (unfold d'; lia).
  assert (0 < d).
  { destruct (Z.le_gt_cases d 0) as [Hc|Hc]; [|exact Hc].
    assert (2 ^ d <= 2 ^ 0) by (apply Z.pow_le_mono_r; lia).
    change (2 ^ 0) with 1 in *. lia. }
  assert (2 ^ (d - 1) < 2 ^ d') as Ha by lia.
  assert (2 ^ (d' - 1) < 2 ^ d) as Hb by lia.
  apply Z.pow_lt_mono_r_iff in Ha; [|lia|lia].
  apply Z.pow_lt_mono_r_iff in Hb; lia.
Qed.

Lemma digits2_shift m k :
  0 <= k -> forall mz, Z.pos mz = Z.pos m * 2 ^ k ->
  Z.pos (digits2_pos mz) = Z.pos (digits2_pos m) + k.
Proof.
  intros Hk mz E. apply digits2_unique. rewrite E.
  pose proof (digits2_bounds m) as [H1 H2].
  assert (0 < 2 ^ k) by (apply Z.pow_pos_nonneg; lia).
  replace (Z.pos (digits2_pos m) + k - 1) with (Z.pos (digits2_pos m) - 1 + k) by lia.
  rewrite !Z.pow_add_r by lia. nia.
Qed.

Lemma binary_round_bound sx mx ex mb eb :
  bounded prec emax mb eb = true ->
  (inject_Z (Z.pos mx) * pow2 ex <= inject_Z (Z.pos mb) * pow2 eb)%Q ->
  rounded_below sx (inject_Z (Z.pos mb) * pow2 eb) (binary_round prec emax sx mx ex).
Proof.
  intros Hb Hle. unfold binary_round.
  pose proof (shl_align_spec mx ex (fexp prec emax (Z.pos (digits2_pos mx) + ex)))
    as [He Hm].
  destruct (shl_align mx ex (fexp prec emax (Z.pos (digits2_pos mx) + ex))) as [mz ez].
  cbn [fst snd] in He, Hm.
  pose proof (digits2_shift mx (ex - ez) ltac:(lia) mz
                ltac:(rewrite Hm; f_equal; f_equal; lia)) as Hd.
  apply (round_aux_Q _ _ _ _ (Z.pos mz) 1); try lia.
  - split; intros; [reflexivity|lia].
  - cbn [Zdigits2]. rewrite Hd. rewrite fexp_eq in *. lia.
  - exact Hb.
  - rewrite Z.mul_1_r. eapply Qle_trans; [|exact Hle].
    rewrite Hm, He, inject_Z_mult.
    rewrite (pow2_split ex (Z.min ex (fexp prec emax (Z.pos (digits2_pos mx) + ex)))) by lia.
    apply Qle_lteq; right; ring.
Qed.

Lemma binary_normalize_bound z e mb eb :
  bounded prec emax mb eb = true ->
  (inject_Z (Z.abs z) * pow2 e <= inject_Z (Z.pos mb) * pow2 eb)%Q ->
  rounded_below (z <? 0) (inject_Z (Z.pos mb) * pow2 eb)
    (binary_normalize prec emax z e false).
Proof.
  intros Hb Hle. destruct z as [|m|m]; cbn [binary_normalize].
  - apply rounded_below_zero, bound_nonneg.
  - now apply binary_round_bound.
  - now apply binary_round_bound.
Qed.


Lemma Qabs_scaled z e : (Qabs (inject_Z z * pow2 e) == inject_Z (Z.abs z) * pow2 e)%Q.
Proof.
  rewrite Qabs_Qmult. rewrite (Qabs_pos (pow2 e)) by apply Qlt_le_weak, pow2_pos.
  apply Qmult_comp; [|reflexivity].
  unfold Qabs, inject_Z. cbn. reflexivity.
Qed.

Lemma scaled_sign z e : ((0 <= inject_Z z * pow2 e)%Q <-> 0 <= z).
Proof.
  pose proof (pow2_pos e) as Hp. split; intros H.
  - destruct (Z.le_gt_cases 0 z) as [Hc|Hc]; [exact Hc|exfalso].
    assert (inject_Z z < 0)%Q by (change 0%Q with (inject_Z 0); rewrite <- Zlt_Qlt; lia).
    assert (inject_Z z * pow2 e < 0 * pow2 e)%Q by (apply Qmult_lt_r; assumption).
    lra.
  - apply Qmult_le_0_compat; [|lra]. change 0%Q with (inject_Z 0). rewrite <- Zle_Qle. lia.
Qed.

Lemma normalize_rounds_to z e mb eb :
  bounded prec emax mb eb = true ->
  (Qabs (inject_Z z * pow2 e) <= inject_Z (Z.pos mb) * pow2 eb)%Q ->
  rounds_to (inject_Z z * pow2 e) (inject_Z (Z.pos mb) * pow2 eb)
    (binary_normalize prec emax z e false).
Proof.
  intros Hb Hle. rewrite Qabs_scaled in Hle.
  destruct (binary_normalize_bound z e mb eb Hb Hle) as (Hf & Hs & Hm).
  pose proof (SF2Q_sign_mag (binary_normalize prec emax z e false)) as Hv.
  pose proof (SFmag_nonneg (binary_normalize prec emax z e false)) as Hn.
  rewrite Hs in Hv.
  split; [exact Hf|]. split; [exact Hm|]. split; intros HV.
  - apply scaled_sign in HV. destruct (Z.ltb_spec z 0); [lia|]. rewrite Hv. exact Hn.
  - destruct (Z.ltb_spec z 0).
    + rewrite Hv. lra.
    + assert (0 <= z) as H0 by lia. apply (scaled_sign z e) in H0.
      assert (z = 0) as ->.
      { destruct (Z.eq_dec z 0) as [|Hne]; [assumption|exfalso].
        assert (0 < z) by lia.
        assert (0 * pow2 e < inject_Z z * pow2 e)%Q.
        { apply Qmult_lt_r; [apply pow2_pos|].
          change 0%Q with (inject_Z 0). rewrite <- Zlt_Qlt. lia. }
        lra. }
      cbn. lra.
Qed.

Lemma aligned_value s m e ez :
  ez <= e ->
  (SF2Q (S754_finite s m e)
   == inject_Z (cond_Zopp s (Z.pos (fst (shl_align m e ez)))) * pow2 ez)%Q.
Proof.
  intros He. pose proof (shl_align_spec m e ez) as [_ Hm].
  rewrite Z.min_r in Hm by lia. rewrite Hm. cbn [SF2Q].
  rewrite (pow2_split e ez) by lia.
  destruct s; cbn [cond_Zopp]; rewrite ?inject_Z_opp, inject_Z_mult; ring.
Qed.

Lemma rounds_to_exact r B :
  SFfinite r = true -> (SFmag r <= B)%Q -> rounds_to (SF2Q r) B r.
Proof. intros Hf Hm. repeat split; auto. Qed.

Lemma rounds_to_proper V V' B r : (V == V')%Q -> rounds_to V B r -> rounds_to V' B r.
Proof.
  intros E (H1 & H2 & H3 & H4). repeat split; auto; intros; [apply H3|apply H4]; lra.
Qed.

Lemma SFmag_abs r : (SFmag r == Qabs (SF2Q r))%Q.
Proof.
  destruct r as [s|s| |s m e]; cbn [SFmag SF2Q]; try reflexivity.
  rewrite Qabs_scaled. destruct s; cbn [cond_Zopp]; rewrite ?Z.abs_opp; reflexivity.
Qed.

Lemma SFmag_opp r : (SFmag (SFopp r) == SFmag r)%Q.
Proof. destruct r; reflexivity. Qed.

Lemma SF2Q_opp r : (SF2Q (SFopp r) == - SF2Q r)%Q.
Proof.
  destruct r as [s|s| |s m e]; cbn [SFopp SF2Q]; try reflexivity.
  destruct s; cbn [negb cond_Zopp]; rewrite ?inject_Z_opp; ring.
Qed.

Lemma SFsub_bound x y mb eb :
  SFfinite x = true -> SFfinite y = true ->
  bounded prec emax mb eb = true ->
  (Qabs (SF2Q x - SF2Q y) <= inject_Z (Z.pos mb) * pow2 eb)%Q ->
  rounds_to (SF2Q x - SF2Q y) (inject_Z (Z.pos mb) * pow2 eb) (SFsub prec emax x y).
Proof.
  intros Fx Fy Hb Hle.
  destruct x as [sx|sx| |sx mx ex], y as [sy|sy| |sy my ey]; try discriminate.
  - assert (SFfinite (SFsub prec emax (S754_zero sx) (S754_zero sy)) = true /\
            SF2Q (SFsub prec emax (S754_zero sx) (S754_zero sy)) = 0%Q /\
            SFmag (SFsub prec emax (S754_zero sx) (S754_zero sy)) = 0%Q) as (H1 & H2 & H3)
      by (destruct sx, sy; repeat split).
    unfold rounds_to. rewrite H1, H2, H3. repeat split; try lra. apply bound_nonneg.
  - change (SFsub prec emax (S754_zero sx) (S754_finite sy my ey))
      with (SFopp (S754_finite sy my ey)).
    apply rounds_to_proper with (SF2Q (SFopp (S754_finite sy my ey))).
    { rewrite SF2Q_opp. cbn [SF2Q]. ring. }
    apply rounds_to_exact; [reflexivity|].
    rewrite SFmag_abs, SF2Q_opp. eapply Qle_trans; [|exact Hle].
    apply Qle_lteq; right. apply Qabs_wd. cbn [SF2Q]. ring.
  - change (SFsub prec emax (S754_finite sx mx ex) (S754_zero sy))
      with (S754_finite sx mx ex).
    apply rounds_to_proper with (SF2Q (S754_finite sx mx ex)).
    { cbn [SF2Q]. ring. }
    apply rounds_to_exact; [reflexivity|].
    rewrite SFmag_abs. eapply Qle_trans; [|exact Hle].
    apply Qle_lteq; right. apply Qabs_wd. cbn [SF2Q]. ring.
  - cbn [SFsub]. cbv zeta.
    set (ez := Z.min ex ey).
    set (z := cond_Zopp sx (Z.pos (fst (shl_align mx ex ez))) -
              cond_Zopp sy (Z.pos (fst (shl_align my ey ez)))).
    assert (SF2Q (S754_finite sx mx ex) - SF2Q (S754_finite sy my ey)
            == inject_Z z * pow2 ez)%Q as E.
    { rewrite (aligned_value sx mx ex ez), (aligned_value sy my ey ez) by (unfold ez; lia).
      unfold z. unfold Z.sub at 1. rewrite inject_Z_plus, inject_Z_opp. ring. }
    apply rounds_to_proper with (inject_Z z * pow2 ez)%Q; [symmetry; exact E|].
    apply normalize_rounds_to; [exact Hb|]. rewrite <- E. exact Hle.
Qed.

Lemma SFadd_bound x y mb eb :
  SFfinite x = true -> SFfinite y = true ->
  bounded prec emax mb eb = true ->
  (Qabs (SF2Q x + SF2Q y) <= inject_Z (Z.pos mb) * pow2 eb)%Q ->
  rounds_to (SF2Q x + SF2Q y) (inject_Z (Z.pos mb) * pow2 eb) (SFadd prec emax x y).
Proof.
  intros Fx Fy Hb Hle.
  destruct x as [sx|sx| |sx mx ex], y as [sy|sy| |sy my ey]; try discriminate.
  - assert (SFfinite (SFadd prec emax (S754_zero sx) (S754_zero sy)) = true /\
            SF2Q (SFadd prec emax (S754_zero sx) (S754_zero sy)) = 0%Q /\
            SFmag (SFadd prec emax (S754_zero sx) (S754_zero sy)) = 0%Q) as (H1 & H2 & H3)
      by (destruct sx, sy; repeat split).
    unfold rounds_to. rewrite H1, H2, H3. repeat split; try lra. apply bound_nonneg.
  - change (SFadd prec emax (S754_zero sx) (S754_finite sy my ey))
      with (S754_finite sy my ey).
    apply rounds_to_proper with (SF2Q (S754_finite sy my ey)).
    { cbn [SF2Q]. ring. }
    apply rounds_to_exact; [reflexivity|].
    rewrite SFmag_abs. eapply Qle_trans; [|exact Hle].
    apply Qle_lteq; right. apply Qabs_wd. cbn [SF2Q]. ring.
  - change (SFadd prec emax (S754_finite sx mx ex) (S754_zero sy))
      with (S754_finite sx mx ex).
    apply rounds_to_proper with (SF2Q (S754_finite sx mx ex)).
    { cbn [SF2Q]. ring. }
    apply rounds_to_exact; [reflexivity|].
    rewrite SFmag_abs. eapply Qle_trans; [|exact Hle].
    apply Qle_lteq; right. apply Qabs_wd. cbn [SF2Q]. ring.
  - cbn [SFadd]. cbv zeta.
    set (ez := Z.min ex ey).
    set (z := cond_Zopp sx (Z.pos (fst (shl_align mx ex ez))) +
              cond_Zopp sy (Z.pos (fst (shl_align my ey ez)))).
    assert (SF2Q (S754_finite sx mx ex) + SF2Q (S754_finite sy my ey)
            == inject_Z z * pow2 ez)%Q as E.
    { rewrite (aligned_value sx mx ex ez), (aligned_value sy my ey ez) by (unfold ez; lia).
      unfold z. rewrite inject_Z_plus. ring. }
    apply rounds_to_proper with (inject_Z z * pow2 ez)%Q; [symmetry; exact E|].
    apply normalize_rounds_to; [exact Hb|]. rewrite <- E. exact Hle.
Qed.


(** ** Comparison agrees with the order of the values *)

Lemma Z_lt_scaled a ea b eb :
  (ea <= eb)%Z -> (a < b * 2 ^ (eb - ea))%Z ->
  (inject_Z a * pow2 ea < inject_Z b * pow2 eb)%Q.
Proof.
  intros He H. rewrite (pow2_split eb ea) by lia.
  rewrite Qmult_assoc, <- inject_Z_mult.
  apply Qmult_lt_r; [apply pow2_pos|]. rewrite <- Zlt_Qlt. exact H.
Qed.

Lemma canonical_lt m1 e1 m2 e2 :
  bounded prec emax m1 e1 = true -> bounded prec emax m2 e2 = true ->
  (e1 < e2)%Z ->
  (inject_Z (Z.pos m1) * pow2 e1 < inject_Z (Z.pos m2) * pow2 e2)%Q.
Proof.
  intros H1 H2 He.
  apply bounded_inv in H1 as [C1 _]. apply bounded_inv in H2 as [C2 _].
  rewrite fexp_eq in C1, C2.
  pose proof (digits2_bounds m1) as [_ U1]. pose proof (digits2_bounds m2) as [L2 _].
  set (d1 := Z.pos (digits2_pos m1)) in *. set (d2 := Z.pos (digits2_pos m2)) in *.
  assert (d2 = 53)%Z as E2 by lia. assert (d1 <= 53)%Z as E1 by lia.
  rewrite E2 in L2. change (2 ^ (53 - 1))%Z with (2 ^ 52)%Z in L2.
  assert (2 ^ d1 <= 2 ^ 53)%Z by (apply Z.pow_le_mono_r; lia).
  apply Z_lt_scaled; [lia|].
  assert (2 ^ 1 <= 2 ^ (e2 - e1))%Z by (apply Z.pow_le_mono_r; lia).
  change (2 ^ 1)%Z with 2%Z in *. change (2 ^ 53)%Z with (2 * 2 ^ 52)%Z in *.
  assert (0 < 2 ^ 52)%Z by reflexivity. nia.
Qed.

Lemma Qcompare_Lt a b : (a < b)%Q -> (a ?= b)%Q = Lt.
Proof. apply Qlt_alt. Qed.

Lemma Qcompare_Gt a b : (b < a)%Q -> (a ?= b)%Q = Gt.
Proof. apply Qgt_alt. Qed.

Lemma Qcompare_Eq a b : (a == b)%Q -> (a ?= b)%Q = Eq.
Proof. apply Qeq_alt. Qed.

Lemma pos_compare_cont_Eq a b : Pos.compare_cont Eq a b = (Z.pos a ?= Z.pos b)%Z.
Proof. reflexivity. Qed.

Lemma finite_compare_pos m1 e1 m2 e2 :
  bounded prec emax m1 e1 = true -> bounded prec emax m2 e2 = true ->
  match (e1 ?= e2)%Z with
  | Lt => Lt
  | Gt => Gt
  | Eq => Pos.compare_cont Eq m1 m2
  end = (inject_Z (Z.pos m1) * pow2 e1 ?= inject_Z (Z.pos m2) * pow2 e2)%Q.
Proof.
  intros H1 H2. symmetry. destruct (Z.compare_spec e1 e2) as [->|He|He].
  - rewrite pos_compare_cont_Eq.
    destruct (Z.compare_spec (Z.pos m1) (Z.pos m2)) as [E|E|E].
    + apply Qcompare_Eq. injection E as ->. reflexivity.
    + apply Qcompare_Lt. apply Qmult_lt_r; [apply pow2_pos|]. now rewrite <- Zlt_Qlt.
    + apply Qcompare_Gt. apply Qmult_lt_r; [apply pow2_pos|]. now rewrite <- Zlt_Qlt.
  - apply Qcompare_Lt. now apply canonical_lt.
  - apply Qcompare_Gt. now apply canonical_lt.
Qed.

Lemma scaled_pos m e : (0 < inject_Z (Z.pos m) * pow2 e)%Q.
Proof.
  apply Qmult_lt_0_compat; [|apply pow2_pos]. reflexivity.
Qed.

Lemma Qcompare_opp a b : (- a ?= - b)%Q = CompOpp (a ?= b)%Q.
Proof.
  destruct (Qcompare_spec a b) as [E|E|E]; cbn [CompOpp].
  - apply Qcompare_Eq. now rewrite E.
  - apply Qcompare_Gt. now apply Qopp_lt_compat.
  - apply Qcompare_Lt. now apply Qopp_lt_compat.
Qed.

Lemma scaled_neg m e : (inject_Z (- Z.pos m) * pow2 e < 0)%Q.
Proof.
  rewrite inject_Z_opp. pose proof (scaled_pos m e) as H.
  set (a := inject_Z (Z.pos m)) in *. set (p := pow2 e) in *.
  assert (- a * p == - (a * p))%Q as -> by ring. lra.
Qed.

Lemma SF2Q_finite_sign (s : bool) m e :
  if s return Prop then (SF2Q (S754_finite s m e) < 0)%Q
  else (0 < SF2Q (S754_finite s m e))%Q.
Proof.
  destruct s; cbn [SF2Q cond_Zopp]; [apply scaled_neg|apply scaled_pos].
Qed.

Lemma SFcompare_Q x y :
  valid_binary x = true -> valid_binary y = true ->
  SFfinite x = true -> SFfinite y = true ->
  SFcompare x y = Some (SF2Q x ?= SF2Q y)%Q.
Proof.
  intros Vx Vy Fx Fy.
  destruct x as [sx|sx| |sx mx ex], y as [sy|sy| |sy my ey]; try discriminate.
  - reflexivity.
  - pose proof (SF2Q_finite_sign sy my ey) as H.
    cbn [SFcompare]. f_equal. symmetry. change (SF2Q (S754_zero sx)) with 0%Q.
    destruct sy; [now apply Qcompare_Gt|now apply Qcompare_Lt].
  - pose proof (SF2Q_finite_sign sx mx ex) as H.
    cbn [SFcompare]. f_equal. symmetry. change (SF2Q (S754_zero sy)) with 0%Q.
    destruct sx; [now apply Qcompare_Lt|now apply Qcompare_Gt].
  - cbn [valid_binary] in Vx, Vy.
    pose proof (SF2Q_finite_sign sx mx ex) as Hx.
    pose proof (SF2Q_finite_sign sy my ey) as Hy.
    cbn [SFcompare]. f_equal.
    destruct sx, sy.
    + cbn [SF2Q cond_Zopp]. rewrite !inject_Z_opp.
      assert (- inject_Z (Z.pos mx) * pow2 ex == - (inject_Z (Z.pos mx) * pow2 ex))%Q as -> by ring.
      assert (- inject_Z (Z.pos my) * pow2 ey == - (inject_Z (Z.pos my) * pow2 ey))%Q as -> by ring.
      rewrite Qcompare_opp, <- (finite_compare_pos mx ex my ey Vx Vy).
      destruct (Z.compare ex ey); reflexivity.
    + symmetry. apply Qcompare_Lt. eapply Qlt_trans; eassumption.
    + symmetry. apply Qcompare_Gt. eapply Qlt_trans; eassumption.
    + apply (finite_compare_pos mx ex my ey Vx Vy).
Qed.


(** ** Rounding from below *)

Local Open Scope Z_scope.

Lemma round_nearest_even_lower m r s :
  let m' := round_nearest_even m (loc_of_shr_record {| shr_m := m; shr_r := r; shr_s := s |}) in
  m <= m' <= m + 1.
Proof.
  destruct r, s; cbn [loc_of_shr_record round_nearest_even];
    try (destruct (Z.even m)); lia.
Qed.

Lemma Zdigits2_le_of_lt m d : 0 <= m -> 0 <= d -> m < 2 ^ d -> Zdigits2 m <= d.
Proof.
  intros Hm Hd H.
  destruct (Zdigits2_cases m Hm) as [[_ ->]|(_ & Hp & Hlo & _)]; [lia|].
  assert (2 ^ (Zdigits2 m - 1) < 2 ^ d) as Hlt by lia.
  apply Z.pow_lt_mono_r_iff in Hlt; lia.
Qed.

Lemma round_aux_Z_lower sx mx ex lx N D mb eb :
  0 < D -> 0 <= mx -> mx * D <= N < (mx + 1) * D ->
  (N = mx * D <-> lx = loc_Exact) ->
  ex <= fexp prec emax (Zdigits2 mx + ex) ->
  bounded prec emax mb eb = true ->
  Z.pos mb * 2 ^ (eb - Z.min ex eb) * D <= N * 2 ^ (ex - Z.min ex eb) ->
  binary_round_aux prec emax sx mx ex lx = S754_infinity sx \/
  exists m e, binary_round_aux prec emax sx mx ex lx = S754_finite sx m e /\
     eb <= e /\ Z.pos mb <= Z.pos m * 2 ^ (e - eb).
Proof.
  intros HD Hmx Hb Hx Hpre Hbd Hle.
  apply bounded_inv in Hbd as [Hcan Hemax].
  pose proof (digits2_bounds mb) as Hdb.
  set (db := Z.pos (digits2_pos mb)) in *.
  assert (0 < db) as Hdbpos by (unfold db; lia).
  rewrite fexp_eq in Hcan, Hpre.
  set (dx := Zdigits2 mx) in *.
  assert (0 <= dx /\ mx < 2 ^ dx) as [Hdx0 Hdx].
  { destruct (Zdigits2_cases mx Hmx) as [[-> Hd]|(Hpos & Hdpos & Hd)]; unfold dx.
    - cbn. lia.
    - lia. }
  set (c := Z.min ex eb) in *.
  assert (0 < 2 ^ (eb - c)) as Hpb by (apply Z.pow_pos_nonneg; lia).
  assert (0 < 2 ^ (ex - c)) as Hpx by (apply Z.pow_pos_nonneg; lia).
  (* the bound has no more digits than the exact value *)
  assert (db + eb <= dx + ex) as Hdig.
  { assert (Z.pos mb * 2 ^ (eb - c) < 2 ^ dx * 2 ^ (ex - c)) as H1.
    { assert (N < 2 ^ dx * D) by nia.
      assert (Z.pos mb * 2 ^ (eb - c) * D < 2 ^ dx * 2 ^ (ex - c) * D) by nia.
      nia. }
    assert (2 ^ (db - 1 + (eb - c)) < 2 ^ (dx + (ex - c))) as Hlt.
    { rewrite !Z.pow_add_r by lia. nia. }
    apply Z.pow_lt_mono_r_iff in Hlt; lia. }
  set (e1 := Z.max (dx + ex - 53) (-1074)) in *.
  assert (eb <= e1) as He1 by lia.
  (* first shift *)
  unfold binary_round_aux, shr_fexp. fold dx. rewrite fexp_eq. fold e1.
  pose proof (shr_spec (shr_record_of_loc mx lx) ex (e1 - ex) N D HD
                (shr_record_of_loc_inv N D mx lx Hmx Hb Hx)) as [Hs1 Hi1].
  destruct (shr (shr_record_of_loc mx lx) ex (e1 - ex)) as [rec1 e1'].
  cbn [fst snd] in Hs1, Hi1.
  rewrite Z.max_l in Hs1 by lia. rewrite Z.max_l in Hi1 by lia.
  assert (e1' = e1) as -> by lia. clear Hs1.
  set (D1 := 2 ^ (e1 - ex) * D) in *.
  assert (0 < 2 ^ (e1 - ex)) as Hp1 by (apply Z.pow_pos_nonneg; lia).
  assert (0 < D1) as HD1 by (unfold D1; nia).
  destruct rec1 as [m1 r1 s1].
  pose proof (round_nearest_even_lower m1 r1 s1) as Hm2. cbn zeta in Hm2.
  destruct Hi1 as (Hm1 & Hb1 & _). cbn [shr_m] in *.
  set (m2 := round_nearest_even m1
               (loc_of_shr_record {| shr_m := m1; shr_r := r1; shr_s := s1 |})) in *.
  (* the truncated significand fits 53 bits *)
  assert (m1 < 2 ^ 53) as Hm1hi.
  { assert (m1 * 2 ^ (e1 - ex) < 2 ^ dx) as H1 by (unfold D1 in Hb1; nia).
    assert (2 ^ dx <= 2 ^ 53 * 2 ^ (e1 - ex)) as H2.
    { rewrite <- Z.pow_add_r by lia. apply Z.pow_le_mono_r; lia. }
    nia. }
  (* and is not below the bound *)
  assert (0 < 2 ^ (e1 - eb)) as Hp3 by (apply Z.pow_pos_nonneg; lia).
  assert (Z.pos mb <= m1 * 2 ^ (e1 - eb)) as Hlow.
  { destruct (Z.eq_dec e1 eb) as [E|E].
    - rewrite E, Z.sub_diag. change (2 ^ 0) with 1. rewrite Z.mul_1_r.
      assert (ex <= eb) by lia.
      unfold c in *. rewrite Z.min_l in * by lia. rewrite Z.sub_diag in Hle.
      change (2 ^ 0) with 1 in Hle. rewrite Z.mul_1_r in Hle.
      assert (Z.pos mb * D1 <= N) as H1.
      { unfold D1. rewrite E. nia. }
      assert (Z.pos mb * D1 < (m1 + 1) * D1) as H2 by lia.
      apply Z.mul_lt_mono_pos_r in H2; lia.
    - assert (eb < e1) as Hlt by lia.
      assert (e1 = dx + ex - 53) as Ee1 by lia.
      assert (2 ^ 52 <= m1) as H52.
      { destruct (Zdigits2_cases mx Hmx) as [[-> Hd]|(Hpos & Hdpos & Hd)].
        - unfold dx in *. rewrite Hd in *. lia.
        - fold dx in Hd, Hdpos.
          assert (2 ^ 52 * D1 <= N) as H1.
          { unfold D1. rewrite Z.mul_assoc, <- Z.pow_add_r by lia.
            replace (52 + (e1 - ex)) with (dx - 1) by lia. nia. }
          assert (2 ^ 52 * D1 < (m1 + 1) * D1) as H2 by lia.
          apply Z.mul_lt_mono_pos_r in H2; lia. }
      assert (db <= 53) by lia.
      assert (Z.pos mb < 2 ^ 53) as Hmb.
      { apply Z.lt_le_trans with (2 ^ db); [lia|]. apply Z.pow_le_mono_r; lia. }
      assert (2 <= 2 ^ (e1 - eb)) as H2.
      { change 2 with (2 ^ 1) at 1. apply Z.pow_le_mono_r; lia. }
      change (2 ^ 53) with (2 ^ 52 * 2) in Hmb. nia. }
  (* second shift *)
  set (k2 := fexp prec emax (Zdigits2 m2 + e1) - e1).
  assert (shr_inv m2 1 (shr_record_of_loc m2 loc_Exact)) as Hi0.
  { apply shr_record_of_loc_inv; try lia. split; auto. intros; lia. }
  pose proof (shr_spec (shr_record_of_loc m2 loc_Exact) e1 k2 m2 1 ltac:(lia) Hi0)
    as [Hs2 Hi2].
  destruct (shr (shr_record_of_loc m2 loc_Exact) e1 k2) as [rec2 e2].
  cbn [fst snd] in Hs2, Hi2. rewrite Z.mul_1_r in Hi2.
  destruct Hi2 as (Hm3 & Hb3 & _).
  assert (0 < m2) as Hm2pos by nia.
  assert (e1 <= e2 /\ shr_m rec2 * 2 ^ (e2 - e1) = m2) as [He2 Hexact].
  { destruct (Z.eq_dec m2 (2 ^ 53)) as [E|E].
    - assert (k2 = 1) as Hk.
      { unfold k2. rewrite E, fexp_eq. change (Zdigits2 (2 ^ 53)) with 54. lia. }
      rewrite Hk in *. change (Z.max 1 0) with 1 in *. change (2 ^ 1) with 2 in *.
      split; [lia|]. replace (e2 - e1) with 1 by lia. change (2 ^ 1) with 2.
      rewrite E in *. change (2 ^ 53) with (2 ^ 52 * 2) in *. lia.
    - assert (m2 < 2 ^ 53) as Hlt by lia.
      pose proof (Zdigits2_le_of_lt m2 53 ltac:(lia) ltac:(lia) Hlt) as Hd.
      assert (k2 <= 0) as Hk by (unfold k2; rewrite fexp_eq; lia).
      rewrite Z.max_r in * by lia. change (2 ^ 0) with 1 in *.
      split; [lia|]. replace (e2 - e1) with 0 by lia. change (2 ^ 0) with 1. lia. }
  assert (0 < 2 ^ (e2 - e1)) as Hp4 by (apply Z.pow_pos_nonneg; lia).
  destruct (shr_m rec2) as [|m3|m3] eqn:Em3; [lia| |lia].
  destruct (e2 <=? emax - prec); [|left; reflexivity].
  right. exists m3, e2. split; [reflexivity|]. split; [lia|].
  replace (e2 - eb) with ((e2 - e1) + (e1 - eb)) by lia.
  rewrite Z.pow_add_r by lia. nia.
Qed.


Lemma round_aux_Q_lower sx mx ex lx N D mb eb :
  (0 < D)%Z -> (0 <= mx)%Z -> (mx * D <= N < (mx + 1) * D)%Z ->
  (N = (mx * D)%Z <-> lx = loc_Exact) ->
  (ex <= fexp prec emax (Zdigits2 mx + ex))%Z ->
  bounded prec emax mb eb = true ->
  (inject_Z (Z.pos mb * D) * pow2 eb <= inject_Z N * pow2 ex)%Q ->
  binary_round_aux prec emax sx mx ex lx = S754_infinity sx \/
  (inject_Z (Z.pos mb) * pow2 eb <= SFmag (binary_round_aux prec emax sx mx ex lx))%Q.
Proof.
  intros HD Hmx Hb Hx Hpre Hbd Hle.
  apply scaled_le_Z in Hle. rewrite Z.min_comm in Hle.
  destruct (round_aux_Z_lower sx mx ex lx N D mb eb HD Hmx Hb Hx Hpre Hbd)
    as [->|(m & e & -> & He & Hm)].
  - lia.
  - left; reflexivity.
  - right. cbn [SFmag]. now apply Z_le_scaled.
Qed.

Lemma SFmul_lower x y mb eb :
  valid_binary x = true -> valid_binary y = true ->
  bounded prec emax mb eb = true ->
  (inject_Z (Z.pos mb) * pow2 eb <= SFmag x * SFmag y)%Q ->
  SFmul prec emax x y = S754_infinity (xorb (SFsign x) (SFsign y)) \/
  SFmul prec emax x y = S754_nan \/
  (inject_Z (Z.pos mb) * pow2 eb <= SFmag (SFmul prec emax x y))%Q.
Proof.
  intros Vx Vy Hb Hle.
  assert (0 < inject_Z (Z.pos mb) * pow2 eb)%Q as Hpos.
  { apply Qmult_lt_0_compat; [|apply pow2_pos].
    change 0%Q with (inject_Z 0). rewrite <- Zlt_Qlt. lia. }
  destruct x as [sx|sx| |sx mx ex], y as [sy|sy| |sy my ey];
    cbn [SFmul SFsign]; auto; cbn [SFmag] in Hle; try (exfalso; lra).
  cbn [valid_binary] in Vx, Vy.
  apply bounded_inv in Vx as [Cx _]. apply bounded_inv in Vy as [Cy Ey].
  rewrite fexp_eq in Cx, Cy.
  pose proof (digits2_mul_lower mx my) as Hd.
  destruct (round_aux_Q_lower (xorb sx sy) (Z.pos (mx * my)) (ex + ey) loc_Exact
              (Z.pos (mx * my)) 1 mb eb) as [H|H]; try lia; auto.
  - split; intros; [reflexivity|lia].
  - rewrite fexp_eq. cbn [Zdigits2]. lia.
  - rewrite Z.mul_1_r.
    rewrite Pos2Z.inj_mul, inject_Z_mult, pow2_add.
    eapply Qle_trans; [exact Hle|]. apply Qle_lteq. right. ring.
Qed.

Lemma SFdiv_lower sx mx ex sy my ey mb eb :
  bounded prec emax mb eb = true ->
  (inject_Z (Z.pos mb) * pow2 eb * (inject_Z (Z.pos my) * pow2 ey)
     <= inject_Z (Z.pos mx) * pow2 ex)%Q ->
  let r := SFdiv prec emax (S754_finite sx mx ex) (S754_finite sy my ey) in
  r = S754_infinity (xorb sx sy) \/ (inject_Z (Z.pos mb) * pow2 eb <= SFmag r)%Q.
Proof.
  intros Hb Hle. cbn [SFdiv]. cbv zeta.
  pose proof (SFdiv_core_spec mx ex my ey) as Hcore.
  destruct (SFdiv_core_binary prec emax (Z.pos mx) ex (Z.pos my) ey) as [[q e'] l].
  cbv zeta in Hcore. destruct Hcore as (He' & Hq & Hqb & Hqx & Hpre).
  apply (round_aux_Q_lower _ _ _ _ (Z.pos mx * 2 ^ (ex - ey - e')) (Z.pos my));
    try assumption; try lia.
  rewrite (inject_Z_mult (Z.pos mx)), <- (pow2_Z (ex - ey - e')) by lia.
  rewrite <- (Qmult_assoc (inject_Z (Z.pos mx))), <- pow2_add.
  replace (ex - ey - e' + e') with (ex + - ey) by lia. rewrite pow2_add.
  rewrite inject_Z_mult.
  apply Qmult_le_r with (z := pow2 ey); [apply pow2_pos|].
  assert (pow2 (- ey) * pow2 ey == 1)%Q as Hinv.
  { rewrite <- pow2_add. replace (- ey + ey) with 0 by lia. reflexivity. }
  assert (inject_Z (Z.pos mx) * (pow2 ex * pow2 (- ey)) * pow2 ey
          == inject_Z (Z.pos mx) * pow2 ex * (pow2 (- ey) * pow2 ey))%Q as E by ring.
  rewrite E, Hinv. eapply Qle_trans; [|eapply Qle_trans; [exact Hle|]];
    apply Qle_lteq; right; ring.
Qed.


End FloatFacts.

(** * Primitive floats through their specification *)

Module PrimFacts.

Import PyFloat FloatFacts.

Lemma SFeqb_refl_finite x : SFfinite x = true -> SFeqb x x = true.
Proof.
  destruct x as [s|s| |s m e]; try discriminate; intros _; [reflexivity|].
  unfold SFeqb, SFcompare. rewrite Z.compare_refl.
  destruct s; rewrite Pos.compare_cont_refl; reflexivity.
Qed.

Lemma finite_not_nan x : finite x = true -> is_nan x = false.
Proof.
  intros H. unfold is_nan. rewrite FloatAxioms.eqb_spec.
  unfold finite in H. now rewrite SFeqb_refl_finite.
Qed.

Lemma finite_not_infinity x : finite x = true -> is_infinity x = false.
Proof.
  intros H. unfold is_infinity. rewrite FloatAxioms.eqb_spec, FloatAxioms.abs_spec.
  unfold finite in H. change (Prim2SF infinity) with (S754_infinity false).
  destruct (Prim2SF x) as [s|s| |s m e]; try discriminate; reflexivity.
Qed.

Lemma finite_is_finite x : finite x = true -> is_finite x = true.
Proof.
  intros H. unfold is_finite.
  now rewrite finite_not_nan, finite_not_infinity.
Qed.

Lemma is_nan_spec x : is_nan x = true <-> Prim2SF x = S754_nan.
Proof.
  unfold is_nan. rewrite FloatAxioms.eqb_spec. split.
  - destruct (Prim2SF x) as [s|s| |s m e] eqn:E; auto; intros H; exfalso.
    + discriminate.
    + destruct s; discriminate.
    + rewrite SFeqb_refl_finite in H by reflexivity. discriminate.
  - intros ->. reflexivity.
Qed.

Lemma is_infinity_spec x :
  is_infinity x = true <-> exists s, Prim2SF x = S754_infinity s.
Proof.
  unfold is_infinity. rewrite FloatAxioms.eqb_spec, FloatAxioms.abs_spec.
  change (Prim2SF infinity) with (S754_infinity false). split.
  - destruct (Prim2SF x) as [s|s| |s m e]; try discriminate; eauto.
  - intros [s ->]. reflexivity.
Qed.

Lemma finite_cases x :
  finite x = true \/ is_nan x = true \/ is_infinity x = true.
Proof.
  unfold finite. destruct (Prim2SF x) as [s|s| |s m e] eqn:E; auto.
  - right; right. apply is_infinity_spec. eauto.
  - right; left. now apply is_nan_spec.
Qed.

(** A positive finite float, seen as a bound. *)
Lemma float_bound b :
  finite b = true -> (0 < F2Q b)%Q ->
  exists mb eb, bounded prec emax mb eb = true /\
                Prim2SF b = S754_finite false mb eb.
Proof.
  unfold finite, F2Q. intros Hf Hp. pose proof (Prim2SF_valid b) as Hv.
  destruct (Prim2SF b) as [s|s| |s m e]; cbn [SFfinite] in Hf; try discriminate.
  exists m, e. split; [exact Hv|]. destruct s; [exfalso|reflexivity].
    cbn [SF2Q cond_Zopp] in Hp. pose proof (pow2_pos e).
    assert (inject_Z (- Z.pos m) < 0)%Q.
    { change 0%Q with (inject_Z 0). rewrite <- Zlt_Qlt. lia. }
    assert (inject_Z (- Z.pos m) * pow2 e < 0 * pow2 e)%Q by (apply Qmult_lt_r; assumption).
    lra.
Qed.

Lemma F2Q_abs x : (Qabs (F2Q x) == SFmag (Prim2SF x))%Q.
Proof. unfold F2Q. symmetry. apply SFmag_abs. Qed.

Lemma mul_bound x y b :
  finite x = true -> finite y = true ->
  finite b = true -> (0 < F2Q b)%Q ->
  (Qabs (F2Q x) * Qabs (F2Q y) <= F2Q b)%Q ->
  finite (x * y)%float = true /\ (Qabs (F2Q (x * y)%float) <= F2Q b)%Q.
Proof.
  intros Fx Fy Fb Pb Hle.
  destruct (float_bound b Fb Pb) as (mb & eb & Hbd & Eb).
  rewrite !F2Q_abs in *. unfold finite, F2Q in *. rewrite Eb in *.
  rewrite FloatAxioms.mul_spec.
  destruct (SFmul_bound (Prim2SF x) (Prim2SF y) mb eb
              (Prim2SF_valid x) (Prim2SF_valid y) Fx Fy Hbd Hle) as (H1 & _ & H3).
  split; assumption.
Qed.

Lemma rounded_below_nonneg B r :
  rounded_below false B r -> (0 <= SF2Q r)%Q.
Proof.
  intros (_ & Hs & _). rewrite SF2Q_sign_mag, Hs. apply SFmag_nonneg.
Qed.

(** Dividing a non-negative float by a positive one. *)
Lemma div_bound x y b :
  finite x = true -> finite y = true ->
  finite b = true -> (0 < F2Q b)%Q ->
  (0 <= F2Q x)%Q -> (0 < F2Q y)%Q ->
  (F2Q x <= F2Q b * F2Q y)%Q ->
  in_range 0 (F2Q b) (x / y)%float.
Proof.
  intros Fx Fy Fb Pb Hx Hy Hle.
  destruct (float_bound b Fb Pb) as (mb & eb & Hbd & Eb).
  destruct (float_bound y Fy Hy) as (my & ey & _ & Ey).
  unfold in_range, finite, F2Q in *. rewrite Eb, Ey in *. rewrite FloatAxioms.div_spec, Ey.
  assert (SFmag (Prim2SF x) <= inject_Z (Z.pos mb) * pow2 eb * SFmag (S754_finite false my ey))%Q
    as Hle'.
  { rewrite SFmag_abs, Qabs_pos by exact Hx. exact Hle. }
  pose proof (SFdiv_bound (Prim2SF x) (S754_finite false my ey) mb eb Fx
                ltac:(eauto) Hbd Hle') as Hr.
  destruct (Prim2SF x) as [sx|sx| |sx mx ex] eqn:Ex; try discriminate.
  - cbn. repeat split; try lra. apply Qlt_le_weak. exact Pb.
  - assert (sx = false) as ->.
    { destruct sx; [exfalso|reflexivity]. cbn [SF2Q cond_Zopp] in Hx.
      pose proof (pow2_pos ex).
      assert (inject_Z (- Z.pos mx) < 0)%Q.
      { change 0%Q with (inject_Z 0). rewrite <- Zlt_Qlt. lia. }
      assert (inject_Z (- Z.pos mx) * pow2 ex < 0 * pow2 ex)%Q by (apply Qmult_lt_r; assumption).
      lra. }
    cbn [SFsign xorb] in Hr. pose proof (rounded_below_nonneg _ _ Hr) as Hn.
    destruct Hr as (H1 & _ & H3). split; [exact H1|]. split; [exact Hn|].
    cbn [SF2Q cond_Zopp]. rewrite SFmag_abs, Qabs_pos in H3 by exact Hn. exact H3.
Qed.

Lemma sub_bound x y b :
  finite x = true -> finite y = true ->
  finite b = true -> (0 < F2Q b)%Q ->
  (Qabs (F2Q x - F2Q y) <= F2Q b)%Q ->
  rounds_to (F2Q x - F2Q y) (F2Q b) (Prim2SF (x - y)%float).
Proof.
  intros Fx Fy Fb Pb Hle.
  destruct (float_bound b Fb Pb) as (mb & eb & Hbd & Eb).
  unfold finite, F2Q in *. rewrite Eb in *. rewrite FloatAxioms.sub_spec.
  now apply SFsub_bound.
Qed.

Lemma add_bound x y b :
  finite x = true -> finite y = true ->
  finite b = true -> (0 < F2Q b)%Q ->
  (Qabs (F2Q x + F2Q y) <= F2Q b)%Q ->
  rounds_to (F2Q x + F2Q y) (F2Q b) (Prim2SF (x + y)%float).
Proof.
  intros Fx Fy Fb Pb Hle.
  destruct (float_bound b Fb Pb) as (mb & eb & Hbd & Eb).
  unfold finite, F2Q in *. rewrite Eb in *. rewrite FloatAxioms.add_spec.
  now apply SFadd_bound.
Qed.

(** [int(x)] never exceeds [x] in magnitude. *)
Lemma to_int_bound x z :
  to_int x = Ok z ->
  finite x = true /\ (inject_Z (Z.abs z) <= Qabs (F2Q x))%Q.
Proof.
  unfold to_int, finite. rewrite F2Q_abs.
  destruct (Prim2SF x) as [s|s| |s m e]; try discriminate; intros [= <-].
  - split; [reflexivity|]. apply Qle_refl.
  - split; [reflexivity|]. cbn [SFmag].
    assert (Z.abs (cond_Zopp s (Z.shiftl (Z.pos m) e)) = Z.shiftl (Z.pos m) e) as ->.
    { pose proof (Z.shiftl_nonneg (Z.pos m) e). destruct s; cbn [cond_Zopp]; lia. }
    destruct (Z.le_gt_cases 0 e) as [He|He].
    + rewrite Z.shiftl_mul_pow2 by lia. rewrite inject_Z_mult, pow2_Z by lia. lra.
    + rewrite Z.shiftl_div_pow2 by lia.
      assert (0 < 2 ^ (- e))%Z as Hp by (apply Z.pow_pos_nonneg; lia).
      pose proof (Z.mul_div_le (Z.pos m) (2 ^ (- e)) Hp) as Hd.
      apply Qmult_le_r with (z := pow2 (- e)); [apply pow2_pos|].
      rewrite <- Qmult_assoc, <- pow2_add.
      replace (e + - e)%Z with 0%Z by lia.
      rewrite pow2_Z by lia. change (pow2 0) with 1%Q.
      rewrite <- inject_Z_mult, Qmult_1_r, <- Zle_Qle. lia.
Qed.

Lemma binary_round_aux_exact sx m e :
  bounded prec emax m e = true ->
  binary_round_aux prec emax sx (Z.pos m) e loc_Exact = S754_finite sx m e.
Proof.
  intros Hb. apply bounded_inv in Hb as [Hc He].
  unfold binary_round_aux, shr_fexp. cbn [Zdigits2].
  rewrite Hc, Z.sub_diag. cbn [shr shr_record_of_loc shr_m loc_of_shr_record round_nearest_even Zdigits2].
  rewrite Hc, Z.sub_diag. cbn [shr shr_record_of_loc shr_m].
  replace (e <=? emax - prec)%Z with true; [reflexivity|].
  symmetry. apply Z.leb_le. change (emax - prec)%Z with 971%Z. lia.
Qed.

(** Ints below 2^53 convert to floats exactly. *)
Lemma of_int_exact z :
  (0 <= z < 2 ^ 53)%Z ->
  exists f, of_int z = Ok f /\ finite f = true /\ (F2Q f == inject_Z z)%Q /\
            (0 < z -> exists m e, Prim2SF f = S754_finite false m e)%Z.
Proof.
  intros Hz. unfold of_int. destruct z as [|m|m]; [| |lia].
  - exists PrimFloat.zero. repeat split; try reflexivity. lia.
  - cbn [binary_normalize]. unfold binary_round.
    pose proof (shl_align_spec m 0 (fexp prec emax (Z.pos (digits2_pos m) + 0))) as [He Hm].
    destruct (shl_align m 0 (fexp prec emax (Z.pos (digits2_pos m) + 0))) as [mz ez].
    cbn [fst snd] in He, Hm.
    pose proof (digits2_bounds m) as [Hd1 Hd2].
    set (d := Z.pos (digits2_pos m)) in *.
    assert (0 < d)%Z by (unfold d; lia).
    assert (d <= 53)%Z as Hd53.
    { assert (2 ^ (d - 1) < 2 ^ 53)%Z as Hlt by lia.
      apply Z.pow_lt_mono_r_iff in Hlt; lia. }
    rewrite fexp_eq in He, Hm.
    assert (ez = d - 53)%Z as Eez by lia.
    pose proof (digits2_shift m (0 - ez) ltac:(lia) mz
                  ltac:(rewrite Hm; f_equal; f_equal; lia)) as Hdz.
    fold d in Hdz.
    assert (bounded prec emax mz ez = true) as Hbd.
    { unfold bounded, canonical_mantissa. rewrite Hdz, fexp_eq.
      apply andb_true_intro. split; [apply Z.eqb_eq; lia|].
      apply Z.leb_le. change (emax - prec)%Z with 971%Z. lia. }
    rewrite binary_round_aux_exact by exact Hbd.
    assert (Prim2SF (SF2Prim (S754_finite false mz ez)) = S754_finite false mz ez) as E
      by (apply Prim2SF_SF2Prim; exact Hbd).
    assert (finite (SF2Prim (S754_finite false mz ez)) = true) as Hf
      by (unfold finite; rewrite E; reflexivity).
    rewrite (finite_not_infinity _ Hf).
    eexists. split; [reflexivity|]. split; [exact Hf|]. split; [|eauto].
    unfold F2Q. rewrite E. cbn [SF2Q cond_Zopp]. rewrite Hm.
    replace (Z.min 0 (Z.max (d + 0 - 53) (-1074)))%Z with ez by lia.
    rewrite inject_Z_mult, <- pow2_Z by lia.
    rewrite <- Qmult_assoc, <- pow2_add.
    replace (0 - ez + ez)%Z with 0%Z by lia. change (pow2 0) with 1%Q. ring.
Qed.

Lemma mul_nan_l x y : is_nan x = true -> is_nan (x * y)%float = true.
Proof.
  rewrite !is_nan_spec. intros H. rewrite FloatAxioms.mul_spec, H. reflexivity.
Qed.

Lemma to_int_nan x : is_nan x = true -> to_int x = Raise ValueError.
Proof. rewrite is_nan_spec. unfold to_int. now intros ->. Qed.


(** ** Comparisons of primitive floats *)

Lemma ltb_Q x y :
  finite x = true -> finite y = true ->
  ((x <? y)%float = true <-> (F2Q x < F2Q y)%Q).
Proof.
  intros Fx Fy. rewrite FloatAxioms.ltb_spec. unfold SFltb, F2Q.
  rewrite (SFcompare_Q _ _ (Prim2SF_valid x) (Prim2SF_valid y) Fx Fy).
  rewrite Qlt_alt. destruct (SF2Q (Prim2SF x) ?= SF2Q (Prim2SF y))%Q; split; auto; discriminate.
Qed.

Lemma leb_Q x y :
  finite x = true -> finite y = true ->
  ((x <=? y)%float = true <-> (F2Q x <= F2Q y)%Q).
Proof.
  intros Fx Fy. rewrite FloatAxioms.leb_spec. unfold SFleb, F2Q.
  rewrite (SFcompare_Q _ _ (Prim2SF_valid x) (Prim2SF_valid y) Fx Fy).
  rewrite Qle_alt. destruct (SF2Q (Prim2SF x) ?= SF2Q (Prim2SF y))%Q; split; auto;
    try discriminate; intros H; now contradiction H.
Qed.

(** A float that is not NaN and lies between two finite floats is finite. *)
Lemma between_finite lo hi p :
  finite lo = true -> finite hi = true ->
  is_nan p = false -> (p <? lo)%float = false -> (hi <? p)%float = false ->
  in_range (F2Q lo) (F2Q hi) p.
Proof.
  intros Flo Fhi Hnan Hlo Hhi.
  assert (finite p = true) as Fp.
  { destruct (finite_cases p) as [H|[H|H]]; [exact H|congruence|exfalso].
    apply is_infinity_spec in H as [s H].
    rewrite FloatAxioms.ltb_spec in Hlo, Hhi. unfold finite in Flo, Fhi.
    rewrite H in Hlo, Hhi. unfold SFltb, SFcompare in Hlo, Hhi.
    destruct (Prim2SF lo), (Prim2SF hi), s; discriminate. }
  split; [exact Fp|]. split.
  - apply Qnot_lt_le. intros H. apply (ltb_Q p lo Fp Flo) in H. congruence.
  - apply Qnot_lt_le. intros H. apply (ltb_Q hi p Fhi Fp) in H. congruence.
Qed.


Lemma mul_rounded x y b :
  finite x = true -> finite y = true ->
  finite b = true -> (0 < F2Q b)%Q ->
  (Qabs (F2Q x) * Qabs (F2Q y) <= F2Q b)%Q ->
  rounded_below (xorb (SFsign (Prim2SF x)) (SFsign (Prim2SF y))) (F2Q b)
    (Prim2SF (x * y)%float).
Proof.
  intros Fx Fy Fb Pb Hle.
  destruct (float_bound b Fb Pb) as (mb & eb & Hbd & Eb).
  rewrite !F2Q_abs in *. unfold finite, F2Q in *. rewrite Eb in *.
  rewrite FloatAxioms.mul_spec.
  exact (SFmul_bound (Prim2SF x) (Prim2SF y) mb eb
           (Prim2SF_valid x) (Prim2SF_valid y) Fx Fy Hbd Hle).
Qed.

(** Squaring keeps a float of the unit interval in the unit interval. *)
Lemma square_unit x : in_range 0 1 x -> in_range 0 1 (x * x)%float.
Proof.
  intros (Fx & Hlo & Hhi).
  assert (F2Q 1%float == 1)%Q as E1 by (vm_compute; reflexivity).
  assert (Qabs (F2Q x) == F2Q x)%Q as Ax by (now apply Qabs_pos).
  destruct (mul_rounded x x 1%float Fx Fx eq_refl) as (Hf & Hs & Hm).
  - rewrite E1. lra.
  - rewrite Ax, E1. nra.
  - rewrite xorb_nilpotent in Hs.
    assert (0 <= F2Q (x * x)%float)%Q as Hn.
    { unfold F2Q. rewrite SF2Q_sign_mag, Hs. apply SFmag_nonneg. }
    split; [exact Hf|]. split; [exact Hn|].
    rewrite SFmag_abs in Hm. fold (F2Q (x * x)%float) in Hm.
    rewrite Qabs_pos, E1 in Hm by exact Hn. exact Hm.
Qed.


(** ** Signs *)

Lemma binary_round_aux_sign sx m e l :
  SFsign (binary_round_aux prec emax sx m e l) = sx \/
  binary_round_aux prec emax sx m e l = S754_nan.
Proof.
  unfold binary_round_aux.
  destruct (shr_fexp prec emax m e l) as [r1 e1].
  destruct (shr_fexp prec emax _ e1 loc_Exact) as [r2 e2].
  destruct (shr_m r2); [left; reflexivity| |right; reflexivity].
  destruct (e2 <=? emax - prec)%Z; left; reflexivity.
Qed.

Lemma binary_round_sign m e :
  SFsign (binary_round prec emax false m e) = false.
Proof.
  unfold binary_round. destruct (shl_align m e _) as [mz ez].
  destruct (binary_round_aux_sign false (Z.pos mz) ez loc_Exact) as [H|H];
    [exact H|now rewrite H].
Qed.

Lemma binary_normalize_sign z e :
  (0 <= z)%Z -> SFsign (binary_normalize prec emax z e false) = false.
Proof.
  intros Hz. destruct z as [|m|m]; [reflexivity|apply binary_round_sign|lia].
Qed.

Lemma SF2Prim_sign r0 :
  SFsign r0 = false -> SFsign (Prim2SF (SF2Prim r0)) = false.
Proof.
  destruct r0 as [s|s| |s m e]; cbn [SFsign]; intros Hs0; try subst s; try reflexivity.
  cbn [SF2Prim]. rewrite Z_ldexp_spec, of_uint63_spec.
  pose proof (Uint63.to_Z_bounded (of_Z (Z.pos m))) as [Hb _].
  pose proof (binary_normalize_sign _ 0 Hb) as Hs.
  destruct (binary_normalize prec emax (Uint63.to_Z (of_Z (Z.pos m))) 0 false)
    as [s'|s'| |s' m' e'];
    cbn [SFldexp SFsign] in *; try exact Hs.
  subst s'. apply binary_round_sign.
Qed.

(** The float of a non-negative int carries no minus sign. *)
Lemma of_int_sign z r :
  (0 <= z)%Z -> of_int z = Ok r -> SFsign (Prim2SF r) = false.
Proof.
  intros Hz. unfold of_int.
  destruct (is_infinity _); [discriminate|]. intros [= <-].
  apply SF2Prim_sign. now apply binary_normalize_sign.
Qed.

Lemma mul_sign x y :
  SFsign (Prim2SF x) = false -> SFsign (Prim2SF y) = false ->
  SFsign (Prim2SF (x * y)%float) = false.
Proof.
  rewrite FloatAxioms.mul_spec. unfold SF64mul.
  destruct (Prim2SF x) as [sx|sx| |sx mx ex], (Prim2SF y) as [sy|sy| |sy my ey];
    cbn [SFsign]; intros Hx Hy; try subst sx; try subst sy;
    cbn [SFmul xorb SFsign]; try reflexivity.
  destruct (binary_round_aux_sign false (Z.pos (mx * my)) (ex + ey) loc_Exact) as [H|H];
    [exact H|now rewrite H].
Qed.

Lemma ltb_zero_sign d : (0 <? d)%float = true -> SFsign (Prim2SF d) = false.
Proof.
  rewrite FloatAxioms.ltb_spec. change (Prim2SF 0) with (S754_zero false).
  unfold SFltb, SFcompare.
  destruct (Prim2SF d) as [s|s| |s m e]; try discriminate; destruct s;
    try discriminate; reflexivity.
Qed.

(** On floats without a minus sign, truncation and floor agree. *)
Lemma to_int_floor x :
  SFsign (Prim2SF x) = false -> to_int x = floor x.
Proof.
  unfold to_int, floor. destruct (Prim2SF x) as [s|s| |s m e]; try reflexivity.
  cbn [SFsign]. intros ->. reflexivity.
Qed.

Lemma to_int_total x : finite x = true -> exists z, to_int x = Ok z.
Proof.
  unfold finite, to_int. destruct (Prim2SF x); try discriminate; eauto.
Qed.

Lemma mul_zero_r x :
  finite x = true -> exists s, Prim2SF (x * 0)%float = S754_zero s.
Proof.
  unfold finite. rewrite FloatAxioms.mul_spec. change (Prim2SF 0) with (S754_zero false).
  destruct (Prim2SF x) as [s|s| |s m e]; try discriminate; cbn; eauto.
Qed.


(** ** Floats as bounds, and rounding from below *)

Local Open Scope Z_scope.


Lemma bounded_53 m e :
  2 ^ 52 <= Z.pos m < 2 ^ 53 -> -1074 <= e <= 971 -> bounded prec emax m e = true.
Proof.
  intros Hm He. unfold bounded, canonical_mantissa.
  rewrite (digits2_unique m 53) by exact Hm. rewrite fexp_eq.
  apply andb_true_intro. split; [apply Z.eqb_eq; lia|apply Z.leb_le].
  change (emax - prec) with 971. lia.
Qed.

Lemma dyadic_spec m e :
  bounded prec emax m e = true ->
  finite (dyadic m e) = true /\
  (F2Q (dyadic m e) == inject_Z (Z.pos m) * pow2 e)%Q /\
  (0 < F2Q (dyadic m e))%Q.
Proof.
  intros Hb. unfold finite, F2Q, dyadic.
  rewrite Prim2SF_SF2Prim by exact Hb. cbn [SFfinite SF2Q cond_Zopp].
  split; [reflexivity|]. split; [reflexivity|].
  apply Qmult_lt_0_compat; [|apply pow2_pos].
  change 0%Q with (inject_Z 0). rewrite <- Zlt_Qlt. lia.
Qed.

Lemma mul_one_r x : (x * 1)%float = x.
Proof.
  apply Prim2SF_inj. rewrite FloatAxioms.mul_spec.
  change (Prim2SF 1) with (S754_finite false 4503599627370496 (-52)).
  pose proof (Prim2SF_valid x) as Hv.
  destruct (Prim2SF x) as [s|s| |s m e]; try (destruct s; reflexivity); try reflexivity.
  unfold SF64mul. cbn [SFmul]. rewrite Bool.xorb_false_r.
  cbn [valid_binary] in Hv. pose proof (bounded_inv _ _ Hv) as [Hcan _].
  rewrite fexp_eq in Hcan.
  set (mx := Z.pos (m * 4503599627370496)).
  assert (mx = Z.pos m * 2 ^ 52) as Emx by (unfold mx; rewrite Pos2Z.inj_mul; reflexivity).
  assert (Zdigits2 mx = Z.pos (digits2_pos m) + 52) as Ed.
  { unfold mx. cbn [Zdigits2]. apply (digits2_shift m 52); [lia|].
    rewrite Pos2Z.inj_mul. reflexivity. }
  assert (e + -52 <= fexp prec emax (Zdigits2 mx + (e + -52))) as Hpre.
  { rewrite Ed, fexp_eq. lia. }
  assert (Z.min (e + -52) e = e + -52) as Emin by lia.
  assert (e + -52 - (e + -52) = 0) as E0 by lia.
  assert (e - (e + -52) = 52) as E52 by lia.
  destruct (round_aux_Z s mx (e + -52) loc_Exact mx 1 m e) as [H|(m1 & e1 & H1 & He1 & Hm1)];
    try lia; try assumption.
  { split; intros; [reflexivity|lia]. }
  { rewrite Emin, E0, E52. change (2 ^ 0) with 1. lia. }
  - destruct (round_aux_Z_lower s mx (e + -52) loc_Exact mx 1 m e)
      as [H'|(m2 & e2 & H2 & He2 & Hm2)]; try lia; try assumption.
    { split; intros; [reflexivity|lia]. }
    { rewrite Emin, E0, E52. change (2 ^ 0) with 1. lia. }
    + rewrite H in H'. discriminate.
    + rewrite H in H2. discriminate.
  - destruct (round_aux_Z_lower s mx (e + -52) loc_Exact mx 1 m e)
      as [H'|(m2 & e2 & H2 & He2 & Hm2)]; try lia; try assumption.
    { split; intros; [reflexivity|lia]. }
    { rewrite Emin, E0, E52. change (2 ^ 0) with 1. lia. }
    + rewrite H1 in H'. discriminate.
    + rewrite H1 in H2. injection H2 as <- <-.
      assert (e1 = e) as -> by lia. rewrite Z.sub_diag in *. change (2 ^ 0) with 1 in *.
      rewrite H1. f_equal. lia.
Qed.

(** Dividing a positive float by a positive one, from below. *)
Lemma div_lower x y b :
  finite x = true -> finite y = true ->
  finite b = true -> (0 < F2Q b)%Q -> (0 < F2Q y)%Q ->
  (F2Q b * F2Q y <= F2Q x)%Q ->
  forall hi, in_range 0 hi (x / y)%float ->
  (F2Q b <= F2Q (x / y)%float)%Q.
Proof.
  intros Fx Fy Fb Pb Hy Hle hi (Fr & Hn & _).
  assert (0 < F2Q x)%Q as Hx.
  { eapply Qlt_le_trans; [|exact Hle]. apply Qmult_lt_0_compat; assumption. }
  destruct (float_bound b Fb Pb) as (mb & eb & Hbd & Eb).
  destruct (float_bound y Fy Hy) as (my & ey & _ & Ey).
  destruct (float_bound x Fx Hx) as (mx & ex & _ & Ex).
  unfold finite, F2Q in *. rewrite FloatAxioms.div_spec in *.
  rewrite Eb, Ey, Ex in *. cbn [SF2Q cond_Zopp] in Hle. unfold SF64div in *.
  destruct (SFdiv_lower false mx ex false my ey mb eb Hbd Hle) as [H|H].
  - rewrite H in Fr. discriminate.
  - rewrite SFmag_abs, Qabs_pos in H by exact Hn. exact H.
Qed.



(** ** Zeros *)

Local Open Scope Z_scope.

Lemma mul_zero_l x y s :
  Prim2SF x = S754_zero s -> finite y = true ->
  exists s', Prim2SF (x * y)%float = S754_zero s'.
Proof.
  unfold finite. intros Hx Hy. rewrite FloatAxioms.mul_spec, Hx.
  destruct (Prim2SF y) as [sy|sy| |sy m e]; try discriminate; cbn; eauto.
Qed.

Lemma zero_finite x s : Prim2SF x = S754_zero s -> finite x = true.
Proof. unfold finite. now intros ->. Qed.

Lemma to_int_zero x s : Prim2SF x = S754_zero s -> to_int x = Ok 0.
Proof. unfold to_int. now intros ->. Qed.


End PrimFacts.

(** * [struct.pack] round trips *)

Module StructFacts.

Import Struct.

Lemma byte_of_Z_value z : Z.of_N (Byte.to_N (byte_of_Z z)) = z mod 256.
Proof.
  unfold byte_of_Z. change 255 with (Z.ones 8). rewrite Z.land_ones by lia.
  change (2 ^ 8) with 256.
  pose proof (Z.mod_pos_bound z 256 ltac:(lia)) as Hb.
  destruct (Byte.of_N (Z.to_N (z mod 256))) as [b|] eqn:E.
  - change (default x00 (Some b)) with b. apply Byte.to_of_N in E. rewrite E. lia.
  - apply Byte.of_N_None_iff in E. lia.
Qed.

Lemma length_le_bytes n z : length (le_bytes n z) = n.
Proof. revert z. induction n as [|n IH]; intros z; cbn [le_bytes length]; auto. Qed.

Lemma le_unsigned_le_bytes n z :
  le_unsigned (le_bytes n z) = z mod 2 ^ (8 * Z.of_nat n).
Proof.
  revert z. induction n as [|n IH]; intros z; cbn [le_bytes le_unsigned].
  - change (8 * Z.of_nat 0) with 0. now rewrite Z.pow_0_r, Z.mod_1_r.
  - rewrite IH, byte_of_Z_value, Z.shiftr_div_pow2 by lia.
    change (2 ^ 8) with 256.
    replace (8 * Z.of_nat (S n)) with (8 + 8 * Z.of_nat n) by lia.
    rewrite Z.pow_add_r by lia. change (2 ^ 8) with 256.
    rewrite Z.rem_mul_r by lia. reflexivity.
Qed.

(** An unsigned field reads back as the number that was packed. *)
Lemma le_unsigned_roundtrip n z :
  0 <= z < 2 ^ (8 * Z.of_nat n) -> le_unsigned (le_bytes n z) = z.
Proof. intros H. rewrite le_unsigned_le_bytes. now apply Z.mod_small. Qed.

(** A signed 16-bit field reads back as the number that was packed. *)
Lemma le_signed16_roundtrip z :
  -32768 <= z <= 32767 -> le_signed16 (le_bytes 2 z) = z.
Proof.
  intros H. unfold le_signed16. rewrite le_unsigned_le_bytes.
  change (2 ^ (8 * Z.of_nat 2)) with 65536.
  destruct (Z.le_gt_cases 0 z) as [Hz|Hz].
  - rewrite Z.mod_small by lia. destruct (Z.ltb_spec z 32768); lia.
  - replace (z mod 65536) with (z + 65536).
    + destruct (Z.ltb_spec (z + 65536) 32768); lia.
    + apply Z.mod_unique with (q := -1); lia.
Qed.

Lemma pack_h_ok z :
  -32768 <= z <= 32767 -> pack [Fh] [Int z] = Ok (le_bytes 2 z).
Proof.
  intros H. cbn [pack pack_field].
  destruct (Z.leb_spec (-32768) z); [|lia].
  destruct (Z.leb_spec z 32767); [|lia].
  cbn. reflexivity.
Qed.

Lemma pack_h_inv z b :
  pack [Fh] [Int z] = Ok b -> -32768 <= z <= 32767 /\ b = le_bytes 2 z.
Proof.
  cbn [pack pack_field].
  destruct (Z.leb_spec (-32768) z); [|discriminate].
  destruct (Z.leb_spec z 32767); [|discriminate].
  cbn. intros [= <-]. split; [lia|reflexivity].
Qed.

End StructFacts.


(** * The tone generator *)

Module ToneCueFacts.

Import PyFloat FloatFacts PrimFacts ToneCue.

Lemma F2Q_one : (F2Q 1%float == 1)%Q.
Proof. vm_compute. reflexivity. Qed.

Lemma finite_one : finite 1%float = true.
Proof. reflexivity. Qed.

Lemma progress_range i n p :
  (0 <= i < n)%Z -> (n < 2 ^ 53)%Z ->
  int_truediv i n = Ok p -> in_range 0 1 p.
Proof.
  intros Hi Hn. unfold int_truediv.
  destruct (Z.eqb_spec n 0) as [|_]; [lia|].
  destruct (of_int_exact i ltac:(lia)) as (fi & -> & Ffi & Vi & _).
  destruct (of_int_exact n ltac:(lia)) as (fn & -> & Ffn & Vn & _).
  cbn [mbind result_bind]. intros [= <-].
  assert (0 <= inject_Z i)%Q by (change 0%Q with (inject_Z 0); rewrite <- Zle_Qle; lia).
  assert (0 < inject_Z n)%Q by (change 0%Q with (inject_Z 0); rewrite <- Zlt_Qlt; lia).
  assert (inject_Z i <= inject_Z n)%Q by (rewrite <- Zle_Qle; lia).
  pose proof F2Q_one as E1.
  destruct (div_bound fi fn 1%float Ffi Ffn finite_one) as (Hf & Hlo & Hhi).
  - rewrite E1. lra.
  - rewrite Vi. lra.
  - rewrite Vn. lra.
  - rewrite E1, Vi, Vn. lra.
  - repeat split; [exact Hf|exact Hlo|]. rewrite <- E1. exact Hhi.
Qed.

Lemma unit_complement p :
  in_range 0 1 p -> in_range 0 1 (1 - p)%float.
Proof.
  intros (Fp & Hlo & Hhi). pose proof F2Q_one as E1.
  assert (Qabs (F2Q 1 - F2Q p) <= F2Q 1)%Q as Habs.
  { rewrite E1. apply Qabs_Qle_condition. split; lra. }
  destruct (sub_bound 1%float p 1%float finite_one Fp finite_one
              ltac:(rewrite E1; lra) Habs) as (Hf & Hm & Hpos & _).
  split; [exact Hf|]. unfold F2Q at 1 2.
  assert (0 <= SF2Q (Prim2SF (1 - p)%float))%Q as Hn by (apply Hpos; rewrite E1; lra).
  split; [exact Hn|].
  rewrite SFmag_abs, Qabs_pos, E1 in Hm by exact Hn. exact Hm.
Qed.

Lemma math_pow2_unit L x r :
  pow_unit L -> in_range 0 1 x -> PyMath.pow2 L x = Ok r -> in_range 0 1 r.
Proof.
  intros HL Hx. unfold PyMath.pow2.
  destruct Hx as (Fx & Hx). 
  rewrite (finite_not_nan x Fx), (finite_not_infinity x Fx).
  destruct (HL x (conj Fx Hx)) as (Fr & Hr).
  rewrite (finite_not_nan _ Fr), (finite_not_infinity _ Fr).
  intros [= <-]. split; assumption.
Qed.

Lemma math_sin_bounded L x r :
  sin_bounded L -> PyMath.sin L x = Ok r ->
  is_nan r = true \/ in_range (-1) 1 r.
Proof.
  intros HL. unfold PyMath.sin.
  destruct (is_nan (libm_sin L x) && negb (is_nan x)); [discriminate|].
  destruct (is_infinity (libm_sin L x) && is_finite x); [discriminate|].
  intros [= <-]. apply HL.
Qed.

Lemma in_range_abs lo hi B x :
  in_range lo hi x -> (- B <= lo)%Q -> (hi <= B)%Q -> (Qabs (F2Q x) <= B)%Q.
Proof.
  intros (_ & H1 & H2) Hlo Hhi. apply Qabs_Qle_condition. split; lra.
Qed.

Lemma F2Q_volume : (F2Q volume == 5404319552844595 # 18014398509481984)%Q.
Proof. vm_compute. reflexivity. Qed.

Lemma F2Q_32767 : (F2Q 32767%float == 32767)%Q.
Proof. vm_compute. reflexivity. Qed.

Lemma F2Q_sample_ceiling : (F2Q sample_ceiling == 19661 # 2)%Q.
Proof. vm_compute. reflexivity. Qed.

(** The heart of the range argument: whatever the sine and the envelope
    are, within their ranges, line 39 and line 42 give at most 9830. *)
Lemma scaled_sample_range s f z :
  in_range (-1) 1 s -> in_range 0 1 f ->
  to_int (s * f * volume * 32767)%float = Ok z ->
  (-9830 <= z <= 9830)%Z.
Proof.
  intros Hs Hf Hz.
  pose proof F2Q_one as E1. pose proof F2Q_volume as Ev.
  pose proof F2Q_32767 as E3. pose proof F2Q_sample_ceiling as Ec.
  pose proof (in_range_abs _ _ 1 _ Hs ltac:(lra) ltac:(lra)) as As.
  pose proof (in_range_abs _ _ 1 _ Hf ltac:(lra) ltac:(lra)) as Af.
  pose proof (Qabs_nonneg (F2Q s)) as Ns. pose proof (Qabs_nonneg (F2Q f)) as Nf.
  destruct (mul_bound s f 1%float (proj1 Hs) (proj1 Hf) finite_one) as (Fc & Ac).
  { rewrite E1. lra. }
  { rewrite E1. nra. }
  rewrite E1 in Ac. pose proof (Qabs_nonneg (F2Q (s * f)%float)) as Nc.
  assert (Qabs (F2Q volume) == F2Q volume)%Q as Av by (apply Qabs_pos; rewrite Ev; lra).
  destruct (mul_bound (s * f)%float volume volume Fc eq_refl eq_refl) as (Fa & Aa).
  { rewrite Ev. lra. }
  { rewrite Av, Ev. nra. }
  pose proof (Qabs_nonneg (F2Q (s * f * volume)%float)) as Na.
  assert (Qabs (F2Q 32767%float) == 32767)%Q as A3 by (rewrite E3; reflexivity).
  destruct (mul_bound (s * f * volume)%float 32767%float sample_ceiling Fa eq_refl eq_refl)
    as (Fv & Avv).
  { rewrite Ec. lra. }
  { rewrite A3, Ec. rewrite Ev in Aa. lra. }
  apply to_int_bound in Hz as (_ & Hz).
  assert (inject_Z (Z.abs z) <= 19661 # 2)%Q as Hq by (rewrite <- Ec; lra).
  assert (Z.abs z <= 9830)%Z; [|lia].
  unfold Qle in Hq. cbn in Hq. lia.
Qed.


(** Lines 26-42 for one index: under the libm assumptions the integer
    stays within 30 % of full scale. *)
Lemma sample_int_range L spec n i z :
  sin_bounded L -> pow_unit L ->
  (0 <= i < n)%Z -> (n < 2 ^ 53)%Z ->
  sample_int L spec n i = Ok z -> (-9830 <= z <= 9830)%Z.
Proof.
  intros Hsin Hpow Hi Hn. unfold sample_int, amplitude.
  destruct (int_truediv i (sample_rate spec)) as [t|]; [|discriminate].
  destruct (int_truediv i n) as [p|] eqn:Ep; [|discriminate].
  cbn [mbind result_bind].
  destruct (PyMath.sin L _) as [s|] eqn:Es; [|discriminate].
  destruct (PyMath.pow2 L (1 - p)%float) as [f|] eqn:Ef; [|discriminate].
  cbn [mbind result_bind]. intros Hz.
  pose proof (progress_range i n p Hi Hn Ep) as Hp.
  pose proof (math_pow2_unit L _ f Hpow (unit_complement p Hp) Ef) as Hf.
  destruct (math_sin_bounded L _ s Hsin Es) as [Hnan|Hs].
  - rewrite to_int_nan in Hz; [discriminate|].
    now do 3 apply mul_nan_l.
  - now apply (scaled_sample_range s f z).
Qed.


(** ** The reference libm meets the assumptions *)

Lemma clamp_range p : in_range (-1) 1 (RefLibm.clamp p).
Proof.
  assert (F2Q (-1)%float == -1)%Q as Em by (vm_compute; reflexivity).
  pose proof F2Q_one as E1.
  unfold RefLibm.clamp.
  destruct (p <? -1)%float eqn:Hlo.
  { split; [reflexivity|]. rewrite Em. split; lra. }
  destruct (1 <? p)%float eqn:Hhi.
  { split; [reflexivity|]. rewrite E1. split; lra. }
  destruct (is_nan p) eqn:Hnan.
  { split; [reflexivity|]. split; vm_compute; discriminate. }
  destruct (between_finite (-1)%float 1%float p eq_refl eq_refl Hnan Hlo Hhi)
    as (Hf & H1 & H2).
  rewrite Em in H1. rewrite E1 in H2. split; [exact Hf|]. split; assumption.
Qed.

Lemma ref_sin_bounded : sin_bounded RefLibm.libm.
Proof.
  intros x. cbn [libm_sin RefLibm.libm]. unfold RefLibm.sin.
  destruct (is_finite x); [right; apply clamp_range|left; reflexivity].
Qed.

Lemma ref_pow_unit : pow_unit RefLibm.libm.
Proof.
  intros x Hx. cbn [libm_pow RefLibm.libm]. unfold RefLibm.pow.
  change (2 =? 2)%float with true. cbv iota. now apply square_unit.
Qed.


(** ** The header *)

Lemma wav_header_inv n h :
  wav_header n = Ok h ->
  (0 <= 36 + n * 2 <= 4294967295)%Z /\
  h = bytes_of_string "RIFF" ++ Struct.le_bytes 4 (36 + n * 2) ++ bytes_of_string "WAVE".
Proof.
  unfold wav_header. cbn [Struct.pack Struct.pack_field mbind result_bind].
  destruct (Z.leb_spec 0 (36 + n * 2)); [|discriminate].
  destruct (Z.leb_spec (36 + n * 2) 4294967295); [|discriminate].
  cbn. intros [= <-]. split; [lia|reflexivity].
Qed.

Lemma fmt_chunk_inv spec c :
  fmt_chunk spec = Ok c ->
  (0 <= sample_rate spec /\ sample_rate spec * 2 <= 4294967295)%Z /\
  c = bytes_of_string "fmt " ++ Struct.le_bytes 4 16 ++ Struct.le_bytes 2 1 ++
      Struct.le_bytes 2 1 ++ Struct.le_bytes 4 (sample_rate spec) ++
      Struct.le_bytes 4 (sample_rate spec * 2) ++ Struct.le_bytes 2 2 ++
      Struct.le_bytes 2 16.
Proof.
  unfold fmt_chunk. cbn [Struct.pack Struct.pack_field mbind result_bind].
  change ((0 <=? 16) && (16 <=? 4294967295))%Z with true.
  change ((0 <=? 1) && (1 <=? 65535))%Z with true.
  change ((0 <=? 2) && (2 <=? 65535))%Z with true.
  change ((0 <=? 16) && (16 <=? 65535))%Z with true.
  cbn [mbind result_bind].
  destruct (Z.leb_spec 0 (sample_rate spec)); [|discriminate].
  destruct (Z.leb_spec (sample_rate spec) 4294967295); [|discriminate].
  cbn [andb mbind result_bind].
  destruct (Z.leb_spec 0 (sample_rate spec * 2)); [|discriminate].
  destruct (Z.leb_spec (sample_rate spec * 2) 4294967295); [|discriminate].
  cbn. intros [= <-]. split; [lia|reflexivity].
Qed.

Lemma data_header_inv n d :
  data_header n = Ok d ->
  (0 <= n * 2 <= 4294967295)%Z /\
  d = bytes_of_string "data" ++ Struct.le_bytes 4 (n * 2).
Proof.
  unfold data_header. cbn [Struct.pack Struct.pack_field mbind result_bind].
  destruct (Z.leb_spec 0 (n * 2)); [|discriminate].
  destruct (Z.leb_spec (n * 2) 4294967295); [|discriminate].
  cbn. intros [= <-]. split; [lia|reflexivity].
Qed.

(** ** The sample loop *)

Lemma sample_loop_inv L spec n indices : forall acc out,
  sample_loop L spec n indices acc = Ok out ->
  exists bs, out = acc ++ bs /\
    Forall2 (fun i b => sample_bytes L spec n i = Ok b) indices bs.
Proof.
  induction indices as [|i rest IH]; intros acc out; cbn [sample_loop].
  - intros [= <-]. exists []. split; [now rewrite app_nil_r|constructor].
  - destruct (sample_bytes L spec n i) as [b|] eqn:Eb; [|discriminate].
    cbn [mbind result_bind]. intros H.
    destruct (IH _ _ H) as (bs & -> & HF).
    exists (b :: bs). split; [now rewrite <- app_assoc|]. now constructor.
Qed.

Lemma sample_loop_total L spec n indices : forall acc bs,
  Forall2 (fun i b => sample_bytes L spec n i = Ok b) indices bs ->
  sample_loop L spec n indices acc = Ok (acc ++ bs).
Proof.
  induction indices as [|i rest IH]; intros acc bs HF; inversion HF; subst;
    cbn [sample_loop].
  - now rewrite app_nil_r.
  - match goal with H : sample_bytes _ _ _ _ = Ok _ |- _ => rewrite H end. cbn [mbind result_bind].
    rewrite (IH _ _ ltac:(eassumption)). now rewrite <- app_assoc.
Qed.

Lemma range_lookup n i :
  (0 <= i < n)%Z -> range n !! Z.to_nat i = Some i.
Proof.
  intros Hi. unfold range. rewrite list_lookup_fmap.
  rewrite lookup_seq_lt by lia. cbn. f_equal. lia.
Qed.

Lemma length_range n : length (range n) = Z.to_nat n.
Proof. unfold range. now rewrite length_map, length_seq. Qed.


(** ** Writing the file *)

Lemma write_files path b f c :
  FS.files f !! path = Some c ->
  FS.write path b f =
  {| FS.files := <[path := c ++ b]> (FS.files f); FS.unwritable := FS.unwritable f |}.
Proof. intros H. unfold FS.write. now rewrite H. Qed.

Lemma write_all_files path samples : forall f c,
  FS.files f !! path = Some c ->
  write_all path samples f =
  {| FS.files := <[path := c ++ concat samples]> (FS.files f);
     FS.unwritable := FS.unwritable f |}.
Proof.
  induction samples as [|s rest IH]; intros f c Hc; cbn [write_all concat].
  - rewrite app_nil_r, insert_id by exact Hc. now destruct f.
  - rewrite (write_files path s f c Hc).
    rewrite (IH _ (c ++ s)) by (cbn; apply lookup_insert_eq).
    cbn. rewrite insert_insert_eq. now rewrite <- app_assoc.
Qed.

Lemma generate_wav_success L spec filename w n h c d samples :
  render L spec = Ok (n, h, c, d, samples) ->
  filename ∉ FS.unwritable (fs w) ->
  generate_wav L spec filename w =
  (Ok (),
   {| fs := {| FS.files := <[filename := h ++ c ++ d ++ concat samples]> (FS.files (fs w));
               FS.unwritable := FS.unwritable (fs w) |};
      stdout := stdout w ++ summary spec filename n |}).
Proof.
  intros Hr Hw. unfold generate_wav. rewrite Hr. unfold FS.open_wb.
  rewrite bool_decide_eq_false_2 by exact Hw.
  set (f0 := {| FS.files := <[filename:=[]]> (FS.files (fs w));
                FS.unwritable := FS.unwritable (fs w) |}).
  rewrite (write_files filename h f0 []) by apply lookup_insert_eq.
  rewrite (write_files filename c _ ([] ++ h)) by apply lookup_insert_eq.
  rewrite (write_files filename d _ (([] ++ h) ++ c)) by apply lookup_insert_eq.
  rewrite (write_all_files filename samples _ ((([] ++ h) ++ c) ++ d))
    by apply lookup_insert_eq.
  cbn [FS.files FS.unwritable f0]. rewrite !insert_insert_eq.
  unfold print, summary. cbn [fs stdout]. rewrite <- !app_assoc. cbn [app].
  reflexivity.
Qed.

Lemma generate_wav_render_error L spec filename w e :
  render L spec = Raise e -> generate_wav L spec filename w = (Raise e, w).
Proof. intros Hr. unfold generate_wav. now rewrite Hr. Qed.

Lemma generate_wav_unwritable L spec filename w r :
  render L spec = Ok r -> filename ∈ FS.unwritable (fs w) ->
  generate_wav L spec filename w = (Raise OSError, w).
Proof.
  intros Hr Hw. unfold generate_wav. rewrite Hr. destruct r as [[[[n h] c] d] samples].
  unfold FS.open_wb. now rewrite bool_decide_eq_true_2 by exact Hw.
Qed.

(** A run succeeds exactly when everything was computed and the file
    could be opened. *)
Lemma generate_wav_ok_inv L spec filename w w' :
  generate_wav L spec filename w = (Ok (), w') ->
  exists n h c d samples,
    render L spec = Ok (n, h, c, d, samples) /\
    filename ∉ FS.unwritable (fs w).
Proof.
  intros H. destruct (render L spec) as [[[[[n h] c] d] samples]|e] eqn:Hr.
  - exists n, h, c, d, samples. split; [reflexivity|].
    intros Hin. rewrite (generate_wav_unwritable _ _ _ _ _ Hr Hin) in H. discriminate.
  - rewrite (generate_wav_render_error _ _ _ _ _ Hr) in H. discriminate.
Qed.


(** ** What a completed computation holds *)

Lemma render_inv L spec n h c d samples :
  render L spec = Ok (n, h, c, d, samples) ->
  num_samples spec = Ok n /\ wav_header n = Ok h /\ fmt_chunk spec = Ok c /\
  data_header n = Ok d /\ sample_loop L spec n (range n) [] = Ok samples.
Proof.
  unfold render.
  destruct (num_samples spec) as [n'|]; [|discriminate]. cbn [mbind result_bind].
  destruct (wav_header n') as [h'|] eqn:E1; [|discriminate]. cbn [mbind result_bind].
  destruct (fmt_chunk spec) as [c'|]; [|discriminate]. cbn [mbind result_bind].
  destruct (data_header n') as [d'|] eqn:E2; [|discriminate]. cbn [mbind result_bind].
  destruct (sample_loop L spec n' (range n') []) as [s'|] eqn:E3; [|discriminate].
  cbn [mbind result_bind]. intros [= -> -> -> -> ->]. repeat split; assumption.
Qed.

Lemma render_intro L spec n h c d samples :
  num_samples spec = Ok n -> wav_header n = Ok h -> fmt_chunk spec = Ok c ->
  data_header n = Ok d -> sample_loop L spec n (range n) [] = Ok samples ->
  render L spec = Ok (n, h, c, d, samples).
Proof.
  intros H1 H2 H3 H4 H5. unfold render.
  rewrite H1. cbn [mbind result_bind]. rewrite H2. cbn [mbind result_bind].
  rewrite H3. cbn [mbind result_bind]. rewrite H4. cbn [mbind result_bind].
  rewrite H5. reflexivity.
Qed.

Lemma sample_bytes_inv L spec n i b :
  sample_bytes L spec n i = Ok b ->
  exists z, sample_int L spec n i = Ok z /\ (-32768 <= z <= 32767)%Z /\
            b = Struct.le_bytes 2 z.
Proof.
  unfold sample_bytes. destruct (sample_int L spec n i) as [z|]; [|discriminate].
  cbn [mbind result_bind]. intros H. apply StructFacts.pack_h_inv in H as [Hz ->].
  eauto.
Qed.

Lemma sample_bytes_list L spec n indices bs :
  Forall2 (fun i b => sample_bytes L spec n i = Ok b) indices bs ->
  exists zs, Forall2 (fun i z => sample_int L spec n i = Ok z) indices zs /\
             Forall (fun z => -32768 <= z <= 32767)%Z zs /\
             bs = map (Struct.le_bytes 2) zs.
Proof.
  induction 1 as [|i b indices bs Hb _ IH].
  - exists []. repeat split; constructor.
  - destruct IH as (zs & H1 & H2 & ->).
    apply sample_bytes_inv in Hb as (z & Hz & Hr & ->).
    exists (z :: zs). repeat split; try constructor; auto.
Qed.

(** Everything a completed computation has produced, in the terms of the
    file format. *)
Lemma render_layout L spec n h c d samples :
  render L spec = Ok (n, h, c, d, samples) ->
  exists zs,
    Forall2 (fun i z => sample_int L spec n i = Ok z) (range n) zs /\
    Forall (fun z => -32768 <= z <= 32767)%Z zs /\
    h ++ c ++ d ++ concat samples = riff_layout (sample_rate spec) n zs /\
    (0 <= n <= 2147483629)%Z /\ (0 <= sample_rate spec <= 2147483647)%Z.
Proof.
  intros Hr. apply render_inv in Hr as (_ & Hh & Hc & Hd & Hl).
  apply wav_header_inv in Hh as [Rh ->]. apply fmt_chunk_inv in Hc as [Rc ->].
  apply data_header_inv in Hd as [Rd ->].
  apply sample_loop_inv in Hl as (bs & -> & HF). cbn [app].
  apply sample_bytes_list in HF as (zs & HF & Hz & ->).
  exists zs. split; [exact HF|]. split; [exact Hz|]. split; [|lia].
  unfold riff_layout, riff_header, bytes_of_string. now rewrite <- !app_assoc.
Qed.


Lemma length_riff_header rate n : length (riff_header rate n) = 44%nat.
Proof. reflexivity. Qed.

Lemma slice_header rate n zs off len :
  (off + len <= 44)%nat ->
  slice off len (riff_layout rate n zs) = slice off len (riff_header rate n).
Proof.
  intros H. unfold slice, riff_layout.
  rewrite drop_app_le by (rewrite length_riff_header; lia).
  rewrite take_app_le by (rewrite length_drop, length_riff_header; lia).
  reflexivity.
Qed.

Lemma concat_samples_slice zs : forall i z,
  zs !! i = Some z ->
  slice (2 * i) 2 (concat (map (Struct.le_bytes 2) zs)) = Struct.le_bytes 2 z.
Proof.
  induction zs as [|z0 zs IH]; intros [|i] z H; try discriminate.
  - injection H as ->. reflexivity.
  - cbn [map concat]. unfold slice.
    replace (2 * S i)%nat with (2 + 2 * i)%nat by lia.
    change (Struct.le_bytes 2 z0) with
      [Struct.byte_of_Z z0; Struct.byte_of_Z (Z.shiftr z0 8)].
    cbn [app drop Nat.add]. apply (IH i z H).
Qed.

(** Sample [i] occupies bytes 44 + 2i and 45 + 2i of the file. *)
Lemma slice_sample rate n zs i z :
  zs !! i = Some z ->
  slice (44 + 2 * i) 2 (riff_layout rate n zs) = Struct.le_bytes 2 z.
Proof.
  intros H. unfold slice, riff_layout.
  rewrite drop_app_ge by (rewrite length_riff_header; lia).
  rewrite length_riff_header.
  replace (44 + 2 * i - 44)%nat with (2 * i)%nat by lia.
  now apply concat_samples_slice.
Qed.

Lemma length_concat_samples zs :
  length (concat (map (Struct.le_bytes 2) zs)) = (2 * length zs)%nat.
Proof.
  induction zs as [|z zs IH]; [reflexivity|].
  cbn [map concat length]. rewrite length_app, IH, StructFacts.length_le_bytes. lia.
Qed.

Lemma length_riff_layout rate n zs :
  length (riff_layout rate n zs) = (44 + 2 * length zs)%nat.
Proof.
  unfold riff_layout. now rewrite length_app, length_riff_header, length_concat_samples.
Qed.

Lemma range_samples_lookup (P : Z -> Z -> Prop) n zs i :
  Forall2 P (range n) zs -> (0 <= i < n)%Z ->
  exists z, zs !! Z.to_nat i = Some z /\ P i z.
Proof.
  intros HF Hi.
  exact (Forall2_lookup_l P (range n) zs (Z.to_nat i) i HF (range_lookup n i Hi)).
Qed.

Lemma range_samples_length (P : Z -> Z -> Prop) n zs :
  Forall2 P (range n) zs -> length zs = Z.to_nat n.
Proof. intros HF. rewrite <- (Forall2_length _ _ _ HF). apply length_range. Qed.

(** Lines 26-42, step by step. *)
Lemma sample_int_inv L spec n i z :
  sample_int L spec n i = Ok z ->
  exists t progress s fade_out,
    int_truediv i (sample_rate spec) = Ok t /\
    int_truediv i n = Ok progress /\
    PyMath.sin L (2 * pi *
      (start_freq spec + (end_freq spec - start_freq spec) * progress) * t)%float
      = Ok s /\
    PyMath.pow2 L (1 - progress)%float = Ok fade_out /\
    to_int (s * fade_out * volume * 32767)%float = Ok z.
Proof.
  unfold sample_int, amplitude.
  destruct (int_truediv i (sample_rate spec)) as [t|]; [|discriminate].
  destruct (int_truediv i n) as [p|]; [|discriminate].
  cbn [mbind result_bind].
  destruct (PyMath.sin L _) as [s|] eqn:Es; [|discriminate].
  destruct (PyMath.pow2 L (1 - p)%float) as [f|] eqn:Ef; [|discriminate].
  cbn [mbind result_bind]. intros Hz.
  exists t, p, s, f. repeat split; assumption.
Qed.

(** The file a successful run leaves behind. *)
Lemma generate_wav_file L spec filename w w' :
  generate_wav L spec filename w = (Ok (), w') ->
  exists n zs,
    num_samples spec = Ok n /\
    Forall2 (fun i z => sample_int L spec n i = Ok z) (range n) zs /\
    Forall (fun z => -32768 <= z <= 32767)%Z zs /\
    (0 <= n <= 2147483629)%Z /\ (0 <= sample_rate spec <= 2147483647)%Z /\
    FS.files (fs w') = <[filename := riff_layout (sample_rate spec) n zs]> (FS.files (fs w)) /\
    FS.unwritable (fs w') = FS.unwritable (fs w) /\
    stdout w' = stdout w ++ summary spec filename n.
Proof.
  intros H.
  destruct (generate_wav_ok_inv _ _ _ _ _ H) as (n & h & c & d & samples & Hr & Hw).
  rewrite (generate_wav_success _ _ _ _ _ _ _ _ _ Hr Hw) in H.
  injection H as <-.
  pose proof (render_inv _ _ _ _ _ _ _ Hr) as (Hn & _).
  destruct (render_layout _ _ _ _ _ _ _ Hr) as (zs & HF & Hz & El & Rn & Rr).
  exists n, zs. cbn [fs stdout FS.files FS.unwritable]. rewrite El.
  repeat split; auto; lia.
Qed.


(** ** When the header can be packed *)

Lemma wav_header_ok n :
  (0 <= 36 + n * 2 <= 4294967295)%Z ->
  wav_header n =
  Ok (bytes_of_string "RIFF" ++ Struct.le_bytes 4 (36 + n * 2) ++ bytes_of_string "WAVE").
Proof.
  intros H. unfold wav_header. cbn [Struct.pack Struct.pack_field mbind result_bind].
  destruct (Z.leb_spec 0 (36 + n * 2)); [|lia].
  destruct (Z.leb_spec (36 + n * 2) 4294967295); [|lia].
  reflexivity.
Qed.

Lemma fmt_chunk_ok spec :
  (0 <= sample_rate spec <= 2147483647)%Z -> is_ok (fmt_chunk spec) = true.
Proof.
  intros H. unfold fmt_chunk. cbn [Struct.pack Struct.pack_field mbind result_bind].
  change ((0 <=? 16) && (16 <=? 4294967295))%Z with true.
  change ((0 <=? 1) && (1 <=? 65535))%Z with true.
  change ((0 <=? 2) && (2 <=? 65535))%Z with true.
  change ((0 <=? 16) && (16 <=? 65535))%Z with true.
  cbn [mbind result_bind].
  destruct (Z.leb_spec 0 (sample_rate spec)); [|lia].
  destruct (Z.leb_spec (sample_rate spec) 4294967295); [|lia].
  cbn [andb mbind result_bind].
  destruct (Z.leb_spec 0 (sample_rate spec * 2)); [|lia].
  destruct (Z.leb_spec (sample_rate spec * 2) 4294967295); [|lia].
  reflexivity.
Qed.

Lemma fmt_chunk_out_of_range spec :
  (sample_rate spec < 0 \/ 2147483647 < sample_rate spec)%Z ->
  fmt_chunk spec = Raise StructError.
Proof.
  intros H. unfold fmt_chunk. cbn [Struct.pack Struct.pack_field mbind result_bind].
  change ((0 <=? 16) && (16 <=? 4294967295))%Z with true.
  change ((0 <=? 1) && (1 <=? 65535))%Z with true.
  cbn [mbind result_bind].
  destruct (Z.leb_spec 0 (sample_rate spec)); [|reflexivity].
  destruct (Z.leb_spec (sample_rate spec) 4294967295); [|reflexivity].
  cbn [andb mbind result_bind].
  destruct (Z.leb_spec 0 (sample_rate spec * 2)); [|reflexivity].
  destruct (Z.leb_spec (sample_rate spec * 2) 4294967295); [lia|reflexivity].
Qed.

Lemma wav_header_negative n : (n < 0)%Z ->
  wav_header n = Raise StructError \/ data_header n = Raise StructError.
Proof.
  intros H. right. unfold data_header.
  cbn [Struct.pack Struct.pack_field mbind result_bind].
  destruct (Z.leb_spec 0 (n * 2)); [lia|reflexivity].
Qed.

Lemma data_header_ok n :
  (0 <= n * 2 <= 4294967295)%Z ->
  data_header n = Ok (bytes_of_string "data" ++ Struct.le_bytes 4 (n * 2)).
Proof.
  intros H. unfold data_header. cbn [Struct.pack Struct.pack_field mbind result_bind].
  destruct (Z.leb_spec 0 (n * 2)); [|lia].
  destruct (Z.leb_spec (n * 2) 4294967295); [|lia].
  reflexivity.
Qed.

(** A header field that does not fit stops the run before any sample is
    computed. *)
Lemma render_struct_error L spec n :
  num_samples spec = Ok n ->
  (n < 0 \/ 2147483629 < n \/ sample_rate spec < 0 \/ 2147483647 < sample_rate spec)%Z ->
  render L spec = Raise StructError.
Proof.
  intros Hn Hbad. unfold render. rewrite Hn. cbn [mbind result_bind].
  destruct (wav_header n) as [h|e] eqn:Eh; cbn [mbind result_bind].
  - apply wav_header_inv in Eh as [Rh _].
    destruct (fmt_chunk spec) as [c|e] eqn:Ec; cbn [mbind result_bind].
    + apply fmt_chunk_inv in Ec as [Rc _].
      assert (n < 0)%Z as Hneg by lia.
      destruct (wav_header_negative n Hneg) as [E|E]; [|now rewrite E].
      exfalso. unfold wav_header in E.
      cbn [Struct.pack Struct.pack_field mbind result_bind] in E.
      destruct (Z.leb_spec 0 (36 + n * 2)); [|lia].
      destruct (Z.leb_spec (36 + n * 2) 4294967295); [|lia]. discriminate.
    + unfold fmt_chunk in Ec. revert Ec.
      cbn [Struct.pack Struct.pack_field mbind result_bind].
      change ((0 <=? 16) && (16 <=? 4294967295))%Z with true.
      change ((0 <=? 1) && (1 <=? 65535))%Z with true.
      change ((0 <=? 2) && (2 <=? 65535))%Z with true.
      change ((0 <=? 16) && (16 <=? 65535))%Z with true.
      cbn [mbind result_bind].
      destruct ((0 <=? sample_rate spec) && (sample_rate spec <=? 4294967295))%Z;
        cbn [mbind result_bind]; [|congruence].
      destruct ((0 <=? sample_rate spec * 2) && (sample_rate spec * 2 <=? 4294967295))%Z;
        cbn [mbind result_bind]; [discriminate|congruence].
  - unfold wav_header in Eh. revert Eh.
    cbn [Struct.pack Struct.pack_field mbind result_bind].
    destruct ((0 <=? 36 + n * 2) && (36 + n * 2 <=? 4294967295))%Z;
      cbn [mbind result_bind]; [discriminate|congruence].
Qed.


(** ** Every step of a sample is defined *)

Lemma rounds_to_finite V B r :
  rounds_to V B r -> SFfinite r = true /\ (Qabs (SF2Q r) <= B)%Q.
Proof. intros (Hf & Hm & _). split; [exact Hf|]. now rewrite <- SFmag_abs. Qed.

Lemma int_truediv_range i n b :
  (0 <= i < 2 ^ 53)%Z -> (0 < n < 2 ^ 53)%Z ->
  finite b = true -> (0 < F2Q b)%Q -> (inject_Z i <= F2Q b * inject_Z n)%Q ->
  exists p, int_truediv i n = Ok p /\ in_range 0 (F2Q b) p.
Proof.
  intros Hi Hn Fb Pb Hle. unfold int_truediv.
  destruct (Z.eqb_spec n 0) as [|_]; [lia|].
  destruct (of_int_exact i ltac:(lia)) as (fi & -> & Ffi & Vi & _).
  destruct (of_int_exact n ltac:(lia)) as (fn & -> & Ffn & Vn & _).
  cbn [mbind result_bind]. eexists. split; [reflexivity|].
  assert (0 <= inject_Z i)%Q by (change 0%Q with (inject_Z 0); rewrite <- Zle_Qle; lia).
  assert (0 < inject_Z n)%Q by (change 0%Q with (inject_Z 0); rewrite <- Zlt_Qlt; lia).
  apply div_bound; try assumption.
  - rewrite Vi. assumption.
  - rewrite Vn. assumption.
  - rewrite Vi, Vn. assumption.
Qed.

Lemma scaled_sample_finite s f :
  in_range (-1) 1 s -> in_range 0 1 f ->
  finite (s * f * volume * 32767)%float = true.
Proof.
  intros Hs Hf.
  pose proof F2Q_one as E1. pose proof F2Q_volume as Ev.
  pose proof F2Q_32767 as E3. pose proof F2Q_sample_ceiling as Ec.
  pose proof (in_range_abs _ _ 1 _ Hs ltac:(lra) ltac:(lra)) as As.
  pose proof (in_range_abs _ _ 1 _ Hf ltac:(lra) ltac:(lra)) as Af.
  pose proof (Qabs_nonneg (F2Q s)) as Ns. pose proof (Qabs_nonneg (F2Q f)) as Nf.
  destruct (mul_bound s f 1%float (proj1 Hs) (proj1 Hf) finite_one) as (Fc & Ac).
  { rewrite E1. lra. }
  { rewrite E1. nra. }
  rewrite E1 in Ac. pose proof (Qabs_nonneg (F2Q (s * f)%float)) as Nc.
  assert (Qabs (F2Q volume) == F2Q volume)%Q as Av by (apply Qabs_pos; rewrite Ev; lra).
  destruct (mul_bound (s * f)%float volume volume Fc eq_refl eq_refl) as (Fa & Aa).
  { rewrite Ev. lra. }
  { rewrite Av, Ev. nra. }
  pose proof (Qabs_nonneg (F2Q (s * f * volume)%float)) as Na.
  assert (Qabs (F2Q 32767%float) == 32767)%Q as A3 by (rewrite E3; reflexivity).
  destruct (mul_bound (s * f * volume)%float 32767%float sample_ceiling Fa eq_refl eq_refl)
    as (Fv & _).
  { rewrite Ec. lra. }
  { rewrite A3, Ec. rewrite Ev in Aa. lra. }
  exact Fv.
Qed.

Lemma Qabs_sub_bound a b A B :
  (Qabs a <= A)%Q -> (Qabs b <= B)%Q -> (Qabs (a - b) <= A + B)%Q.
Proof.
  intros Ha Hb. apply Qabs_Qle_condition in Ha as [? ?].
  apply Qabs_Qle_condition in Hb as [? ?].
  apply Qabs_Qle_condition. split; lra.
Qed.

Lemma Qabs_add_bound a b A B :
  (Qabs a <= A)%Q -> (Qabs b <= B)%Q -> (Qabs (a + b) <= A + B)%Q.
Proof.
  intros Ha Hb. apply Qabs_Qle_condition in Ha as [? ?].
  apply Qabs_Qle_condition in Hb as [? ?].
  apply Qabs_Qle_condition. split; lra.
Qed.

(** Line 33: the argument of the sine is a finite float. *)
Lemma phase_finite spec p t :
  moderate_frequencies spec ->
  in_range 0 1 p -> in_range 0 (F2Q 2147483648%float) t ->
  finite (2 * pi *
    (start_freq spec + (end_freq spec - start_freq spec) * p) * t)%float = true.
Proof.
  intros (Fs & Fe & As & Ae) Hp Ht.
  set (B := F2Q frequency_limit) in *.
  assert (0 < B)%Q as HB by (vm_compute; reflexivity).
  assert (F2Q 0x1p+901%float == 2 * B)%Q as E901 by (vm_compute; reflexivity).
  assert (F2Q 0x1p+902%float == 4 * B)%Q as E902 by (vm_compute; reflexivity).
  assert (F2Q 0x1p+905%float == 32 * B)%Q as E905 by (vm_compute; reflexivity).
  assert (F2Q phase_limit == 68719476736 * B)%Q as E936 by (vm_compute; reflexivity).
  assert (F2Q 2147483648%float == 2147483648)%Q as E31 by (vm_compute; reflexivity).
  assert (Qabs (F2Q (2 * pi)%float) <= 8)%Q as A2pi by (vm_compute; discriminate).
  pose proof (in_range_abs _ _ 1 _ Hp ltac:(lra) ltac:(lra)) as Ap.
  assert (Qabs (F2Q t) <= 2147483648)%Q as At.
  { destruct Ht as (_ & H1 & H2). rewrite E31 in H2. apply Qabs_Qle_condition. split; lra. }
  pose proof (Qabs_nonneg (F2Q p)) as Np. pose proof (Qabs_nonneg (F2Q t)) as Nt.
  (* end_freq - start_freq *)
  destruct (rounds_to_finite _ _ _
              (sub_bound (end_freq spec) (start_freq spec) 0x1p+901%float Fe Fs eq_refl
                 ltac:(rewrite E901; lra)
                 ltac:(rewrite E901; eapply Qle_trans;
                       [apply (Qabs_sub_bound _ _ B B); assumption|lra])))
    as (Fd & Ad).
  fold (finite (end_freq spec - start_freq spec)%float) in Fd.
  fold (F2Q (end_freq spec - start_freq spec)%float) in Ad. rewrite E901 in Ad.
  pose proof (Qabs_nonneg (F2Q (end_freq spec - start_freq spec)%float)) as Nd.
  (* ... * progress *)
  destruct (mul_bound _ p 0x1p+901%float Fd (proj1 Hp) eq_refl) as (Fm & Am).
  { rewrite E901. lra. }
  { rewrite E901. nra. }
  rewrite E901 in Am.
  (* start_freq + ... *)
  destruct (rounds_to_finite _ _ _
              (add_bound (start_freq spec) _ 0x1p+902%float Fs Fm eq_refl
                 ltac:(rewrite E902; lra)
                 ltac:(rewrite E902; eapply Qle_trans;
                       [apply (Qabs_add_bound _ _ B (2 * B)); assumption|lra])))
    as (Ff & Af).
  match type of Ff with SFfinite (Prim2SF ?x) = true =>
    fold (finite x) in Ff; fold (F2Q x) in Af;
    pose proof (Qabs_nonneg (F2Q x)) as Nf end.
  rewrite E902 in Af.
  (* 2 * pi * freq *)
  pose proof (Qabs_nonneg (F2Q (2 * pi)%float)) as N2pi.
  destruct (mul_bound (2 * pi)%float _ 0x1p+905%float eq_refl Ff eq_refl) as (Fx & Ax).
  { rewrite E905. lra. }
  { rewrite E905. nra. }
  rewrite E905 in Ax.
  match type of Fx with finite ?x = true =>
    pose proof (Qabs_nonneg (F2Q x)) as Nx end.
  (* ... * t *)
  destruct (mul_bound _ t phase_limit Fx (proj1 Ht) eq_refl) as (Fa & _).
  { rewrite E936. lra. }
  { rewrite E936. nra. }
  exact Fa.
Qed.


Lemma math_sin_total L x :
  sin_total L -> finite x = true ->
  exists s, PyMath.sin L x = Ok s /\ in_range (-1) 1 s.
Proof.
  intros HL Fx. destruct (HL x Fx) as (Fs & Hs). unfold PyMath.sin.
  rewrite (finite_not_nan _ Fs), (finite_not_infinity _ Fs). cbn [andb].
  eexists. split; [reflexivity|]. split; assumption.
Qed.

Lemma math_pow2_total L x :
  pow_unit L -> in_range 0 1 x ->
  exists f, PyMath.pow2 L x = Ok f /\ in_range 0 1 f.
Proof.
  intros HL Hx. destruct (HL x Hx) as (Fr & Hr). unfold PyMath.pow2.
  rewrite (finite_not_nan x (proj1 Hx)), (finite_not_infinity x (proj1 Hx)).
  rewrite (finite_not_nan _ Fr), (finite_not_infinity _ Fr).
  eexists. split; [reflexivity|]. split; assumption.
Qed.

(** Lines 26-43 never fail on a moderate specification. *)
Lemma sample_bytes_total L spec n i :
  sin_total L -> pow_unit L -> moderate_frequencies spec ->
  (0 <= i < n)%Z -> (n <= 2 ^ 31)%Z -> (0 < sample_rate spec < 2 ^ 53)%Z ->
  exists z, sample_int L spec n i = Ok z /\ (-9830 <= z <= 9830)%Z /\
            sample_bytes L spec n i = Ok (Struct.le_bytes 2 z).
Proof.
  intros Hsin Hpow Hmod Hi Hn Hrate.
  assert (F2Q 2147483648%float == 2147483648)%Q as E31 by (vm_compute; reflexivity).
  destruct (int_truediv_range i (sample_rate spec) 2147483648%float) as (t & Et & Ht);
    try reflexivity; try lia.
  { rewrite E31.
    assert (inject_Z i <= 2147483648)%Q by (change 2147483648%Q with (inject_Z 2147483648);
      rewrite <- Zle_Qle; lia).
    assert (1 <= inject_Z (sample_rate spec))%Q by (change 1%Q with (inject_Z 1);
      rewrite <- Zle_Qle; lia).
    nra. }
  destruct (int_truediv_range i n 1%float) as (p & Ep & Hp); try reflexivity; try lia.
  { rewrite F2Q_one. assert (inject_Z i <= inject_Z n)%Q by (rewrite <- Zle_Qle; lia). lra. }
  assert (in_range 0 1 p) as Hp'.
  { destruct Hp as (H1 & H2 & H3). rewrite F2Q_one in H3. repeat split; assumption. }
  destruct (math_sin_total L _ Hsin (phase_finite spec p t Hmod Hp' Ht)) as (s & Es & Hs).
  destruct (math_pow2_total L _ Hpow (unit_complement p Hp')) as (f & Ef & Hf).
  destruct (to_int_total _ (scaled_sample_finite s f Hs Hf)) as (z & Ez).
  pose proof (scaled_sample_range s f z Hs Hf Ez) as Hz.
  assert (sample_int L spec n i = Ok z) as Hsi.
  { unfold sample_int, amplitude. rewrite Et, Ep. cbn [mbind result_bind].
    rewrite Es, Ef. cbn [mbind result_bind]. exact Ez. }
  exists z. split; [exact Hsi|]. split; [exact Hz|].
  unfold sample_bytes. rewrite Hsi. cbn [mbind result_bind].
  apply StructFacts.pack_h_ok. lia.
Qed.

Lemma sample_loop_ok L spec n indices :
  (forall i, i ∈ indices -> exists b, sample_bytes L spec n i = Ok b) ->
  exists bs, sample_loop L spec n indices [] = Ok bs /\ length bs = length indices.
Proof.
  intros H.
  assert (exists bs, Forall2 (fun i b => sample_bytes L spec n i = Ok b) indices bs)
    as (bs & HF).
  { induction indices as [|i rest IH].
    - exists []. constructor.
    - destruct (H i ltac:(left)) as (b & Hb).
      destruct IH as (bs & HF); [intros j Hj; apply H; now right|].
      exists (b :: bs). now constructor. }
  exists bs. split; [exact (sample_loop_total _ _ _ _ [] _ HF)|].
  symmetry. exact (Forall2_length _ _ _ HF).
Qed.

Lemma range_elem n i : i ∈ range n -> (0 <= i < n)%Z.
Proof.
  unfold range. intros H. apply list_elem_of_fmap in H as (k & -> & Hk).
  apply elem_of_seq in Hk. lia.
Qed.

(** With a sample rate of zero there is nothing to generate. *)
Lemma num_samples_zero_rate spec n :
  sample_rate spec = 0%Z -> num_samples spec = Ok n -> n = 0%Z.
Proof.
  intros Hr. unfold num_samples. rewrite Hr.
  change (of_int 0) with (Ok PrimFloat.zero). cbn [mbind result_bind].
  unfold to_int. rewrite FloatAxioms.mul_spec.
  change (Prim2SF PrimFloat.zero) with (S754_zero false).
  destruct (Prim2SF (duration spec)) as [s|s| |s m e]; cbn; congruence.
Qed.

(** Total correctness of the computation: on a moderate specification
    whose header fields fit, every line before the file is opened
    succeeds. *)
Lemma render_total L spec n :
  sin_total L -> pow_unit L -> moderate_frequencies spec ->
  num_samples spec = Ok n ->
  (0 <= n <= 2147483629)%Z -> (0 <= sample_rate spec <= 2147483647)%Z ->
  exists h c d samples, render L spec = Ok (n, h, c, d, samples).
Proof.
  intros Hsin Hpow Hmod Hn Rn Rr.
  destruct (fmt_chunk spec) as [c|] eqn:Ec;
    [|pose proof (fmt_chunk_ok spec Rr) as H; rewrite Ec in H; discriminate].
  destruct (sample_loop_ok L spec n (range n)) as (bs & Hl & _).
  { intros i Hi. apply range_elem in Hi.
    assert (sample_rate spec <> 0)%Z as Hnz.
    { intros Hz. pose proof (num_samples_zero_rate spec n Hz Hn). lia. }
    destruct (sample_bytes_total L spec n i Hsin Hpow Hmod Hi) as (z & _ & _ & Hb);
      [lia|lia|]. eauto. }
  do 4 eexists. apply render_intro; try eassumption.
  - apply wav_header_ok. lia.
  - apply data_header_ok. lia.
Qed.


Lemma ref_sin_total : sin_total RefLibm.libm.
Proof.
  intros x Fx. cbn [libm_sin RefLibm.libm]. unfold RefLibm.sin.
  rewrite (finite_is_finite x Fx). apply clamp_range.
Qed.

(** Line 15 on a duration of zero. *)
Lemma num_samples_zero_duration spec :
  duration spec = 0%float -> (0 <= sample_rate spec < 2 ^ 53)%Z ->
  num_samples spec = Ok 0%Z.
Proof.
  intros Hd Hr. unfold num_samples. rewrite Hd.
  destruct (of_int_exact (sample_rate spec) Hr) as (r & -> & Fr & _).
  cbn [mbind result_bind]. destruct (mul_zero_r r Fr) as [s Hs].
  unfold to_int. now rewrite Hs.
Qed.

(** A run that computes everything and can open the file succeeds. *)
Lemma generate_wav_total L spec filename w n :
  sin_total L -> pow_unit L -> moderate_frequencies spec ->
  num_samples spec = Ok n ->
  (0 <= n <= 2147483629)%Z -> (0 <= sample_rate spec <= 2147483647)%Z ->
  filename ∉ FS.unwritable (fs w) ->
  exists zs,
    generate_wav L spec filename w =
    (Ok (),
     {| fs := {| FS.files := <[filename := riff_layout (sample_rate spec) n zs]>
                               (FS.files (fs w));
                 FS.unwritable := FS.unwritable (fs w) |};
        stdout := stdout w ++ summary spec filename n |}) /\
    length zs = Z.to_nat n /\
    Forall2 (fun i z => sample_int L spec n i = Ok z) (range n) zs.
Proof.
  intros Hsin Hpow Hmod Hn Rn Rr Hw.
  destruct (render_total L spec n Hsin Hpow Hmod Hn Rn Rr) as (h & c & d & samples & Hr).
  destruct (render_layout _ _ _ _ _ _ _ Hr) as (zs & HF & _ & El & _).
  exists zs. rewrite (generate_wav_success _ _ _ _ _ _ _ _ _ Hr Hw), El.
  split; [reflexivity|]. split; [|exact HF].
  exact (range_samples_length _ _ _ HF).
Qed.

Lemma default_spec_moderate : moderate_frequencies default_spec.
Proof.
  repeat split; try reflexivity; vm_compute; discriminate.
Qed.


(** ** The envelope at both ends *)

Local Open Scope Z_scope.

Lemma amplitude_factors L spec n i :
  amplitude L spec n i =
  (s ← Loop.sample L spec n i; f ← Loop.fade_out L n i; Ok (s * f * volume)%float).
Proof.
  unfold amplitude, Loop.sample, Loop.fade_out.
  destruct (int_truediv i (sample_rate spec)) as [t|]; [|reflexivity].
  destruct (int_truediv i n) as [p|]; [|reflexivity].
  cbn [mbind result_bind].
  destruct (PyMath.sin L _) as [s|]; reflexivity.
Qed.

Lemma progress_zero n : 0 < n < 2 ^ 53 -> int_truediv 0 n = Ok 0%float.
Proof.
  intros Hn. unfold int_truediv.
  destruct (Z.eqb_spec n 0) as [|_]; [lia|].
  destruct (of_int_exact n ltac:(lia)) as (fn & -> & Ffn & Vn & Hpos).
  destruct (Hpos ltac:(lia)) as (m & e & Efn).
  change (of_int 0) with (Ok 0%float : result float).
  cbn [mbind result_bind]. f_equal. apply Prim2SF_inj.
  rewrite FloatAxioms.div_spec, Efn. reflexivity.
Qed.

Lemma fade_out_start L n :
  pow_one L -> 0 < n < 2 ^ 53 -> Loop.fade_out L n 0 = Ok 1%float.
Proof.
  intros H1 Hn. unfold Loop.fade_out. rewrite (progress_zero n Hn).
  cbn [mbind result_bind].
  change (1 - 0)%float with 1%float. unfold PyMath.pow2.
  change (is_nan 1) with false. change (is_infinity 1) with false. cbv iota.
  rewrite H1. reflexivity.
Qed.

Local Open Scope Q_scope.

Lemma pow2_inv k : pow2 k * pow2 (- k) == 1.
Proof. rewrite <- pow2_add. replace (k + - k)%Z with 0%Z by lia. reflexivity. Qed.

Lemma dyadic_pow2 e :
  (-1022 <= e <= 1023)%Z ->
  finite (dyadic 4503599627370496 (e - 52)) = true /\
  F2Q (dyadic 4503599627370496 (e - 52)) == pow2 e.
Proof.
  intros He.
  destruct (dyadic_spec 4503599627370496 (e - 52)) as (Hf & Hv & _).
  { apply bounded_53; [change (Z.pos 4503599627370496) with (2 ^ 52)%Z|]; lia. }
  split; [exact Hf|]. rewrite Hv.
  change (inject_Z (Z.pos 4503599627370496)) with (inject_Z (2 ^ 52)).
  rewrite <- pow2_Z by lia. rewrite <- pow2_add.
  replace (52 + (e - 52))%Z with e by lia. reflexivity.
Qed.

Lemma dyadic_scaled m e k :
  (2 ^ 52 <= Z.pos m < 2 ^ 53)%Z -> (-1074 <= e - k <= 971)%Z ->
  finite (dyadic m (e - k)) = true /\
  F2Q (dyadic m (e - k)) == inject_Z (Z.pos m) * pow2 e * pow2 (- k).
Proof.
  intros Hm He.
  destruct (dyadic_spec m (e - k)) as (Hf & Hv & _).
  { apply bounded_53; lia. }
  split; [exact Hf|]. rewrite Hv.
  replace (e - k)%Z with (e + - k)%Z by lia. rewrite pow2_add. ring.
Qed.

(** [1 - 2^-k] as a float. *)
Lemma dyadic_below_one k :
  (1 <= k <= 52)%Z ->
  let b := dyadic (Z.to_pos (2 ^ 53 - 2 ^ (53 - k))) (-53) in
  finite b = true /\ F2Q b == 1 - pow2 (- k) /\ 0 < F2Q b.
Proof.
  intros Hk. cbv zeta.
  assert (2 ^ (53 - k) <= 2 ^ 52)%Z as Hp by (apply Z.pow_le_mono_r; lia).
  assert (0 < 2 ^ (53 - k))%Z as Hp0 by (apply Z.pow_pos_nonneg; lia).
  change (2 ^ 53)%Z with (2 ^ 52 * 2)%Z.
  assert (Z.pos (Z.to_pos (2 ^ 52 * 2 - 2 ^ (53 - k))) = 2 ^ 52 * 2 - 2 ^ (53 - k))%Z as Em
    by (rewrite Z2Pos.id; lia).
  destruct (dyadic_spec (Z.to_pos (2 ^ 52 * 2 - 2 ^ (53 - k))) (-53)) as (Hf & Hv & Hpos).
  { apply bounded_53; [rewrite Em; change (2 ^ 53)%Z with (2 ^ 52 * 2)%Z|]; lia. }
  split; [exact Hf|]. split; [|exact Hpos]. rewrite Hv, Em.
  unfold Z.sub. rewrite inject_Z_plus, inject_Z_opp.
  change (2 ^ 52 * 2)%Z with (2 ^ 53)%Z.
  rewrite <- !pow2_Z by lia.
  assert (pow2 (53 + - k) == pow2 53 * pow2 (- k)) as -> by apply pow2_add.
  pose proof (pow2_inv 53) as E.
  assert ((pow2 53 + - (pow2 53 * pow2 (- k))) * pow2 (-53)
          == pow2 53 * pow2 (-53) * (1 - pow2 (- k))) as E' by ring.
  rewrite E', E. ring.
Qed.

Lemma tail_progress i n k p :
  (0 <= k)%Z -> (0 <= i < n)%Z -> (n < 2 ^ 53)%Z -> ((n - i) * 2 ^ k <= n)%Z ->
  int_truediv i n = Ok p -> in_range (1 - pow2 (- k)) 1 p.
Proof.
  intros Hk Hi Hn Htail Ep.
  pose proof (progress_range i n p Hi Hn Ep) as (Fp & Hlo & Hhi).
  split; [exact Fp|]. split; [|exact Hhi].
  destruct (Z.eq_dec k 0%Z) as [->|Hk0].
  { change (pow2 (- 0)) with 1. lra. }
  assert (0 < 2 ^ k)%Z as Hpk by (apply Z.pow_pos_nonneg; lia).
  assert (k <= 52)%Z as Hk52.
  { assert (2 ^ k < 2 ^ 53)%Z as Hlt by nia.
    apply Z.pow_lt_mono_r_iff in Hlt; lia. }
  destruct (dyadic_below_one k ltac:(lia)) as (Fb & Vb & Pb).
  set (b := dyadic (Z.to_pos (2 ^ 53 - 2 ^ (53 - k))) (-53)) in *.
  rewrite <- Vb.
  revert Ep. unfold int_truediv.
  destruct (Z.eqb_spec n 0) as [|_]; [lia|].
  destruct (of_int_exact i ltac:(lia)) as (fi & -> & Ffi & Vi & _).
  destruct (of_int_exact n ltac:(lia)) as (fn & -> & Ffn & Vn & _).
  cbn [mbind result_bind]. intros [= <-].
  apply (div_lower fi fn b Ffi Ffn Fb Pb) with (hi := 1).
  - rewrite Vn. change 0 with (inject_Z 0). rewrite <- Zlt_Qlt. lia.
  - rewrite Vb, Vi, Vn.
    assert (inject_Z ((n - i) * 2 ^ k) <= inject_Z n) as H by (rewrite <- Zle_Qle; exact Htail).
    rewrite inject_Z_mult in H. unfold Z.sub in H.
    rewrite inject_Z_plus, inject_Z_opp, <- pow2_Z in H by lia.
    pose proof (pow2_inv k) as E. pose proof (pow2_pos (- k)) as Hp.
    set (P := pow2 k) in *. set (Pi := pow2 (- k)) in *.
    set (N := inject_Z n) in *. set (I := inject_Z i) in *.
    assert ((N + - I) * P * Pi <= N * Pi) as H2.
    { apply Qmult_le_compat_r; [exact H|lra]. }
    assert ((N + - I) * P * Pi == N + - I) as E2.
    { rewrite <- Qmult_assoc. rewrite E. ring. }
    rewrite E2 in H2. lra.
  - repeat split; assumption.
Qed.

Lemma tail_complement k p :
  (0 <= k <= 52)%Z ->
  in_range (1 - pow2 (- k)) 1 p -> in_range 0 (pow2 (- k)) (1 - p)%float.
Proof.
  intros Hk (Fp & Hlo & Hhi). pose proof F2Q_one as E1.
  destruct (dyadic_pow2 (- k) ltac:(lia)) as (Fb & Vb).
  set (b := dyadic 4503599627370496 (- k - 52)) in *.
  pose proof (pow2_pos (- k)) as Hp.
  assert (Qabs (F2Q 1 - F2Q p) <= F2Q b) as Habs.
  { rewrite E1, Vb. apply Qabs_Qle_condition. split; lra. }
  destruct (sub_bound 1%float p b finite_one Fp Fb
              ltac:(rewrite Vb; lra) Habs) as (Hf & Hm & Hpos & _).
  split; [exact Hf|]. unfold F2Q at 1 2.
  assert (0 <= SF2Q (Prim2SF (1 - p)%float)) as Hn by (apply Hpos; rewrite E1; lra).
  split; [exact Hn|].
  rewrite SFmag_abs, Qabs_pos, Vb in Hm by exact Hn. exact Hm.
Qed.

Local Open Scope Q_scope.

Lemma pow2_double k : pow2 (- (2 * k)) == pow2 (- k) * pow2 (- k).
Proof. rewrite <- pow2_add. replace (- (2 * k))%Z with (- k + - k)%Z by lia. reflexivity. Qed.

Lemma pow2_quarter k : (0 <= k)%Z -> inject_Z (4 ^ k) * pow2 (- (2 * k)) == 1.
Proof.
  intros Hk. change 4%Z with (2 ^ 2)%Z. rewrite <- Z.pow_mul_r by lia.
  rewrite <- pow2_Z by lia. apply pow2_inv.
Qed.

(** Lines 39 and 42 once the envelope is at most [4^-k]. *)
Lemma decay_product s f k :
  (0 <= k <= 52)%Z ->
  in_range (-1) 1 s -> in_range 0 (pow2 (- (2 * k))) f ->
  finite (s * f * volume)%float = true /\
  Qabs (F2Q (s * f * volume)%float) <= F2Q volume * pow2 (- (2 * k)) /\
  forall z, to_int (s * f * volume * 32767)%float = Ok z -> (Z.abs z * 4 ^ k <= 9830)%Z.
Proof.
  intros Hk Hs Hf.
  pose proof F2Q_volume as Ev. pose proof F2Q_32767 as E3.
  pose proof (pow2_pos (- (2 * k))) as HP.
  set (P := pow2 (- (2 * k))) in *.
  pose proof (in_range_abs _ _ 1 _ Hs ltac:(lra) ltac:(lra)) as As.
  pose proof (in_range_abs _ _ P _ Hf ltac:(lra) ltac:(lra)) as Af.
  pose proof (Qabs_nonneg (F2Q s)) as Ns. pose proof (Qabs_nonneg (F2Q f)) as Nf.
  destruct (dyadic_pow2 (- (2 * k)) ltac:(lia)) as (Fb1 & Vb1). fold P in Vb1.
  destruct (mul_bound s f _ (proj1 Hs) (proj1 Hf) Fb1) as (Fc & Ac).
  { rewrite Vb1. exact HP. }
  { rewrite Vb1. nra. }
  rewrite Vb1 in Ac. pose proof (Qabs_nonneg (F2Q (s * f)%float)) as Nc.
  assert (Qabs (F2Q volume) == F2Q volume) as Av by (apply Qabs_pos; rewrite Ev; lra).
  destruct (dyadic_scaled 5404319552844595 (-54) (2 * k)) as (Fb2 & Vb2); [lia|lia|].
  assert (inject_Z (Z.pos 5404319552844595) * pow2 (-54) == F2Q volume) as Em2
    by (rewrite Ev; vm_compute; reflexivity).
  rewrite Em2 in Vb2. fold P in Vb2.
  destruct (mul_bound (s * f)%float volume _ Fc eq_refl Fb2) as (Fa & Aa).
  { rewrite Vb2, Ev. nra. }
  { rewrite Vb2, Av, Ev. nra. }
  rewrite Vb2 in Aa. split; [exact Fa|]. split; [exact Aa|].
  intros z Hz.
  pose proof (Qabs_nonneg (F2Q (s * f * volume)%float)) as Na.
  assert (Qabs (F2Q 32767%float) == 32767) as A3 by (rewrite E3; reflexivity).
  destruct (dyadic_scaled 5404374528425984 (-39) (2 * k)) as (Fb3 & Vb3); [lia|lia|].
  assert (inject_Z (Z.pos 5404374528425984) * pow2 (-39) == 19661 # 2) as Em3
    by (vm_compute; reflexivity).
  rewrite Em3 in Vb3. fold P in Vb3.
  destruct (mul_bound (s * f * volume)%float 32767%float _ Fa eq_refl Fb3) as (Fv & Avv).
  { rewrite Vb3. nra. }
  { rewrite Vb3, A3. rewrite Ev in Aa. nra. }
  rewrite Vb3 in Avv.
  apply to_int_bound in Hz as (_ & Hz).
  assert (inject_Z (Z.abs z) <= (19661 # 2) * P) as Hq by lra.
  pose proof (pow2_quarter k ltac:(lia)) as E4. fold P in E4.
  assert (0 < 4 ^ k)%Z as H4 by (apply Z.pow_pos_nonneg; lia).
  assert (0 < inject_Z (4 ^ k)) as H4q by (change 0 with (inject_Z 0); rewrite <- Zlt_Qlt; lia).
  set (F := inject_Z (4 ^ k)) in *.
  assert (inject_Z (Z.abs z) * F <= (19661 # 2) * P * F) as H5.
  { apply Qmult_le_compat_r; [exact Hq|lra]. }
  assert ((19661 # 2) * P * F == 19661 # 2) as E5.
  { rewrite <- Qmult_assoc, (Qmult_comm P F), E4. ring. }
  rewrite E5 in H5. unfold F in H5. rewrite <- inject_Z_mult in H5.
  unfold Qle in H5. cbn [Qnum Qden inject_Z] in H5. lia.
Qed.

Local Open Scope Z_scope.

Lemma math_pow2_dyadic L k x r :
  pow_dyadic L -> 0 <= k <= 52 -> in_range 0 (pow2 (- k)) x ->
  PyMath.pow2 L x = Ok r -> in_range 0 (pow2 (- (2 * k))) r.
Proof.
  intros HL Hk Hx. unfold PyMath.pow2.
  pose proof Hx as (Fx & _).
  rewrite (finite_not_nan x Fx), (finite_not_infinity x Fx).
  destruct (HL k x Hk Hx) as (Fr & Hr).
  rewrite (finite_not_nan _ Fr), (finite_not_infinity _ Fr).
  intros [= <-]. split; assumption.
Qed.

Lemma ref_pow_one : pow_one RefLibm.libm.
Proof. reflexivity. Qed.

Lemma ref_pow_dyadic : pow_dyadic RefLibm.libm.
Proof.
  intros k x Hk (Fx & Hlo & Hhi). cbn [libm_pow RefLibm.libm]. unfold RefLibm.pow.
  change (2 =? 2)%float with true. cbv iota.
  destruct (dyadic_pow2 (- (2 * k)) ltac:(lia)) as (Fb & Vb).
  pose proof (pow2_pos (- k)) as Hp. pose proof (pow2_double k) as Ed.
  assert (Qabs (F2Q x) == F2Q x)%Q as Ax by (now apply Qabs_pos).
  destruct (mul_rounded x x _ Fx Fx Fb) as (Hf & Hs & Hm).
  - rewrite Vb. apply pow2_pos.
  - rewrite Ax, Vb, Ed. nra.
  - rewrite xorb_nilpotent in Hs.
    assert (0 <= F2Q (x * x)%float)%Q as Hn.
    { unfold F2Q. rewrite SF2Q_sign_mag, Hs. apply SFmag_nonneg. }
    split; [exact Hf|]. split; [exact Hn|].
    rewrite SFmag_abs in Hm. fold (F2Q (x * x)%float) in Hm.
    rewrite Qabs_pos, Vb in Hm by exact Hn. exact Hm.
Qed.

(** Lines 26-42 near the end of the tone. *)
Lemma tail_decay L spec n i k :
  sin_bounded L -> pow_dyadic L ->
  0 <= k -> 0 <= i < n -> n < 2 ^ 53 -> (n - i) * 2 ^ k <= n ->
  (forall a, amplitude L spec n i = Ok a -> is_nan a = false ->
     (Qabs (F2Q a) <= F2Q volume * pow2 (- (2 * k)))%Q) /\
  (forall z, sample_int L spec n i = Ok z -> Z.abs z * 4 ^ k <= 9830).
Proof.
  intros Hsin Hpow Hk Hi Hn Htail.
  assert (k <= 52) as Hk52.
  { assert (0 < 2 ^ k) by (apply Z.pow_pos_nonneg; lia).
    assert (2 ^ k < 2 ^ 53) as Hlt by nia.
    apply Z.pow_lt_mono_r_iff in Hlt; lia. }
  assert (forall a, amplitude L spec n i = Ok a ->
            is_nan a = true \/
            exists s f, a = (s * f * volume)%float /\ in_range (-1) 1 s /\
                        in_range 0 (pow2 (- (2 * k))) f) as Hamp.
  { intros a. unfold amplitude.
    destruct (int_truediv i (sample_rate spec)) as [t|]; [|discriminate].
    destruct (int_truediv i n) as [p|] eqn:Ep; [|discriminate].
    cbn [mbind result_bind].
    destruct (PyMath.sin L _) as [s|] eqn:Es; [|discriminate].
    destruct (PyMath.pow2 L (1 - p)%float) as [f|] eqn:Ef; [|discriminate].
    cbn [mbind result_bind]. intros [= <-].
    pose proof (tail_progress i n k p Hk Hi Hn Htail Ep) as Hp.
    pose proof (tail_complement k p ltac:(lia) Hp) as Hc.
    pose proof (math_pow2_dyadic L k _ f Hpow ltac:(lia) Hc Ef) as Hf.
    destruct (math_sin_bounded L _ s Hsin Es) as [Hnan|Hs].
    - left. now do 2 apply mul_nan_l.
    - right. exists s, f. auto. }
  split.
  - intros a Ha Hnn. destruct (Hamp a Ha) as [Hnan|(s & f & -> & Hs & Hf)].
    + congruence.
    + now destruct (decay_product s f k ltac:(lia) Hs Hf) as (_ & H & _).
  - intros z. unfold sample_int.
    destruct (amplitude L spec n i) as [a|] eqn:Ea; [|discriminate].
    cbn [mbind result_bind]. intros Hz.
    destruct (Hamp a eq_refl) as [Hnan|(s & f & -> & Hs & Hf)].
    + rewrite to_int_nan in Hz; [discriminate|]. now apply mul_nan_l.
    + destruct (decay_product s f k ltac:(lia) Hs Hf) as (_ & _ & H). now apply H.
Qed.

Lemma amplitude_start L spec n :
  pow_one L -> 0 < n < 2 ^ 53 ->
  amplitude L spec n 0 = (s ← Loop.sample L spec n 0; Ok (s * volume)%float).
Proof.
  intros H1 Hn. rewrite amplitude_factors, (fade_out_start L n H1 Hn).
  destruct (Loop.sample L spec n 0) as [s|]; [|reflexivity].
  cbn [mbind result_bind]. now rewrite mul_one_r.
Qed.



(** ** The first sample, the last samples and the edges of line 15 *)

Local Open Scope Z_scope.

Lemma flat_spec_moderate : moderate_frequencies flat_spec.
Proof. repeat split; try reflexivity; vm_compute; discriminate. Qed.

Lemma ref_sin_zero : sin_zero RefLibm.libm.
Proof.
  intros x s Hx. rewrite <- (SF2Prim_Prim2SF x), Hx.
  destruct s; vm_compute; eauto.
Qed.

Lemma math_sin_zero L x s :
  sin_zero L -> Prim2SF x = S754_zero s ->
  exists r s', PyMath.sin L x = Ok r /\ Prim2SF r = S754_zero s'.
Proof.
  intros HL Hx. destruct (HL x s Hx) as (s' & Hr).
  exists (libm_sin L x), s'. split; [|exact Hr]. unfold PyMath.sin.
  pose proof (zero_finite _ _ Hr) as Fr.
  now rewrite (finite_not_nan _ Fr), (finite_not_infinity _ Fr).
Qed.

Lemma frequency_scale_finite spec p :
  moderate_frequencies spec -> in_range 0 1 p ->
  finite (2 * pi * (start_freq spec + (end_freq spec - start_freq spec) * p))%float = true.
Proof.
  intros Hm Hp.
  assert (in_range 0 (F2Q 2147483648%float) 1%float) as H1.
  { split; [reflexivity|]. split; vm_compute; discriminate. }
  pose proof (phase_finite spec p 1%float Hm Hp H1) as H.
  now rewrite mul_one_r in H.
Qed.

Lemma sample_start L spec n :
  sin_zero L -> moderate_frequencies spec ->
  0 < n < 2 ^ 53 -> 0 < sample_rate spec < 2 ^ 53 ->
  exists r s, Loop.sample L spec n 0 = Ok r /\ Prim2SF r = S754_zero s.
Proof.
  intros Hsin Hm Hn Hr. unfold Loop.sample.
  rewrite (progress_zero _ Hr), (progress_zero _ Hn). cbn [mbind result_bind].
  assert (in_range 0 1 0%float) as H0.
  { split; [reflexivity|]. split; vm_compute; discriminate. }
  destruct (mul_zero_r _ (frequency_scale_finite spec 0%float Hm H0)) as (s & Hs).
  exact (math_sin_zero L _ s Hsin Hs).
Qed.

Lemma sample_int_start L spec n :
  sin_zero L -> pow_one L -> moderate_frequencies spec ->
  0 < n < 2 ^ 53 -> 0 < sample_rate spec < 2 ^ 53 ->
  sample_int L spec n 0 = Ok 0.
Proof.
  intros Hsin Hpow Hm Hn Hr. unfold sample_int.
  rewrite (amplitude_start L spec n Hpow Hn).
  destruct (sample_start L spec n Hsin Hm Hn Hr) as (r & s & -> & Hs).
  cbn [mbind result_bind].
  destruct (mul_zero_l r volume s Hs eq_refl) as (s1 & H1).
  destruct (mul_zero_l _ 32767%float s1 H1 eq_refl) as (s2 & H2).
  exact (to_int_zero _ _ H2).
Qed.

Lemma sample_int_tail L spec n i z :
  sin_bounded L -> pow_dyadic L ->
  0 <= i < n -> n < 2 ^ 53 -> (n - i) * 128 <= n ->
  sample_int L spec n i = Ok z -> z = 0.
Proof.
  intros Hsin Hpow Hi Hn Htail Hz.
  destruct (tail_decay L spec n i 7 Hsin Hpow ltac:(lia) Hi Hn Htail) as (_ & H).
  specialize (H z Hz). change (4 ^ 7) with 16384 in H. lia.
Qed.

Lemma num_samples_zero_rate_finite spec :
  sample_rate spec = 0 -> finite (duration spec) = true -> num_samples spec = Ok 0.
Proof.
  intros Hr Hd. unfold num_samples. rewrite Hr.
  change (of_int 0) with (Ok PrimFloat.zero). cbn [mbind result_bind].
  destruct (mul_zero_l PrimFloat.zero (duration spec) false eq_refl Hd) as (s & Hs).
  exact (to_int_zero _ _ Hs).
Qed.

Lemma header_only L spec filename w :
  num_samples spec = Ok 0 -> 0 <= sample_rate spec <= 2147483647 ->
  filename ∉ FS.unwritable (fs w) ->
  generate_wav L spec filename w =
  (Ok (),
   {| fs := {| FS.files := <[filename := riff_header (sample_rate spec) 0]> (FS.files (fs w));
               FS.unwritable := FS.unwritable (fs w) |};
      stdout := stdout w ++ summary spec filename 0 |}).
Proof.
  intros Hn Hr Hw.
  destruct (fmt_chunk spec) as [c|] eqn:Ec;
    [|pose proof (fmt_chunk_ok spec Hr) as H; rewrite Ec in H; discriminate].
  pose proof (render_intro L spec 0%Z _ c _ [] Hn (wav_header_ok 0 ltac:(lia)) Ec
                (data_header_ok 0 ltac:(lia)) eq_refl) as Hrender.
  rewrite (generate_wav_success _ _ _ _ _ _ _ _ _ Hrender Hw).
  do 3 f_equal. apply fmt_chunk_inv in Ec as [_ ->].
  unfold riff_header, bytes_of_string. cbn [concat]. rewrite app_nil_r.
  now rewrite <- !app_assoc.
Qed.

Lemma num_samples_nan spec r :
  of_int (sample_rate spec) = Ok r -> is_nan (duration spec) = true ->
  num_samples spec = Raise ValueError.
Proof.
  intros Hr Hd. unfold num_samples. rewrite Hr. cbn [mbind result_bind].
  apply to_int_nan. apply is_nan_spec. rewrite FloatAxioms.mul_spec.
  apply is_nan_spec in Hd. rewrite Hd.
  destruct (Prim2SF r) as [s|s| |s m e]; reflexivity.
Qed.

Lemma num_samples_infinite spec :
  is_infinity (duration spec) = true -> 0 <= sample_rate spec < 2 ^ 53 ->
  num_samples spec =
  Raise (if sample_rate spec =? 0 then ValueError else OverflowError).
Proof.
  intros Hd Hr. apply is_infinity_spec in Hd as (s & Hd).
  unfold num_samples.
  destruct (of_int_exact (sample_rate spec) Hr) as (r & Er & Fr & Vr & Hpos).
  rewrite Er. cbn [mbind result_bind]. unfold to_int.
  rewrite FloatAxioms.mul_spec, Hd.
  destruct (Z.eqb_spec (sample_rate spec) 0) as [E|E].
  - rewrite E in Er. change (of_int 0) with (Ok PrimFloat.zero) in Er.
    injection Er as <-. reflexivity.
  - destruct (Hpos ltac:(lia)) as (m & e & ->). reflexivity.
Qed.

Lemma num_samples_error L spec filename w e :
  num_samples spec = Raise e -> generate_wav L spec filename w = (Raise e, w).
Proof.
  intros H. apply generate_wav_render_error. unfold render. now rewrite H.
Qed.

Lemma generate_wav_error_inv L spec filename w e w' :
  generate_wav L spec filename w = (Raise e, w') ->
  w' = w /\
  (render L spec = Raise e \/
   is_ok (render L spec) = true /\ e = OSError /\ filename ∈ FS.unwritable (fs w)).
Proof.
  unfold generate_wav.
  destruct (render L spec) as [[[[[n h] c] d] samples]|e0] eqn:Hr.
  - unfold FS.open_wb. destruct (bool_decide_reflect (filename ∈ FS.unwritable (fs w))) as [Hin|Hin].
    + intros [= <- <-]. split; [reflexivity|]. right. auto.
    + discriminate.
  - intros [= <- <-]. auto.
Qed.

Lemma generate_wav_frame L spec filename w p :
  p <> filename ->
  FS.files (fs (snd (generate_wav L spec filename w))) !! p = FS.files (fs w) !! p /\
  FS.unwritable (fs (snd (generate_wav L spec filename w))) = FS.unwritable (fs w).
Proof.
  intros Hp.
  destruct (generate_wav L spec filename w) as [[[]|e] w'] eqn:H; cbn [snd].
  - destruct (generate_wav_file _ _ _ _ _ H) as (n & zs & _ & _ & _ & _ & _ & Hf & Hu & _).
    rewrite Hf, Hu. split; [|reflexivity]. now apply lookup_insert_ne.
  - apply generate_wav_error_inv in H as [-> _]. auto.
Qed.


End ToneCueFacts.

(** * The specification's claims about the tone generator *)

Import PyFloat FloatFacts PrimFacts ToneCue ToneCueFacts.

(** C1, as the specification states it, fails: line 42 converts with
    [int], which truncates.  For half a second of a constant 1 Hz tone at
    four samples per second, sample 1 is sin(π/2) * 0.25 * 0.3 * 32767 =
    2457.52..., stored as 2457 where rounding to nearest gives 2458. *)
Lemma sample_is_not_rounded :
  sample_int RefLibm.libm flat_spec 2 1 <> rounded_sample_int RefLibm.libm flat_spec 2 1.
Proof. vm_compute. discriminate. Qed.

(** C1 (amended): in the file of a successful run, for every index i below
    the sample count, the 16-bit sample at bytes 44 + 2i is the truncation
    toward zero of sin(2π * freq * t) * (1 - progress)^2 * 0.3 * 32767, with
    t = i / sample_rate, progress = i / sampleCount and
    freq = start_freq + (end_freq - start_freq) * progress. *)
Theorem sample_is_truncated_product L spec filename w w' :
  generate_wav L spec filename w = (Ok (), w') ->
  exists n content,
    num_samples spec = Ok n /\
    FS.files (fs w') !! filename = Some content /\
    forall i, (0 <= i < n)%Z ->
      exists t progress s fade_out z,
        int_truediv i (sample_rate spec) = Ok t /\
        int_truediv i n = Ok progress /\
        PyMath.sin L (2 * pi *
          (start_freq spec + (end_freq spec - start_freq spec) * progress) * t)%float
          = Ok s /\
        PyMath.pow2 L (1 - progress)%float = Ok fade_out /\
        to_int (s * fade_out * volume * 32767)%float = Ok z /\
        Struct.le_signed16 (slice (44 + 2 * Z.to_nat i) 2 content) = z.
Proof.
  intros H.
  destruct (generate_wav_file _ _ _ _ _ H) as (n & zs & Hn & HF & Hz & _ & _ & Hfiles & _).
  exists n, (riff_layout (sample_rate spec) n zs).
  split; [exact Hn|]. split; [rewrite Hfiles; apply lookup_insert_eq|].
  intros i Hi.
  destruct (range_samples_lookup _ n zs i HF Hi) as (z & Hlook & Hs).
  destruct (sample_int_inv _ _ _ _ _ Hs) as (t & p & s & f & H1 & H2 & H3 & H4 & H5).
  exists t, p, s, f, z. repeat split; try assumption.
  rewrite (slice_sample _ _ _ _ _ Hlook).
  apply StructFacts.le_signed16_roundtrip.
  rewrite Forall_lookup in Hz. exact (Hz _ _ Hlook).
Qed.

Lemma sample_is_truncated_product_witness :
  let w' := snd (generate_wav RefLibm.libm flat_spec "cue.wav" empty_world) in
  exists n content,
    num_samples flat_spec = Ok n /\
    FS.files (fs w') !! "cue.wav" = Some content /\
    forall i, (0 <= i < n)%Z ->
      exists t progress s fade_out z,
        int_truediv i (sample_rate flat_spec) = Ok t /\
        int_truediv i n = Ok progress /\
        PyMath.sin RefLibm.libm (2 * pi *
          (start_freq flat_spec + (end_freq flat_spec - start_freq flat_spec) * progress)
          * t)%float = Ok s /\
        PyMath.pow2 RefLibm.libm (1 - progress)%float = Ok fade_out /\
        to_int (s * fade_out * volume * 32767)%float = Ok z /\
        Struct.le_signed16 (slice (44 + 2 * Z.to_nat i) 2 content) = z.
Proof.
  apply (sample_is_truncated_product RefLibm.libm flat_spec "cue.wav" empty_world).
  vm_compute. reflexivity.
Defined.

(** C2: whenever the generator completes, the file it wrote is a RIFF chunk
    (tag RIFF, size 36 + 2 * sampleCount, format WAVE), an fmt subchunk of
    size 16 with format code 1, one channel, the sample rate, byte rate
    2 * sample rate, block align 2 and 16 bits per sample, and a data
    subchunk of size 2 * sampleCount followed by the samples as little-endian
    signed 16-bit integers in index order. *)
Theorem wav_file_layout L spec filename w w' :
  generate_wav L spec filename w = (Ok (), w') ->
  exists n zs content,
    num_samples spec = Ok n /\
    FS.files (fs w') !! filename = Some content /\
    content = riff_layout (sample_rate spec) n zs /\
    length content = (44 + 2 * Z.to_nat n)%nat /\
    slice 0 4 content = bytes_of_string "RIFF" /\
    Struct.le_unsigned (slice 4 4 content) = (36 + n * 2)%Z /\
    slice 8 4 content = bytes_of_string "WAVE" /\
    slice 12 4 content = bytes_of_string "fmt " /\
    Struct.le_unsigned (slice 16 4 content) = 16%Z /\
    Struct.le_unsigned (slice 20 2 content) = 1%Z /\
    Struct.le_unsigned (slice 22 2 content) = 1%Z /\
    Struct.le_unsigned (slice 24 4 content) = sample_rate spec /\
    Struct.le_unsigned (slice 28 4 content) = (sample_rate spec * 2)%Z /\
    Struct.le_unsigned (slice 32 2 content) = 2%Z /\
    Struct.le_unsigned (slice 34 2 content) = 16%Z /\
    slice 36 4 content = bytes_of_string "data" /\
    Struct.le_unsigned (slice 40 4 content) = (n * 2)%Z /\
    forall i, (0 <= i < n)%Z ->
      exists z, sample_int L spec n i = Ok z /\
                Struct.le_signed16 (slice (44 + 2 * Z.to_nat i) 2 content) = z.
Proof.
  intros H.
  destruct (generate_wav_file _ _ _ _ _ H)
    as (n & zs & Hn & HF & Hz & Rn & Rr & Hfiles & _).
  exists n, zs, (riff_layout (sample_rate spec) n zs).
  split; [exact Hn|]. split; [rewrite Hfiles; apply lookup_insert_eq|].
  split; [reflexivity|].
  split; [rewrite length_riff_layout, (range_samples_length _ _ _ HF); reflexivity|].
  rewrite !slice_header by lia.
  split; [reflexivity|].
  split; [apply (StructFacts.le_unsigned_roundtrip 4); cbn; lia|].
  split; [reflexivity|]. split; [reflexivity|].
  split; [reflexivity|]. split; [reflexivity|]. split; [reflexivity|].
  split; [apply (StructFacts.le_unsigned_roundtrip 4); cbn; lia|].
  split; [apply (StructFacts.le_unsigned_roundtrip 4); cbn; lia|].
  split; [reflexivity|]. split; [reflexivity|]. split; [reflexivity|].
  split; [apply (StructFacts.le_unsigned_roundtrip 4); cbn; lia|].
  intros i Hi.
  destruct (range_samples_lookup _ n zs i HF Hi) as (z & Hlook & Hs).
  exists z. split; [exact Hs|].
  rewrite (slice_sample _ _ _ _ _ Hlook).
  apply StructFacts.le_signed16_roundtrip.
  rewrite Forall_lookup in Hz. exact (Hz _ _ Hlook).
Qed.

Lemma wav_file_layout_witness :
  let w' := snd (generate_wav RefLibm.libm flat_spec "cue.wav" empty_world) in
  exists n zs content,
    num_samples flat_spec = Ok n /\
    FS.files (fs w') !! "cue.wav" = Some content /\
    content = riff_layout (sample_rate flat_spec) n zs /\
    length content = (44 + 2 * Z.to_nat n)%nat /\
    slice 0 4 content = bytes_of_string "RIFF" /\
    Struct.le_unsigned (slice 4 4 content) = (36 + n * 2)%Z /\
    slice 8 4 content = bytes_of_string "WAVE" /\
    slice 12 4 content = bytes_of_string "fmt " /\
    Struct.le_unsigned (slice 16 4 content) = 16%Z /\
    Struct.le_unsigned (slice 20 2 content) = 1%Z /\
    Struct.le_unsigned (slice 22 2 content) = 1%Z /\
    Struct.le_unsigned (slice 24 4 content) = sample_rate flat_spec /\
    Struct.le_unsigned (slice 28 4 content) = (sample_rate flat_spec * 2)%Z /\
    Struct.le_unsigned (slice 32 2 content) = 2%Z /\
    Struct.le_unsigned (slice 34 2 content) = 16%Z /\
    slice 36 4 content = bytes_of_string "data" /\
    Struct.le_unsigned (slice 40 4 content) = (n * 2)%Z /\
    forall i, (0 <= i < n)%Z ->
      exists z, sample_int RefLibm.libm flat_spec n i = Ok z /\
                Struct.le_signed16 (slice (44 + 2 * Z.to_nat i) 2 content) = z.
Proof.
  apply (wav_file_layout RefLibm.libm flat_spec "cue.wav" empty_world).
  vm_compute. reflexivity.
Defined.

(** C5: every sample integer the loop produces lies in the signed 16-bit
    range, so packing it with the format h succeeds. *)
Theorem samples_fit_int16 L spec n i z :
  sin_bounded L -> pow_unit L ->
  (0 <= i < n)%Z -> (n < 2 ^ 53)%Z ->
  sample_int L spec n i = Ok z ->
  (-32768 <= z <= 32767)%Z /\
  sample_bytes L spec n i = Ok (Struct.le_bytes 2 z).
Proof.
  intros Hsin Hpow Hi Hn Hz.
  pose proof (sample_int_range L spec n i z Hsin Hpow Hi Hn Hz) as Hr.
  split; [lia|]. unfold sample_bytes. rewrite Hz. cbn [mbind result_bind].
  apply StructFacts.pack_h_ok. lia.
Qed.

Lemma samples_fit_int16_witness :
  (-32768 <= -9064 <= 32767)%Z /\
  sample_bytes RefLibm.libm default_spec 11025 100 = Ok (Struct.le_bytes 2 (-9064)).
Proof.
  apply (samples_fit_int16 RefLibm.libm default_spec 11025 100 (-9064)
           ref_sin_bounded ref_pow_unit); [lia|lia|vm_compute; reflexivity].
Defined.

(** C10: the peak amplitude fraction is the constant 0.3 of line 39 and the
    conversion of line 42 truncates, so every sample the loop produces is
    at most floor(0.3 * 32767) = 9830 in magnitude. *)
Theorem samples_within_30_percent L spec n i z :
  sin_bounded L -> pow_unit L ->
  (0 <= i < n)%Z -> (n < 2 ^ 53)%Z ->
  sample_int L spec n i = Ok z ->
  (Z.abs z <= 9830)%Z /\ PyFloat.floor (volume * 32767)%float = Ok 9830%Z.
Proof.
  intros Hsin Hpow Hi Hn Hz.
  pose proof (sample_int_range L spec n i z Hsin Hpow Hi Hn Hz) as Hr.
  split; [lia|]. vm_compute. reflexivity.
Qed.

Lemma samples_within_30_percent_witness :
  (Z.abs 7399 <= 9830)%Z /\ PyFloat.floor (volume * 32767)%float = Ok 9830%Z.
Proof.
  apply (samples_within_30_percent RefLibm.libm default_spec 11025 1000 7399
           ref_sin_bounded ref_pow_unit); [lia|lia|vm_compute; reflexivity].
Defined.

(** C8: the generator is deterministic.  For a fixed specification the
    outcome does not depend on the file name or on what the machine held
    before: two runs end the same way, and when they succeed the two files
    are byte for byte the same. *)
Theorem generate_wav_deterministic L spec f1 f2 w1 w2 :
  f1 ∉ FS.unwritable (fs w1) -> f2 ∉ FS.unwritable (fs w2) ->
  fst (generate_wav L spec f1 w1) = fst (generate_wav L spec f2 w2) /\
  (fst (generate_wav L spec f1 w1) = Ok () ->
   exists content,
     FS.files (fs (snd (generate_wav L spec f1 w1))) !! f1 = Some content /\
     FS.files (fs (snd (generate_wav L spec f2 w2))) !! f2 = Some content).
Proof.
  intros H1 H2.
  destruct (render L spec) as [[[[[n h] c] d] samples]|e] eqn:Hr.
  - rewrite (generate_wav_success _ _ f1 w1 _ _ _ _ _ Hr H1).
    rewrite (generate_wav_success _ _ f2 w2 _ _ _ _ _ Hr H2).
    cbn [fst snd fs FS.files]. split; [reflexivity|]. intros _.
    exists (h ++ c ++ d ++ concat samples). split; apply lookup_insert_eq.
  - rewrite !(generate_wav_render_error _ _ _ _ _ Hr). cbn [fst].
    split; [reflexivity|discriminate].
Qed.

Lemma generate_wav_deterministic_witness :
  fst (generate_wav RefLibm.libm flat_spec "cue.wav" empty_world) =
  fst (generate_wav RefLibm.libm flat_spec "cue.wav" stale_world) /\
  (fst (generate_wav RefLibm.libm flat_spec "cue.wav" empty_world) = Ok () ->
   exists content,
     FS.files (fs (snd (generate_wav RefLibm.libm flat_spec "cue.wav" empty_world)))
       !! "cue.wav" = Some content /\
     FS.files (fs (snd (generate_wav RefLibm.libm flat_spec "cue.wav" stale_world)))
       !! "cue.wav" = Some content).
Proof.
  apply (generate_wav_deterministic RefLibm.libm flat_spec "cue.wav" "cue.wav"
           empty_world stale_world); cbn; apply not_elem_of_empty.
Defined.

(** C4: the sample count is floor(sample_rate * duration) on every valid
    specification; with the defaults it is 11025, and the default run, on
    any libm that meets the assumptions, writes a file of 44 + 22050 = 22094
    bytes whose data chunk announces and holds 22050 bytes. *)
Theorem sample_count_is_floor L spec filename w :
  valid_spec spec -> sin_total L -> pow_unit L ->
  filename ∉ FS.unwritable (fs w) ->
  num_samples spec = floor_sample_count spec /\
  num_samples default_spec = Ok 11025%Z /\
  exists content,
    fst (generate_wav L default_spec filename w) = Ok () /\
    FS.files (fs (snd (generate_wav L default_spec filename w))) !! filename
      = Some content /\
    Z.of_nat (length content) = 22094%Z /\
    Struct.le_unsigned (slice 40 4 content) = 22050%Z /\
    Z.of_nat (length (drop 44 content)) = 22050%Z.
Proof.
  intros [Hd Hr] Hsin Hpow Hw. split; [|split].
  - unfold num_samples, floor_sample_count.
    destruct (of_int (sample_rate spec)) as [r|] eqn:Er; [|reflexivity].
    cbn [mbind result_bind]. apply to_int_floor, mul_sign.
    + apply (of_int_sign (sample_rate spec)); [lia|exact Er].
    + now apply ltb_zero_sign.
  - vm_compute. reflexivity.
  - destruct (generate_wav_total L default_spec filename w 11025 Hsin Hpow
                default_spec_moderate) as (zs & -> & Hlen & _);
      [vm_compute; reflexivity|lia|cbn; lia|exact Hw|].
    exists (riff_layout (sample_rate default_spec) 11025 zs). cbn [fst snd fs FS.files].
    split; [reflexivity|]. split; [apply lookup_insert_eq|].
    split; [rewrite length_riff_layout, Hlen; lia|].
    split; [rewrite slice_header by lia; reflexivity|].
    rewrite length_drop, length_riff_layout, Hlen. lia.
Qed.

Lemma sample_count_is_floor_witness :
  num_samples flat_spec = floor_sample_count flat_spec /\
  num_samples default_spec = Ok 11025%Z /\
  exists content,
    fst (generate_wav RefLibm.libm default_spec "cue.wav" empty_world) = Ok () /\
    FS.files (fs (snd (generate_wav RefLibm.libm default_spec "cue.wav" empty_world)))
      !! "cue.wav" = Some content /\
    Z.of_nat (length content) = 22094%Z /\
    Struct.le_unsigned (slice 40 4 content) = 22050%Z /\
    Z.of_nat (length (drop 44 content)) = 22050%Z.
Proof.
  apply (sample_count_is_floor RefLibm.libm flat_spec "cue.wav" empty_world).
  - split; [reflexivity|cbn; lia].
  - exact ref_sin_total.
  - exact ref_pow_unit.
  - cbn. apply not_elem_of_empty.
Defined.

(** C3, as the specification states it, fails: nothing is validated.  With
    a duration of zero the defaults give a sample count of zero and the run
    succeeds, leaving a 44-byte file that holds only the header. *)
Lemma zero_duration_writes_a_file :
  fst (generate_wav RefLibm.libm zero_duration_spec "cue.wav" empty_world) = Ok () /\
  FS.files (fs (snd (generate_wav RefLibm.libm zero_duration_spec "cue.wav" empty_world)))
    !! "cue.wav" = Some (riff_header 44100 0) /\
  length (riff_header 44100 0) = 44%nat.
Proof. vm_compute. repeat split. Qed.

(** C3 (amended): the generator validates nothing.  A duration of zero,
    with a sample rate between 0 and 2^31 - 1, gives a successful run that
    writes the 44-byte header alone.  A negative sample rate, or a negative
    sample count, makes the run fail while the header is packed: before any
    sample is computed, with no file written and nothing printed. *)
Theorem arguments_are_not_validated L spec filename w :
  filename ∉ FS.unwritable (fs w) ->
  (duration spec = 0%float -> (0 <= sample_rate spec <= 2147483647)%Z ->
   fst (generate_wav L spec filename w) = Ok () /\
   FS.files (fs (snd (generate_wav L spec filename w))) !! filename
     = Some (riff_header (sample_rate spec) 0)) /\
  ((sample_rate spec < 0)%Z ->
   exists e, generate_wav L spec filename w = (Raise e, w) /\
             (is_ok (num_samples spec) = true -> e = StructError)) /\
  (forall n, num_samples spec = Ok n -> (n < 0)%Z ->
   generate_wav L spec filename w = (Raise StructError, w)).
Proof.
  intros Hw. split; [|split].
  - intros Hd Hr.
    pose proof (num_samples_zero_duration spec Hd ltac:(lia)) as Hn.
    destruct (fmt_chunk spec) as [c|] eqn:Ec;
      [|pose proof (fmt_chunk_ok spec Hr) as H; rewrite Ec in H; discriminate].
    pose proof (render_intro L spec 0%Z _ c _ [] Hn (wav_header_ok 0 ltac:(lia)) Ec
                  (data_header_ok 0 ltac:(lia)) eq_refl) as Hrender.
    rewrite (generate_wav_success _ _ _ _ _ _ _ _ _ Hrender Hw).
    cbn [fst snd fs FS.files]. split; [reflexivity|].
    rewrite lookup_insert_eq. f_equal.
    apply fmt_chunk_inv in Ec as [_ ->].
    unfold riff_header, bytes_of_string. cbn [concat]. rewrite app_nil_r.
    now rewrite <- !app_assoc.
  - intros Hr. destruct (num_samples spec) as [n|e] eqn:Hn.
    + exists StructError. split; [|reflexivity].
      apply generate_wav_render_error, (render_struct_error L spec n Hn). lia.
    + exists e. split; [|discriminate].
      apply generate_wav_render_error. unfold render. now rewrite Hn.
  - intros n Hn Hneg.
    apply generate_wav_render_error, (render_struct_error L spec n Hn). lia.
Qed.

Lemma arguments_are_not_validated_witness :
  (duration zero_duration_spec = 0%float ->
   (0 <= sample_rate zero_duration_spec <= 2147483647)%Z ->
   fst (generate_wav RefLibm.libm zero_duration_spec "cue.wav" empty_world) = Ok () /\
   FS.files (fs (snd (generate_wav RefLibm.libm zero_duration_spec "cue.wav" empty_world)))
     !! "cue.wav" = Some (riff_header (sample_rate zero_duration_spec) 0)) /\
  ((sample_rate zero_duration_spec < 0)%Z ->
   exists e, generate_wav RefLibm.libm zero_duration_spec "cue.wav" empty_world
             = (Raise e, empty_world) /\
             (is_ok (num_samples zero_duration_spec) = true -> e = StructError)) /\
  (forall n, num_samples zero_duration_spec = Ok n -> (n < 0)%Z ->
   generate_wav RefLibm.libm zero_duration_spec "cue.wav" empty_world
   = (Raise StructError, empty_world)).
Proof.
  apply (arguments_are_not_validated RefLibm.libm zero_duration_spec "cue.wav" empty_world).
  cbn. apply not_elem_of_empty.
Defined.

(** C9: the envelope at both ends.  The amplitude of line 39 is the sine
    times the envelope times 0.3.  At index 0 the envelope is exactly 1.0,
    so the amplitude is the sine scaled by 0.3 alone.  Towards the end the
    amplitude goes to 0: once the remaining [n - i] samples are at most
    the fraction [2^-k] of the count, the amplitude is at most
    [0.3 * 4^-k] in magnitude and the stored sample at most [9830 / 4^k].
    The platform's [pow] is assumed to return 1 for the square of 1 and
    to keep the square of a float of [0, 2^-k] within [0, 4^-k]. *)
Theorem envelope_boundary L spec n :
  pow_one L -> pow_dyadic L -> sin_bounded L ->
  (0 < n < 2 ^ 53)%Z ->
  (forall i, amplitude L spec n i =
     (s ← Loop.sample L spec n i; f ← Loop.fade_out L n i;
      Ok (s * f * volume)%float)) /\
  Loop.fade_out L n 0 = Ok 1%float /\
  amplitude L spec n 0 = (s ← Loop.sample L spec n 0; Ok (s * volume)%float) /\
  forall k i, (0 <= k)%Z -> (0 <= i < n)%Z -> ((n - i) * 2 ^ k <= n)%Z ->
    (forall a, amplitude L spec n i = Ok a -> is_nan a = false ->
       (Qabs (F2Q a) <= F2Q volume * pow2 (- (2 * k)))%Q) /\
    (forall z, sample_int L spec n i = Ok z -> (Z.abs z * 4 ^ k <= 9830)%Z).
Proof.
  intros H1 Hd Hs Hn.
  split; [intros i; apply amplitude_factors|].
  split; [now apply fade_out_start|].
  split; [now apply amplitude_start|].
  intros k i Hk Hi Htail. apply tail_decay; try assumption. lia.
Qed.

Lemma envelope_boundary_witness :
  (forall i, amplitude RefLibm.libm flat_spec 2 i =
     (s ← Loop.sample RefLibm.libm flat_spec 2 i;
      f ← Loop.fade_out RefLibm.libm 2 i;
      Ok (s * f * volume)%float)) /\
  Loop.fade_out RefLibm.libm 2 0 = Ok 1%float /\
  amplitude RefLibm.libm flat_spec 2 0 =
    (s ← Loop.sample RefLibm.libm flat_spec 2 0; Ok (s * volume)%float) /\
  forall k i, (0 <= k)%Z -> (0 <= i < 2)%Z -> ((2 - i) * 2 ^ k <= 2)%Z ->
    (forall a, amplitude RefLibm.libm flat_spec 2 i = Ok a -> is_nan a = false ->
       (Qabs (F2Q a) <= F2Q volume * pow2 (- (2 * k)))%Q) /\
    (forall z, sample_int RefLibm.libm flat_spec 2 i = Ok z ->
       (Z.abs z * 4 ^ k <= 9830)%Z).
Proof.
  apply (envelope_boundary RefLibm.libm flat_spec 2
           ref_pow_one ref_pow_dyadic ref_sin_bounded).
  lia.
Defined.

(** * Further properties of the tone generator *)

(** X1: total correctness of the generator.  On any specification with
    finite frequencies of at most 2^900 Hz in magnitude, a sample count and
    a sample rate that fit the header fields, and a path that can be opened,
    every line of [generate_wav] succeeds: the run returns normally and
    leaves a file of 44 + 2 * num_samples bytes in the canonical layout.
    The platform's sine is assumed to map finite arguments into [-1, 1],
    its square to keep [0, 1] in [0, 1]. *)
Theorem generate_wav_completes L spec filename w n :
  sin_total L -> pow_unit L -> moderate_frequencies spec ->
  num_samples spec = Ok n ->
  (0 <= n <= 2147483629)%Z -> (0 <= sample_rate spec <= 2147483647)%Z ->
  filename ∉ FS.unwritable (fs w) ->
  fst (generate_wav L spec filename w) = Ok () /\
  exists zs,
    FS.files (fs (snd (generate_wav L spec filename w))) !! filename
      = Some (riff_layout (sample_rate spec) n zs) /\
    length zs = Z.to_nat n /\
    length (riff_layout (sample_rate spec) n zs) = (44 + 2 * Z.to_nat n)%nat.
Proof.
  intros Hsin Hpow Hm Hn Rn Rr Hw.
  destruct (generate_wav_total L spec filename w n Hsin Hpow Hm Hn Rn Rr Hw)
    as (zs & -> & Hlen & _).
  cbn [fst snd fs FS.files]. split; [reflexivity|]. exists zs.
  split; [apply lookup_insert_eq|]. split; [exact Hlen|].
  now rewrite length_riff_layout, Hlen.
Qed.

Lemma generate_wav_completes_witness :
  fst (generate_wav RefLibm.libm flat_spec "cue.wav" empty_world) = Ok () /\
  exists zs,
    FS.files (fs (snd (generate_wav RefLibm.libm flat_spec "cue.wav" empty_world)))
      !! "cue.wav" = Some (riff_layout (sample_rate flat_spec) 2 zs) /\
    length zs = Z.to_nat 2 /\
    length (riff_layout (sample_rate flat_spec) 2 zs) = (44 + 2 * Z.to_nat 2)%nat.
Proof.
  apply (generate_wav_completes RefLibm.libm flat_spec "cue.wav" empty_world 2
           ref_sin_total ref_pow_unit flat_spec_moderate).
  - vm_compute. reflexivity.
  - lia.
  - cbn. lia.
  - cbn. apply not_elem_of_empty.
Defined.

(** X2: a successful run prints exactly five lines after whatever was on
    the console: the file name, the duration in milliseconds (the float
    [duration * 1000]), the two frequencies, the sample rate and the sample
    count, in that order. *)
Theorem success_prints_summary L spec filename w w' :
  generate_wav L spec filename w = (Ok (), w') ->
  exists n,
    num_samples spec = Ok n /\
    stdout w' =
    stdout w ++ [Generated filename; DurationMs (duration spec * 1000)%float;
                 Frequency (start_freq spec) (end_freq spec);
                 SampleRate (sample_rate spec); Samples n].
Proof.
  intros H.
  destruct (generate_wav_file _ _ _ _ _ H) as (n & zs & Hn & _ & _ & _ & _ & _ & _ & Hs).
  exists n. split; [exact Hn|exact Hs].
Qed.

Lemma success_prints_summary_witness :
  let w' := snd (generate_wav RefLibm.libm flat_spec "cue.wav" empty_world) in
  exists n,
    num_samples flat_spec = Ok n /\
    stdout w' =
    stdout empty_world ++
      [Generated "cue.wav"; DurationMs (duration flat_spec * 1000)%float;
       Frequency (start_freq flat_spec) (end_freq flat_spec);
       SampleRate (sample_rate flat_spec); Samples n].
Proof.
  apply (success_prints_summary RefLibm.libm flat_spec "cue.wav" empty_world).
  vm_compute. reflexivity.
Defined.



(** X4: the generator touches one path only.  Whatever the outcome, every
    file other than the one named keeps its contents (or its absence). *)
Theorem other_files_untouched L spec filename w p :
  p <> filename ->
  FS.files (fs (snd (generate_wav L spec filename w))) !! p = FS.files (fs w) !! p /\
  FS.unwritable (fs (snd (generate_wav L spec filename w))) = FS.unwritable (fs w).
Proof. apply generate_wav_frame. Qed.

Lemma other_files_untouched_witness :
  FS.files (fs (snd (generate_wav RefLibm.libm flat_spec "other.wav" stale_world)))
    !! "cue.wav" = FS.files (fs stale_world) !! "cue.wav" /\
  FS.unwritable (fs (snd (generate_wav RefLibm.libm flat_spec "other.wav" stale_world)))
    = FS.unwritable (fs stale_world).
Proof.
  apply (other_files_untouched RefLibm.libm flat_spec "other.wav" stale_world "cue.wav").
  discriminate.
Defined.

(** X5: the capacity of the header.  A sample count above 2147483629 does
    not fit the 32-bit RIFF size field, and a sample rate above 2147483647
    does not fit the byte-rate field: [struct.pack] raises, before any
    sample is computed, and nothing is written or printed. *)
Theorem header_capacity L spec filename w n :
  num_samples spec = Ok n ->
  (2147483629 < n \/ 2147483647 < sample_rate spec)%Z ->
  generate_wav L spec filename w = (Raise StructError, w).
Proof.
  intros Hn Hbig. apply generate_wav_render_error, (render_struct_error L spec n Hn). lia.
Qed.

Lemma header_capacity_witness :
  generate_wav RefLibm.libm oversize_rate_spec "cue.wav" empty_world
  = (Raise StructError, empty_world).
Proof.
  apply (header_capacity RefLibm.libm oversize_rate_spec "cue.wav" empty_world 0).
  - vm_compute. reflexivity.
  - right. cbn. lia.
Defined.

(** X6: the tone ends in silence.  Once fewer than 1/128 of the samples
    remain, the envelope is at most 4^-7, the product of line 42 is below 1
    in magnitude, and the truncation stores exactly 0: the two bytes
    appended are both zero. *)
Theorem tail_is_silent L spec n i z :
  sin_bounded L -> pow_dyadic L ->
  (0 <= i < n)%Z -> (n < 2 ^ 53)%Z -> ((n - i) * 128 <= n)%Z ->
  sample_int L spec n i = Ok z ->
  z = 0%Z /\ sample_bytes L spec n i = Ok [x00; x00].
Proof.
  intros Hsin Hpow Hi Hn Htail Hz.
  pose proof (sample_int_tail L spec n i z Hsin Hpow Hi Hn Htail Hz) as ->.
  split; [reflexivity|]. unfold sample_bytes. rewrite Hz. reflexivity.
Qed.

Lemma tail_is_silent_witness :
  0%Z = 0%Z /\ sample_bytes RefLibm.libm default_spec 11025 11000 = Ok [x00; x00].
Proof.
  apply (tail_is_silent RefLibm.libm default_spec 11025 11000 0
           ref_sin_bounded ref_pow_dyadic); [lia|lia|lia|vm_compute; reflexivity].
Defined.

(** X7: the tone starts on a zero crossing.  At index 0 the time is 0.0,
    the phase of line 33 is a zero whatever the (moderate) frequencies, and
    the sample stored is 0.  The platform's sine is assumed to map a zero to
    a zero and its [pow] to give 1 for the square of 1. *)
Theorem first_sample_is_zero L spec n :
  sin_zero L -> pow_one L -> moderate_frequencies spec ->
  (0 < n < 2 ^ 53)%Z -> (0 < sample_rate spec < 2 ^ 53)%Z ->
  sample_int L spec n 0 = Ok 0%Z /\ sample_bytes L spec n 0 = Ok [x00; x00].
Proof.
  intros Hsin Hpow Hm Hn Hr.
  pose proof (sample_int_start L spec n Hsin Hpow Hm Hn Hr) as H.
  split; [exact H|]. unfold sample_bytes. rewrite H. reflexivity.
Qed.

Lemma first_sample_is_zero_witness :
  sample_int RefLibm.libm default_spec 11025 0 = Ok 0%Z /\
  sample_bytes RefLibm.libm default_spec 11025 0 = Ok [x00; x00].
Proof.
  apply (first_sample_is_zero RefLibm.libm default_spec 11025
           ref_sin_zero ref_pow_one default_spec_moderate); [lia|cbn; lia].
Defined.

(** X8: the script.  With no argument the output is voice-stop-cue.wav,
    otherwise the first argument (further arguments are ignored).  When
    that path can be opened the script writes the 22094-byte default cue
    there and makes eight [print] calls: the five of the generator, with
    11025 samples, and the three notes of lines 65-67, the last naming the
    output again. *)
Theorem main_writes_the_cue L argv w :
  sin_total L -> pow_unit L ->
  chosen_output argv ∉ FS.unwritable (fs w) ->
  exists content,
    main L argv w =
    (Ok (),
     {| fs := {| FS.files := <[chosen_output argv := content]> (FS.files (fs w));
                 FS.unwritable := FS.unwritable (fs w) |};
        stdout := stdout w ++ summary default_spec (chosen_output argv) 11025
                  ++ [NoteWav; NoteConvert; NoteFfmpeg (chosen_output argv)] |}) /\
    Z.of_nat (length content) = 22094%Z.
Proof.
  intros Hsin Hpow Hw. unfold main. fold (chosen_output argv).
  destruct (generate_wav_total L default_spec (chosen_output argv) w 11025 Hsin Hpow
              default_spec_moderate) as (zs & -> & Hlen & _);
    [vm_compute; reflexivity|lia|cbn; lia|exact Hw|].
  exists (riff_layout (sample_rate default_spec) 11025 zs).
  split; [|rewrite length_riff_layout, Hlen; lia].
  unfold print. cbn [fs stdout]. now rewrite <- !app_assoc.
Qed.

Lemma main_writes_the_cue_witness :
  exists content,
    main RefLibm.libm ["generate_voice_stop_cue.py"; "out.wav"; "ignored"] empty_world =
    (Ok (),
     {| fs := {| FS.files := <["out.wav" := content]> (FS.files (fs empty_world));
                 FS.unwritable := FS.unwritable (fs empty_world) |};
        stdout := stdout empty_world ++ summary default_spec "out.wav" 11025
                  ++ [NoteWav; NoteConvert; NoteFfmpeg "out.wav"] |}) /\
    Z.of_nat (length content) = 22094%Z.
Proof.
  apply (main_writes_the_cue RefLibm.libm
           ["generate_voice_stop_cue.py"; "out.wav"; "ignored"] empty_world
           ref_sin_total ref_pow_unit).
  cbn. apply not_elem_of_empty.
Defined.

(** X9: when [open] refuses the output path the script stops there: the
    [OSError] propagates, the notes of lines 65-67 are not printed and no
    file is touched. *)
Theorem main_stops_on_failure L argv w :
  sin_total L -> pow_unit L ->
  chosen_output argv ∈ FS.unwritable (fs w) ->
  main L argv w = (Raise OSError, w).
Proof.
  intros Hsin Hpow Hw. unfold main. fold (chosen_output argv).
  destruct (render_total L default_spec 11025 Hsin Hpow default_spec_moderate)
    as (h & c & d & samples & Hr); [vm_compute; reflexivity|lia|cbn; lia|].
  now rewrite (generate_wav_unwritable L default_spec _ w _ Hr Hw).
Qed.

Lemma main_stops_on_failure_witness :
  main RefLibm.libm ["generate_voice_stop_cue.py"] read_only_world
  = (Raise OSError, read_only_world).
Proof.
  apply (main_stops_on_failure RefLibm.libm ["generate_voice_stop_cue.py"]
           read_only_world ref_sin_total ref_pow_unit).
  cbn. apply elem_of_singleton. reflexivity.
Defined.

(** X10: a sample rate of zero divides nothing.  With a finite duration the
    sample count is 0, the loop body (and its two divisions by the rate and
    the count) never runs, and the run succeeds with a 44-byte file that
    announces a rate of 0. *)
Theorem zero_rate_is_accepted L spec filename w :
  sample_rate spec = 0%Z -> finite (duration spec) = true ->
  filename ∉ FS.unwritable (fs w) ->
  generate_wav L spec filename w =
  (Ok (),
   {| fs := {| FS.files := <[filename := riff_header 0 0]> (FS.files (fs w));
               FS.unwritable := FS.unwritable (fs w) |};
      stdout := stdout w ++ summary spec filename 0 |}) /\
  length (riff_header 0 0) = 44%nat.
Proof.
  intros Hr Hd Hw. split; [|reflexivity]. rewrite <- Hr at 1.
  apply header_only; [now apply num_samples_zero_rate_finite|lia|exact Hw].
Qed.

Lemma zero_rate_is_accepted_witness :
  generate_wav RefLibm.libm zero_rate_spec "cue.wav" empty_world =
  (Ok (),
   {| fs := {| FS.files := <["cue.wav" := riff_header 0 0]> (FS.files (fs empty_world));
               FS.unwritable := FS.unwritable (fs empty_world) |};
      stdout := stdout empty_world ++ summary zero_rate_spec "cue.wav" 0 |}) /\
  length (riff_header 0 0) = 44%nat.
Proof.
  apply (zero_rate_is_accepted RefLibm.libm zero_rate_spec "cue.wav" empty_world).
  - reflexivity.
  - reflexivity.
  - cbn. apply not_elem_of_empty.
Defined.

(** X11: a duration that is not finite.  Line 15 raises before anything
    else happens: [ValueError] when the duration is a NaN, [OverflowError]
    when it is an infinity, except that a rate of 0 times an infinity is a
    NaN and gives [ValueError] again.  Nothing is written or printed. *)
Theorem non_finite_duration_raises L spec filename w :
  (0 <= sample_rate spec < 2 ^ 53)%Z ->
  (is_nan (duration spec) = true ->
   generate_wav L spec filename w = (Raise ValueError, w)) /\
  (is_infinity (duration spec) = true ->
   generate_wav L spec filename w =
   (Raise (if (sample_rate spec =? 0)%Z then ValueError else OverflowError), w)).
Proof.
  intros Hr. split; intros Hd; apply num_samples_error.
  - destruct (of_int_exact (sample_rate spec) Hr) as (r & Er & _).
    exact (num_samples_nan spec r Er Hd).
  - now apply num_samples_infinite.
Qed.

Lemma non_finite_duration_raises_witness :
  (is_nan (duration nan_duration_spec) = true ->
   generate_wav RefLibm.libm nan_duration_spec "cue.wav" empty_world
   = (Raise ValueError, empty_world)) /\
  (is_infinity (duration nan_duration_spec) = true ->
   generate_wav RefLibm.libm nan_duration_spec "cue.wav" empty_world =
   (Raise (if (sample_rate nan_duration_spec =? 0)%Z then ValueError else OverflowError),
    empty_world)).
Proof.
  apply (non_finite_duration_raises RefLibm.libm nan_duration_spec "cue.wav" empty_world).
  cbn. lia.
Defined.


(** * The icon rasterizer *)

Module IconFacts.

Import IconRasterizer.

Local Open Scope string_scope.

Lemma append_assoc_string a b c : (a +:+ b) +:+ c = a +:+ (b +:+ c).
Proof.
  induction a as [|x a IH]; [reflexivity|].
  change (String x ((a +:+ b) +:+ c) = String x (a +:+ (b +:+ c))). now rewrite IH.
Qed.

Lemma join_relative dir c rest :
  OsPath.is_sep c = false ->
  OsPath.join dir [String c rest] = dir_prefix dir +:+ String c rest.
Proof.
  intros Hc. unfold OsPath.join, dir_prefix. cbn [fold_left OsPath.join2].
  rewrite Hc. destruct (bool_decide (dir = "") || OsPath.ends_with_sep dir);
    [reflexivity|]. now rewrite append_assoc_string.
Qed.

Lemma append_inj_l p a b : p +:+ a = p +:+ b -> a = b.
Proof. apply (inj (String.append p)). Qed.

Lemma svg_file_eq env size :
  size ∈ sizes ->
  svg_file env size = dir_prefix (icons_dir env) +:+ "icon-" +:+ pretty size +:+ ".svg".
Proof.
  intros H. unfold svg_file, sizes in *.
  repeat (apply elem_of_cons in H as [->|H]); [..|now apply elem_of_nil in H];
    apply join_relative; reflexivity.
Qed.

Lemma png_file_eq env size :
  size ∈ sizes ->
  png_file env size = dir_prefix (icons_dir env) +:+ "icon-" +:+ pretty size +:+ ".png".
Proof.
  intros H. unfold png_file, sizes in *.
  repeat (apply elem_of_cons in H as [->|H]); [..|now apply elem_of_nil in H];
    apply join_relative; reflexivity.
Qed.

(** No PNG the script writes is one of the sources it reads. *)
Lemma png_is_not_svg env s s' :
  s ∈ sizes -> s' ∈ sizes -> png_file env s <> svg_file env s'.
Proof.
  intros Hs Hs'. rewrite (png_file_eq env s Hs), (svg_file_eq env s' Hs').
  intros H. apply append_inj_l in H. unfold sizes in *.
  repeat (apply elem_of_cons in Hs as [->|Hs]); [..|now apply elem_of_nil in Hs];
    repeat (apply elem_of_cons in Hs' as [->|Hs']); try (now apply elem_of_nil in Hs');
    vm_compute in H; discriminate.
Qed.

Lemma png_files_differ env s s' :
  s ∈ sizes -> s' ∈ sizes -> s <> s' -> png_file env s <> png_file env s'.
Proof.
  intros Hs Hs' Hne. rewrite (png_file_eq env s Hs), (png_file_eq env s' Hs').
  intros H. apply append_inj_l in H. unfold sizes in *.
  repeat (apply elem_of_cons in Hs as [->|Hs]); [..|now apply elem_of_nil in Hs];
    repeat (apply elem_of_cons in Hs' as [->|Hs']); try (now apply elem_of_nil in Hs');
    try (vm_compute in H; discriminate); now contradiction Hne.
Qed.

Lemma exists_spec path f : FS.exists_ path f = true <-> is_Some (FS.files f !! path).
Proof. unfold FS.exists_. apply bool_decide_eq_true. Qed.

(** A missing source: one line, no call to the rasterizer, nothing
    written. *)
Lemma convert_missing env c size w :
  FS.files (fs w) !! svg_file env size = None ->
  convert env c size w =
  {| fs := fs w;
     stdout := (stdout w ++ [NotFound (svg_file env size)])%list;
     calls := (calls w ++ [Probe (svg_file env size)])%list |}.
Proof.
  intros H. unfold convert.
  replace (FS.exists_ (svg_file env size) (fs w)) with false; [reflexivity|].
  symmetry. apply not_true_is_false. rewrite exists_spec, H. now intros [? ?].
Qed.

(** A source that exists: the rasterizer is called once and its outcome is
    reported, whichever it is. *)
Lemma convert_present env c size w :
  is_Some (FS.files (fs w) !! svg_file env size) ->
  convert env c size w =
  let out := svg2png c (svg_file env size) (png_file env size) size size (fs w) in
  {| fs := snd out;
     stdout := (stdout w ++
                [match fst out with
                 | Ok _ => GeneratedIcon size
                 | Raise e => ErrorConverting size e
                 end])%list;
     calls := (calls w ++ [Probe (svg_file env size);
                           Render (svg_file env size) (png_file env size) size size])%list |}.
Proof.
  intros H. unfold convert. apply exists_spec in H. rewrite H. cbn [negb].
  destruct (svg2png c _ _ _ _ _) as [[u|e] f]; cbn [fst snd]; unfold print; cbn;
    now rewrite <- app_assoc.
Qed.

(** Whatever happens for one size is confined to it: exactly one line that
    reports on that size, one probe, and the loop goes on. *)
Lemma convert_local env c size w :
  exists line,
    stdout (convert env c size w) = (stdout w ++ [line])%list /\
    reports env size line /\
    probes (calls (convert env c size w)) = (probes (calls w) ++ [svg_file env size])%list.
Proof.
  assert (forall cs p, probes (cs ++ [Probe p]) = probes cs ++ [p])%list as Hp.
  { intros cs p. induction cs as [|[q|? ? ? ?] cs IH]; cbn; now rewrite ?IH. }
  assert (forall cs p a b x y, probes (cs ++ [Probe p; Render a b x y]) = probes cs ++ [p])%list
    as Hr.
  { intros cs p a b x y. induction cs as [|[q|? ? ? ?] cs IH]; cbn; now rewrite ?IH. }
  destruct (FS.files (fs w) !! svg_file env size) as [content|] eqn:E.
  - rewrite (convert_present env c size w) by (rewrite E; eauto). cbn [stdout calls].
    eexists. split; [reflexivity|]. split; [|apply Hr].
    destruct (fst _) as [u|e]; unfold reports; eauto.
  - rewrite (convert_missing env c size w E). cbn [stdout calls].
    eexists. split; [reflexivity|]. split; [|apply Hp]. unfold reports. auto.
Qed.


Lemma probes_app cs cs' : probes (cs ++ cs') = (probes cs ++ probes cs')%list.
Proof. induction cs as [|[q|? ? ? ?] cs IH]; cbn; now rewrite ?IH. Qed.

Lemma convert_all_local env c todo : forall w,
  exists lines,
    stdout (convert_all env c todo w) = (stdout w ++ lines)%list /\
    Forall2 (reports env) todo lines /\
    probes (calls (convert_all env c todo w))
      = (probes (calls w) ++ map (svg_file env) todo)%list.
Proof.
  induction todo as [|size rest IH]; intros w; cbn [convert_all map].
  - exists []. rewrite !app_nil_r. repeat split. constructor.
  - destruct (convert_local env c size w) as (line & Hs & Hr & Hp).
    destruct (IH (convert env c size w)) as (lines & Hs' & Hr' & Hp').
    exists (line :: lines). rewrite Hs', Hs, Hp', Hp, <- !app_assoc.
    repeat split. now constructor.
Qed.

Lemma convert_rasterized env c size w :
  rasterizes c -> is_Some (FS.files (fs w) !! svg_file env size) ->
  exists png,
    convert env c size w =
    {| fs := {| FS.files := <[png_file env size := png]> (FS.files (fs w));
                FS.unwritable := FS.unwritable (fs w) |};
       stdout := (stdout w ++ [GeneratedIcon size])%list;
       calls := (calls w ++ [Probe (svg_file env size);
                             Render (svg_file env size) (png_file env size) size size])%list |}.
Proof.
  intros Hc Hs. destruct (Hc (svg_file env size) (png_file env size) size size (fs w) Hs)
    as (png & E).
  exists png. rewrite (convert_present env c size w Hs), E. reflexivity.
Qed.


Lemma stub_rasterizes : rasterizes stub_cairosvg.
Proof.
  intros url write_to width height f H. cbn [svg2png stub_cairosvg].
  apply exists_spec in H. rewrite H. eauto.
Qed.


(** ** Where the script looks for its icons *)

Lemma append_cons c a b : String c a +:+ b = String c (a +:+ b).
Proof. reflexivity. Qed.

Lemma append_nil_l b : "" +:+ b = b.
Proof. reflexivity. Qed.

Lemma through_last_sep_none s :
  OsPath.has_sep s = false -> OsPath.through_last_sep s = "".
Proof.
  destruct s as [|c s]; [reflexivity|]. cbn [OsPath.has_sep OsPath.through_last_sep].
  now intros ->.
Qed.

Lemma has_sep_app_sep d name : OsPath.has_sep (d +:+ String "/" name) = true.
Proof.
  induction d as [|c d IH].
  - reflexivity.
  - rewrite (append_cons c d). cbn [OsPath.has_sep]. rewrite IH. apply orb_true_r.
Qed.

Lemma through_last_sep_app d name :
  OsPath.has_sep name = false ->
  OsPath.through_last_sep (d +:+ String "/" name) = d +:+ "/".
Proof.
  intros Hn. induction d as [|c d IH].
  - rewrite !append_nil_l.
    cbn [OsPath.through_last_sep]. change (OsPath.is_sep "/") with true.
    cbn [orb]. now rewrite (through_last_sep_none name Hn).
  - rewrite !(append_cons c d). cbn [OsPath.through_last_sep].
    rewrite has_sep_app_sep, orb_true_r. now rewrite IH.
Qed.

Lemma all_sep_app_sep d :
  d <> "" -> OsPath.ends_with_sep d = false -> OsPath.all_sep (d +:+ "/") = false.
Proof.
  induction d as [|c d IH]; [congruence|]. intros _ He.
  rewrite append_cons. cbn [OsPath.all_sep].
  destruct d as [|c' d].
  - cbn [OsPath.ends_with_sep] in He. now rewrite He.
  - rewrite IH; [apply andb_false_r|discriminate|exact He].
Qed.

Lemma rstrip_sep_app_sep d :
  d <> "" -> OsPath.ends_with_sep d = false -> OsPath.rstrip_sep (d +:+ "/") = d.
Proof.
  induction d as [|c d IH]; [congruence|]. intros _ He.
  pose proof (all_sep_app_sep (String c d) ltac:(discriminate) He) as Ha.
  rewrite append_cons in *. cbn [OsPath.rstrip_sep]. rewrite Ha.
  destruct d as [|c' d]; [reflexivity|].
  rewrite IH; [reflexivity|discriminate|exact He].
Qed.

(** [os.path.dirname] of a path whose last component has a directory in
    front of it, and of a bare file name. *)
Lemma dirname_app d name :
  d <> "" -> OsPath.ends_with_sep d = false -> OsPath.has_sep name = false ->
  OsPath.dirname (d +:+ "/" +:+ name) = d.
Proof.
  intros Hd He Hn. unfold OsPath.dirname.
  change ("/" +:+ name) with (String "/" name).
  rewrite (through_last_sep_app d name Hn), (all_sep_app_sep d Hd He).
  now apply rstrip_sep_app_sep.
Qed.

Lemma dirname_bare name : OsPath.has_sep name = false -> OsPath.dirname name = "".
Proof.
  intros Hn. unfold OsPath.dirname. now rewrite (through_last_sep_none name Hn).
Qed.

Lemma ends_with_sep_app a c b :
  OsPath.ends_with_sep (a +:+ String c b) = OsPath.ends_with_sep (String c b).
Proof.
  induction a as [|x a IH]; [reflexivity|].
  rewrite append_cons. cbn [OsPath.ends_with_sep].
  destruct (a +:+ String c b) as [|y r] eqn:E.
  - destruct a; discriminate.
  - exact IH.
Qed.

Lemma app_cons_not_empty a c b : a +:+ String c b <> "".
Proof. destruct a; discriminate. Qed.

Lemma join2_relative path c b :
  OsPath.is_sep c = false ->
  OsPath.join2 path (String c b) = dir_prefix path +:+ String c b.
Proof.
  intros Hc. unfold OsPath.join2, dir_prefix. rewrite Hc.
  destruct (bool_decide (path = "") || OsPath.ends_with_sep path); [reflexivity|].
  now rewrite append_assoc_string.
Qed.

Lemma dir_prefix_open a c b :
  OsPath.ends_with_sep (String c b) = false ->
  dir_prefix (a +:+ String c b) = a +:+ String c b +:+ "/".
Proof.
  intros He. unfold dir_prefix. rewrite ends_with_sep_app, He.
  rewrite (bool_decide_eq_false_2 _ (app_cons_not_empty a c b)).
  cbn [orb]. now rewrite append_assoc_string.
Qed.

Lemma icons_dir_eq env :
  icons_dir env = dir_prefix (OsPath.dirname (script_file env)) +:+ "../public/icons".
Proof.
  unfold icons_dir, OsPath.join. cbn [fold_left].
  set (p := dir_prefix (OsPath.dirname (script_file env))).
  rewrite (join2_relative _ "." "." eq_refl). fold p.
  rewrite (join2_relative (p +:+ "..") "p" "ublic" eq_refl).
  rewrite (dir_prefix_open p "." "." eq_refl), append_assoc_string.
  change ((".." +:+ "/") +:+ "public") with "../public".
  rewrite (join2_relative (p +:+ "../public") "i" "cons" eq_refl).
  rewrite (dir_prefix_open p "." "./public" eq_refl), append_assoc_string.
  reflexivity.
Qed.

Lemma icons_prefix_eq env :
  dir_prefix (icons_dir env)
  = dir_prefix (OsPath.dirname (script_file env)) +:+ "../public/icons/".
Proof.
  rewrite icons_dir_eq.
  now rewrite (dir_prefix_open _ "." "./public/icons" eq_refl).
Qed.

Lemma svg_files_differ env s s' :
  s ∈ sizes -> s' ∈ sizes -> s <> s' -> svg_file env s <> svg_file env s'.
Proof.
  intros Hs Hs' Hne. rewrite (svg_file_eq env s Hs), (svg_file_eq env s' Hs').
  intros H. apply append_inj_l in H. unfold sizes in *.
  repeat (apply elem_of_cons in Hs as [->|Hs]); [..|now apply elem_of_nil in Hs];
    repeat (apply elem_of_cons in Hs' as [->|Hs']); try (now apply elem_of_nil in Hs');
    try (vm_compute in H; discriminate); now contradiction Hne.
Qed.

(** ** The loop under a contract *)

Lemma NoDup_sizes : NoDup sizes.
Proof.
  unfold sizes.
  repeat (apply NoDup_cons; split; [rewrite ?elem_of_cons, elem_of_nil; lia|]).
  apply NoDup_nil_2.
Qed.

Lemma Forall_sizes : Forall (fun s => s ∈ sizes) sizes.
Proof. apply Forall_forall. auto. Qed.

Lemma outcome_frame env f f' size :
  FS.files f' !! svg_file env size = FS.files f !! svg_file env size ->
  outcome env f' size = outcome env f size.
Proof. unfold outcome, FS.exists_. now intros ->. Qed.

Lemma failed_outcome_frame env e f f' size :
  FS.files f' !! svg_file env size = FS.files f !! svg_file env size ->
  failed_outcome env e f' size = failed_outcome env e f size.
Proof. unfold failed_outcome, FS.exists_. now intros ->. Qed.

Lemma exists_false path f : FS.exists_ path f = false <-> FS.files f !! path = None.
Proof.
  unfold FS.exists_. rewrite bool_decide_eq_false, <- eq_None_not_Some. reflexivity.
Qed.

(** One turn of the loop when the rasterizer honours its contract. *)
Lemma convert_contract env c size w :
  rasterizes c -> size ∈ sizes ->
  let w1 := convert env c size w in
  stdout w1 = (stdout w ++ [outcome env (fs w) size])%list /\
  FS.unwritable (fs w1) = FS.unwritable (fs w) /\
  (forall p, p <> png_file env size -> FS.files (fs w1) !! p = FS.files (fs w) !! p) /\
  (is_Some (FS.files (fs w) !! svg_file env size) ->
   is_Some (FS.files (fs w1) !! png_file env size)) /\
  (FS.files (fs w) !! svg_file env size = None -> fs w1 = fs w).
Proof.
  intros Hc Hs. cbv zeta. unfold outcome.
  destruct (FS.exists_ (svg_file env size) (fs w)) eqn:E.
  - apply exists_spec in E.
    destruct (convert_rasterized env c size w Hc E) as (png & ->).
    cbn [fs stdout FS.files FS.unwritable].
    split; [reflexivity|]. split; [reflexivity|].
    split; [intros p Hp; now apply lookup_insert_ne|].
    split; [intros _; rewrite lookup_insert_eq; eauto|].
    intros H. rewrite H in E. now destruct E.
  - apply exists_false in E. rewrite (convert_missing env c size w E).
    cbn [fs stdout]. split; [reflexivity|]. split; [reflexivity|].
    split; [reflexivity|]. split; [|reflexivity].
    intros H. rewrite E in H. now destruct H.
Qed.

Lemma map_outcome_frame env f f' todo :
  (forall s, s ∈ todo -> FS.files f' !! svg_file env s = FS.files f !! svg_file env s) ->
  map (outcome env f') todo = map (outcome env f) todo.
Proof.
  intros H. apply map_ext_in. intros s Hs. apply outcome_frame, H.
  now apply list_elem_of_In.
Qed.

Lemma convert_all_contract env c todo :
  rasterizes c -> Forall (fun s => s ∈ sizes) todo -> NoDup todo ->
  forall w,
    let w' := convert_all env c todo w in
    stdout w' = (stdout w ++ map (outcome env (fs w)) todo)%list /\
    FS.unwritable (fs w') = FS.unwritable (fs w) /\
    (forall p, (forall s, s ∈ todo -> p <> png_file env s) ->
       FS.files (fs w') !! p = FS.files (fs w) !! p) /\
    (forall s, s ∈ todo -> is_Some (FS.files (fs w) !! svg_file env s) ->
       is_Some (FS.files (fs w') !! png_file env s)) /\
    (forall s, s ∈ todo -> FS.files (fs w) !! svg_file env s = None ->
       FS.files (fs w') !! png_file env s = FS.files (fs w) !! png_file env s).
Proof.
  intros Hc. induction todo as [|size rest IH]; intros Hin Hnd w; cbv zeta.
  - cbn [convert_all map]. rewrite app_nil_r.
    repeat split; try reflexivity; intros s Hs; now apply elem_of_nil in Hs.
  - apply Forall_cons in Hin as [Hsize Hrest]. apply NoDup_cons in Hnd as [Hnot Hnd].
    cbn [convert_all map].
    destruct (convert_contract env c size w Hc Hsize) as (S1 & S0 & S2 & S3 & S4).
    set (w1 := convert env c size w) in *.
    destruct (IH Hrest Hnd w1) as (I1 & I0 & I2 & I3 & I4).
    set (w' := convert_all env c rest w1) in *.
    assert (forall s, s ∈ rest ->
              FS.files (fs w1) !! svg_file env s = FS.files (fs w) !! svg_file env s) as Hsvg.
    { intros s Hs. apply S2. intros E. symmetry in E. revert E.
      apply png_is_not_svg; [exact Hsize|]. rewrite Forall_forall in Hrest. auto. }
    assert (forall s, s ∈ rest -> png_file env size <> png_file env s) as Hpng.
    { intros s Hs. apply png_files_differ; [exact Hsize| |].
      - rewrite Forall_forall in Hrest. auto.
      - intros ->. contradiction. }
    split; [|split; [|split; [|split]]].
    + rewrite I1, S1, <- app_assoc. cbn [app].
      now rewrite (map_outcome_frame env (fs w) (fs w1) rest Hsvg).
    + now rewrite I0.
    + intros p Hp. rewrite I2, S2; [reflexivity| |].
      * apply Hp. apply elem_of_cons. auto.
      * intros s Hs. apply Hp. apply elem_of_cons. auto.
    + intros s Hs Hpres. apply elem_of_cons in Hs as [->|Hs].
      * rewrite (I2 _ Hpng). now apply S3.
      * apply I3; [exact Hs|]. now rewrite Hsvg.
    + intros s Hs Habs. apply elem_of_cons in Hs as [->|Hs].
      * rewrite (I2 _ Hpng). now rewrite (S4 Habs).
      * rewrite I4; [|exact Hs|now rewrite Hsvg].
        apply S2. intros E. apply (Hpng s Hs). now symmetry.
Qed.

(** The loop when no source exists. *)
Lemma convert_all_missing env c todo : forall w,
  (forall s, s ∈ todo -> FS.files (fs w) !! svg_file env s = None) ->
  convert_all env c todo w =
  {| fs := fs w;
     stdout := (stdout w ++ map (fun s => NotFound (svg_file env s)) todo)%list;
     calls := (calls w ++ map (fun s => Probe (svg_file env s)) todo)%list |}.
Proof.
  induction todo as [|size rest IH]; intros w H; cbn [convert_all map].
  - rewrite !app_nil_r. now destruct w.
  - rewrite (convert_missing env c size w) by (apply H, elem_of_cons; auto).
    rewrite IH; cbn [fs stdout calls].
    + now rewrite <- !app_assoc.
    + intros s Hs. apply H, elem_of_cons. auto.
Qed.

(** The loop when every call of the rasterizer raises. *)
Lemma convert_failing env c e size w :
  always_fails c e ->
  fs (convert env c size w) = fs w /\
  stdout (convert env c size w) = (stdout w ++ [failed_outcome env e (fs w) size])%list.
Proof.
  intros Hc. unfold failed_outcome.
  destruct (FS.exists_ (svg_file env size) (fs w)) eqn:E.
  - apply exists_spec in E. rewrite (convert_present env c size w E).
    cbv zeta. rewrite Hc. cbn [fst snd fs stdout]. auto.
  - apply exists_false in E. rewrite (convert_missing env c size w E). auto.
Qed.

Lemma convert_all_failing env c e todo : forall w,
  always_fails c e ->
  fs (convert_all env c todo w) = fs w /\
  stdout (convert_all env c todo w)
    = (stdout w ++ map (failed_outcome env e (fs w)) todo)%list.
Proof.
  induction todo as [|size rest IH]; intros w Hc; cbn [convert_all map].
  - now rewrite app_nil_r.
  - destruct (convert_failing env c e size w Hc) as (F1 & S1).
    destruct (IH (convert env c size w) Hc) as (F2 & S2).
    rewrite F2, S2, F1, S1, <- app_assoc. auto.
Qed.

(** The calls of the rasterizer. *)
Lemma renders_app cs cs' : renders (cs ++ cs') = (renders cs ++ renders cs')%list.
Proof. induction cs as [|[q|? ? ? ?] cs IH]; cbn; now rewrite ?IH. Qed.

Lemma convert_renders env c size w :
  renders (calls (convert env c size w)) =
  (renders (calls w) ++
   if FS.exists_ (svg_file env size) (fs w) then [render_call env size] else [])%list.
Proof.
  destruct (FS.exists_ (svg_file env size) (fs w)) eqn:E.
  - apply exists_spec in E. rewrite (convert_present env c size w E).
    cbv zeta. cbn [calls]. rewrite renders_app. reflexivity.
  - apply exists_false in E. rewrite (convert_missing env c size w E).
    cbn [calls]. rewrite renders_app. reflexivity.
Qed.

Lemma convert_all_renders env c todo : forall w,
  exists rendered,
    sublist rendered todo /\
    renders (calls (convert_all env c todo w))
      = (renders (calls w) ++ map (render_call env) rendered)%list.
Proof.
  induction todo as [|size rest IH]; intros w; cbn [convert_all].
  - exists []. split; [constructor|]. now rewrite app_nil_r.
  - destruct (IH (convert env c size w)) as (rendered & Hsub & Hr).
    rewrite Hr, convert_renders.
    destruct (FS.exists_ (svg_file env size) (fs w)).
    + exists (size :: rendered). split; [now apply sublist_skip|].
      now rewrite <- app_assoc.
    + exists rendered. split; [now apply sublist_cons|]. now rewrite app_nil_r.
Qed.

(** The whole run under the contract. *)
Lemma main_contract env c w :
  cairosvg env = Some c -> rasterizes c ->
  stdout (snd (main env w))
    = (stdout w ++ map (outcome env (fs w)) sizes ++ [Complete])%list /\
  (forall p, (forall s, s ∈ sizes -> p <> png_file env s) ->
     FS.files (fs (snd (main env w))) !! p = FS.files (fs w) !! p) /\
  (forall s, s ∈ sizes -> is_Some (FS.files (fs w) !! svg_file env s) ->
     is_Some (FS.files (fs (snd (main env w))) !! png_file env s)) /\
  (forall s, s ∈ sizes -> FS.files (fs w) !! svg_file env s = None ->
     FS.files (fs (snd (main env w))) !! png_file env s
     = FS.files (fs w) !! png_file env s) /\
  (forall s, s ∈ sizes ->
     FS.files (fs (snd (main env w))) !! svg_file env s
     = FS.files (fs w) !! svg_file env s).
Proof.
  intros Hc Hras. unfold main. rewrite Hc. cbn [snd].
  destruct (convert_all_contract env c sizes Hras Forall_sizes NoDup_sizes w)
    as (H1 & _ & H2 & H3 & H4).
  unfold print. cbn [fs stdout]. rewrite H1, <- app_assoc.
  repeat split; auto.
  intros s Hs. apply H2. intros s' Hs' E. symmetry in E. revert E.
  now apply png_is_not_svg.
Qed.


(** ** Each line reports what happened *)

Lemma convert_turn env c size w :
  exists line,
    stdout (convert env c size w) = (stdout w ++ [line])%list /\
    reports env size line /\
    probes (calls (convert env c size w)) = (probes (calls w) ++ [svg_file env size])%list /\
    turn env c size (fs w) line (fs (convert env c size w)).
Proof.
  destruct (FS.exists_ (svg_file env size) (fs w)) eqn:E.
  - apply exists_spec in E. rewrite (convert_present env c size w E). cbv zeta.
    destruct (svg2png c (svg_file env size) (png_file env size) size size (fs w))
      as [[[]|e] f'] eqn:Hcall; cbn [fst snd fs stdout calls].
    + exists (GeneratedIcon size). split; [reflexivity|].
      split; [right; left; reflexivity|].
      split; [rewrite probes_app; reflexivity|]. now apply turn_generated.
    + exists (ErrorConverting size e). split; [reflexivity|].
      split; [right; right; eauto|].
      split; [rewrite probes_app; reflexivity|]. now apply turn_error.
  - apply exists_false in E. rewrite (convert_missing env c size w E).
    cbn [fs stdout calls]. exists (NotFound (svg_file env size)).
    split; [reflexivity|]. split; [left; reflexivity|].
    split; [rewrite probes_app; reflexivity|]. now apply turn_not_found.
Qed.

Lemma convert_all_turns env c todo : forall w,
  exists lines,
    stdout (convert_all env c todo w) = (stdout w ++ lines)%list /\
    Forall2 (reports env) todo lines /\
    probes (calls (convert_all env c todo w))
      = (probes (calls w) ++ map (svg_file env) todo)%list /\
    turns env c todo (fs w) lines (fs (convert_all env c todo w)).
Proof.
  induction todo as [|size rest IH]; intros w; cbn [convert_all map].
  - exists []. rewrite !app_nil_r. repeat split; constructor.
  - destruct (convert_turn env c size w) as (line & Hs & Hr & Hp & Ht).
    destruct (IH (convert env c size w)) as (lines & Hs' & Hr' & Hp' & Ht').
    exists (line :: lines). rewrite Hs', Hs, Hp', Hp, <- !app_assoc.
    split; [reflexivity|]. split; [now constructor|]. split; [reflexivity|].
    now apply turns_cons with (f1 := fs (convert env c size w)).
Qed.

(** One turn of the loop with a rasterizer that rejects one source. *)
Lemma convert_rejecting env c bad e size w :
  rejects c (svg_file env bad) e -> bad ∈ sizes -> size ∈ sizes ->
  let w1 := convert env c size w in
  stdout w1 = (stdout w ++ [local_outcome env bad e (fs w) size])%list /\
  (forall p, p <> png_file env size -> FS.files (fs w1) !! p = FS.files (fs w) !! p) /\
  (size <> bad -> is_Some (FS.files (fs w) !! svg_file env size) ->
   is_Some (FS.files (fs w1) !! png_file env size)) /\
  (size = bad \/ FS.files (fs w) !! svg_file env size = None -> fs w1 = fs w).
Proof.
  intros [Hbad Hgood] Hb Hs. cbv zeta. unfold local_outcome.
  destruct (FS.exists_ (svg_file env size) (fs w)) eqn:E.
  - apply exists_spec in E. rewrite (convert_present env c size w E). cbv zeta.
    destruct (bool_decide_reflect (size = bad)) as [->|Hne].
    + rewrite Hbad. cbn [fst snd fs stdout].
      split; [reflexivity|]. split; [reflexivity|].
      split; [congruence|reflexivity].
    + assert (svg_file env size <> svg_file env bad) as Hurl
        by now apply svg_files_differ.
      destruct (Hgood _ (png_file env size) size size (fs w) Hurl E) as (png & ->).
      cbn [fst snd fs stdout FS.files].
      split; [reflexivity|].
      split; [intros p Hp; now apply lookup_insert_ne|].
      split; [intros _ _; rewrite lookup_insert_eq; eauto|].
      intros [->|H]; [congruence|]. rewrite H in E. now destruct E.
  - apply exists_false in E. rewrite (convert_missing env c size w E).
    cbn [fs stdout]. split; [reflexivity|]. split; [reflexivity|].
    split; [|reflexivity]. intros _ H. rewrite E in H. now destruct H.
Qed.

Lemma local_outcome_frame env bad e f f' size :
  FS.files f' !! svg_file env size = FS.files f !! svg_file env size ->
  local_outcome env bad e f' size = local_outcome env bad e f size.
Proof. unfold local_outcome, FS.exists_. now intros ->. Qed.

Lemma convert_all_rejecting env c bad e todo :
  rejects c (svg_file env bad) e -> bad ∈ sizes ->
  Forall (fun s => s ∈ sizes) todo -> NoDup todo ->
  forall w,
    let w' := convert_all env c todo w in
    stdout w' = (stdout w ++ map (local_outcome env bad e (fs w)) todo)%list /\
    (forall p, (forall s, s ∈ todo -> p <> png_file env s) ->
       FS.files (fs w') !! p = FS.files (fs w) !! p) /\
    (forall s, s ∈ todo -> s <> bad ->
       is_Some (FS.files (fs w) !! svg_file env s) ->
       is_Some (FS.files (fs w') !! png_file env s)) /\
    (forall s, s ∈ todo ->
       s = bad \/ FS.files (fs w) !! svg_file env s = None ->
       FS.files (fs w') !! png_file env s = FS.files (fs w) !! png_file env s).
Proof.
  intros Hc Hb. induction todo as [|size rest IH]; intros Hin Hnd w; cbv zeta.
  - cbn [convert_all map]. rewrite app_nil_r.
    repeat split; try reflexivity; intros s Hs; now apply elem_of_nil in Hs.
  - apply Forall_cons in Hin as [Hsize Hrest]. apply NoDup_cons in Hnd as [Hnot Hnd].
    cbn [convert_all map].
    destruct (convert_rejecting env c bad e size w Hc Hb Hsize) as (S1 & S2 & S3 & S4).
    set (w1 := convert env c size w) in *.
    destruct (IH Hrest Hnd w1) as (I1 & I2 & I3 & I4).
    set (w' := convert_all env c rest w1) in *.
    assert (forall s, s ∈ rest ->
              FS.files (fs w1) !! svg_file env s = FS.files (fs w) !! svg_file env s) as Hsvg.
    { intros s Hs. apply S2. intros E. symmetry in E. revert E.
      apply png_is_not_svg; [exact Hsize|]. rewrite Forall_forall in Hrest. auto. }
    assert (forall s, s ∈ rest -> png_file env size <> png_file env s) as Hpng.
    { intros s Hs. apply png_files_differ; [exact Hsize| |].
      - rewrite Forall_forall in Hrest. auto.
      - intros ->. contradiction. }
    split; [|split; [|split]].
    + rewrite I1, S1, <- app_assoc. cbn [app]. do 2 f_equal.
      apply map_ext_in. intros s Hs. apply local_outcome_frame, Hsvg.
      now apply list_elem_of_In.
    + intros p Hp. rewrite I2, S2; [reflexivity| |].
      * apply Hp. apply elem_of_cons. auto.
      * intros s Hs. apply Hp. apply elem_of_cons. auto.
    + intros s Hs Hne Hpres. apply elem_of_cons in Hs as [->|Hs].
      * rewrite (I2 _ Hpng). now apply S3.
      * apply I3; [exact Hs|exact Hne|]. now rewrite Hsvg.
    + intros s Hs Hcase. apply elem_of_cons in Hs as [->|Hs].
      * rewrite (I2 _ Hpng). now rewrite (S4 Hcase).
      * rewrite I4; [|exact Hs|destruct Hcase as [?|H]; [auto|right; now rewrite Hsvg]].
        apply S2. intros E. apply (Hpng s Hs). now symmetry.
Qed.

Lemma picky_rejects :
  rejects picky_cairosvg (svg_file picky_env 32) (OtherException "malformed").
Proof.
  split.
  - intros write_to width height f. reflexivity.
  - intros url write_to width height f Hne Hsome. cbn [svg2png picky_cairosvg].
    rewrite bool_decide_eq_false_2 by exact Hne.
    apply stub_rasterizes. exact Hsome.
Qed.

End IconFacts.

(** * The specification's claims about the icon rasterizer *)

Import IconRasterizer IconFacts.

(** C6: with cairosvg available the exit code is 0 whatever happens to the
    individual sizes; each of 16, 32, 48 and 128 is probed and gets exactly
    one console line of its own, in order, before the closing line, and
    that line reports what happened to the size: not found when its source
    was missing (the rasterizer is then not called), generated when the
    rasterizer returned, and the error with its exception when the
    rasterizer raised; in each case the next size gets its turn.  In
    particular, when icon-48.svg is missing and the rasterizer honours its
    contract on the three other sources, size 48 is reported as not found
    and the PNGs of 16, 32 and 128 are produced.  And when the rasterizer
    rejects the source of one size, that size gets the error line, its PNG
    is not written, and every other size is reported and produced by the
    presence of its own source alone. *)
Theorem per_size_failures_are_local env c w :
  cairosvg env = Some c ->
  fst (main env w) = 0%Z /\
  (exists lines,
     stdout (snd (main env w)) = (stdout w ++ lines ++ [Complete])%list /\
     Forall2 (reports env) sizes lines /\
     probes (calls (snd (main env w)))
       = (probes (calls w) ++ map (svg_file env) sizes)%list /\
     turns env c sizes (fs w) lines (fs (snd (main env w)))) /\
  (rasterizes c ->
   FS.files (fs w) !! svg_file env 48 = None ->
   is_Some (FS.files (fs w) !! svg_file env 16) ->
   is_Some (FS.files (fs w) !! svg_file env 32) ->
   is_Some (FS.files (fs w) !! svg_file env 128) ->
   let w' := snd (main env w) in
   stdout w' = (stdout w ++ [GeneratedIcon 16; GeneratedIcon 32;
                             NotFound (svg_file env 48); GeneratedIcon 128;
                             Complete])%list /\
   is_Some (FS.files (fs w') !! png_file env 16) /\
   is_Some (FS.files (fs w') !! png_file env 32) /\
   is_Some (FS.files (fs w') !! png_file env 128) /\
   FS.files (fs w') !! png_file env 48 = FS.files (fs w) !! png_file env 48) /\
  (forall bad e,
   bad ∈ sizes -> rejects c (svg_file env bad) e ->
   let w' := snd (main env w) in
   stdout w' = (stdout w ++ map (local_outcome env bad e (fs w)) sizes
                ++ [Complete])%list /\
   (forall s, s ∈ sizes -> s <> bad ->
      is_Some (FS.files (fs w) !! svg_file env s) ->
      is_Some (FS.files (fs w') !! png_file env s)) /\
   (forall s, s ∈ sizes ->
      s = bad \/ FS.files (fs w) !! svg_file env s = None ->
      FS.files (fs w') !! png_file env s = FS.files (fs w) !! png_file env s)).
Proof.
  intros Hc. unfold main. rewrite Hc. cbn [fst snd].
  split; [reflexivity|]. split; [|split].
  - destruct (convert_all_turns env c sizes w) as (lines & Hs & Hr & Hp & Ht).
    exists lines. unfold print. cbn [fs stdout calls]. rewrite Hs, <- app_assoc. auto.
  - intros Hras H48 H16 H32 H128. cbv zeta.
    assert (16 ∈ sizes)%Z as I16 by (apply list_elem_of_In; cbn; tauto).
    assert (32 ∈ sizes)%Z as I32 by (apply list_elem_of_In; cbn; tauto).
    assert (48 ∈ sizes)%Z as I48 by (apply list_elem_of_In; cbn; tauto).
    assert (128 ∈ sizes)%Z as I128 by (apply list_elem_of_In; cbn; tauto).
    unfold sizes. cbn [convert_all].
    destruct (convert_rasterized env c 16 w Hras H16) as (p16 & ->).
    set (w1 := {| fs := _ |}).
    assert (is_Some (FS.files (fs w1) !! svg_file env 32)) as H32'.
    { unfold w1. cbn [fs FS.files]. rewrite lookup_insert_ne by now apply png_is_not_svg.
      exact H32. }
    destruct (convert_rasterized env c 32 w1 Hras H32') as (p32 & ->).
    set (w2 := {| fs := _ |}).
    assert (FS.files (fs w2) !! svg_file env 48 = None) as H48'.
    { unfold w2, w1. cbn [fs FS.files].
      rewrite !lookup_insert_ne by now apply png_is_not_svg. exact H48. }
    rewrite (convert_missing env c 48 w2 H48').
    set (w3 := {| fs := _ |}).
    assert (is_Some (FS.files (fs w3) !! svg_file env 128)) as H128'.
    { unfold w3, w2, w1. cbn [fs FS.files].
      rewrite !lookup_insert_ne by now apply png_is_not_svg. exact H128. }
    destruct (convert_rasterized env c 128 w3 Hras H128') as (p128 & ->).
    unfold print. cbn [fs stdout calls FS.files w3 w2 w1].
    split; [now rewrite <- !app_assoc|].
    split; [rewrite !lookup_insert_ne by (apply png_files_differ; auto; lia);
            rewrite lookup_insert_eq; eauto|].
    split; [rewrite lookup_insert_ne by (apply png_files_differ; auto; lia);
            rewrite lookup_insert_eq; eauto|].
    split; [rewrite lookup_insert_eq; eauto|].
    now rewrite !lookup_insert_ne by (apply png_files_differ; auto; lia).
  - intros bad e Hb Hrej. cbv zeta.
    destruct (convert_all_rejecting env c bad e sizes Hrej Hb Forall_sizes NoDup_sizes w)
      as (H1 & _ & H3 & H4).
    unfold print. cbn [fs stdout]. rewrite H1, <- app_assoc. auto.
Qed.

(** C7: when [import cairosvg] fails the script prints its three lines and
    exits with code 1, without a probe, a call to the rasterizer or a
    change to any file. *)
Theorem missing_cairosvg_exits_1 env w :
  cairosvg env = None ->
  main env w =
  (1%Z, {| fs := fs w;
           stdout := (stdout w ++ [NotInstalled; ToInstall; Alternative])%list;
           calls := calls w |}).
Proof.
  intros H. unfold main. rewrite H. unfold print. cbn [fs stdout calls].
  now rewrite <- !app_assoc.
Qed.

Lemma per_size_failures_are_local_witness :
  (fst (main stub_env three_icons) = 0%Z /\
   (exists lines,
      stdout (snd (main stub_env three_icons))
        = (stdout three_icons ++ lines ++ [Complete])%list /\
      Forall2 (reports stub_env) sizes lines /\
      probes (calls (snd (main stub_env three_icons)))
        = (probes (calls three_icons) ++ map (svg_file stub_env) sizes)%list /\
      turns stub_env stub_cairosvg sizes (fs three_icons) lines
        (fs (snd (main stub_env three_icons)))) /\
   (let w' := snd (main stub_env three_icons) in
    stdout w' = (stdout three_icons ++
                 [GeneratedIcon 16; GeneratedIcon 32;
                  NotFound (svg_file stub_env 48); GeneratedIcon 128;
                  Complete])%list /\
    is_Some (FS.files (fs w') !! png_file stub_env 16) /\
    is_Some (FS.files (fs w') !! png_file stub_env 32) /\
    is_Some (FS.files (fs w') !! png_file stub_env 128) /\
    FS.files (fs w') !! png_file stub_env 48
      = FS.files (fs three_icons) !! png_file stub_env 48)) /\
  (let w' := snd (main picky_env three_icons) in
   fst (main picky_env three_icons) = 0%Z /\
   stdout w' = (stdout three_icons ++
                map (local_outcome picky_env 32 (OtherException "malformed")
                       (fs three_icons)) sizes
                ++ [Complete])%list /\
   map (local_outcome picky_env 32 (OtherException "malformed") (fs three_icons)) sizes
     = [GeneratedIcon 16; ErrorConverting 32 (OtherException "malformed");
        NotFound (svg_file picky_env 48); GeneratedIcon 128] /\
   is_Some (FS.files (fs w') !! png_file picky_env 16) /\
   is_Some (FS.files (fs w') !! png_file picky_env 128) /\
   FS.files (fs w') !! png_file picky_env 32
     = FS.files (fs three_icons) !! png_file picky_env 32 /\
   FS.files (fs w') !! png_file picky_env 48
     = FS.files (fs three_icons) !! png_file picky_env 48).
Proof.
  split.
  - destruct (per_size_failures_are_local stub_env stub_cairosvg three_icons eq_refl)
      as (H1 & H2 & H3 & _).
    split; [exact H1|]. split; [exact H2|].
    apply H3; [exact stub_rasterizes|vm_compute; reflexivity|vm_compute; eauto..].
  - destruct (per_size_failures_are_local picky_env picky_cairosvg three_icons eq_refl)
      as (H1 & _ & _ & H4).
    assert (16 ∈ sizes)%Z as I16 by (apply list_elem_of_In; cbn; tauto).
    assert (32 ∈ sizes)%Z as I32 by (apply list_elem_of_In; cbn; tauto).
    assert (48 ∈ sizes)%Z as I48 by (apply list_elem_of_In; cbn; tauto).
    assert (128 ∈ sizes)%Z as I128 by (apply list_elem_of_In; cbn; tauto).
    destruct (H4 32%Z (OtherException "malformed") I32 picky_rejects) as (S1 & S2 & S3).
    cbv zeta. split; [exact H1|]. split; [exact S1|].
    split; [vm_compute; reflexivity|].
    split; [apply S2; [exact I16|lia|vm_compute; eauto]|].
    split; [apply S2; [exact I128|lia|vm_compute; eauto]|].
    split; [apply S3; [exact I32|left; reflexivity]|].
    apply S3; [exact I48|right; vm_compute; reflexivity].
Defined.

Lemma missing_cairosvg_exits_1_witness :
  main no_cairosvg_env three_icons =
  (1%Z, {| fs := fs three_icons;
           stdout := (stdout three_icons ++ [NotInstalled; ToInstall; Alternative])%list;
           calls := calls three_icons |}).
Proof. apply (missing_cairosvg_exits_1 no_cairosvg_env three_icons). reflexivity. Defined.

(** * Further properties of the icon rasterizer *)

Local Open Scope string_scope.

(** X12: the script never asks the rasterizer to write over a source.
    Whatever the value of [__file__], the PNG path of a size differs from
    the SVG path of every size, and two different sizes have different
    sources and different destinations. *)
Theorem sources_are_never_overwritten env s s' :
  s ∈ sizes -> s' ∈ sizes ->
  png_file env s <> svg_file env s' /\
  (s <> s' ->
   png_file env s <> png_file env s' /\ svg_file env s <> svg_file env s').
Proof.
  intros Hs Hs'. split; [now apply png_is_not_svg|]. intros Hne.
  split; [now apply png_files_differ|now apply svg_files_differ].
Qed.

Lemma sources_are_never_overwritten_witness :
  png_file stub_env 16 <> svg_file stub_env 48 /\
  (16%Z <> 48%Z ->
   png_file stub_env 16 <> png_file stub_env 48 /\
   svg_file stub_env 16 <> svg_file stub_env 48).
Proof.
  apply (sources_are_never_overwritten stub_env 16 48);
    apply list_elem_of_In; cbn; tauto.
Defined.

(** X13: the icons are looked for beside the script, not in the working
    directory.  Both paths of a size are the directory of [__file__]
    followed by ../public/icons/icon-<size> and the extension.  Started by
    a bare file name the script therefore reads ../public/icons relative to
    the working directory; started as [d/name] it reads [d/../public/icons]. *)
Theorem icons_are_found_beside_the_script env size :
  size ∈ sizes ->
  svg_file env size
    = dir_prefix (OsPath.dirname (script_file env))
      +:+ "../public/icons/" +:+ "icon-" +:+ pretty size +:+ ".svg" /\
  png_file env size
    = dir_prefix (OsPath.dirname (script_file env))
      +:+ "../public/icons/" +:+ "icon-" +:+ pretty size +:+ ".png" /\
  (OsPath.has_sep (script_file env) = false ->
   svg_file env size = "../public/icons/" +:+ "icon-" +:+ pretty size +:+ ".svg") /\
  (forall d name,
     script_file env = d +:+ "/" +:+ name ->
     d <> "" -> OsPath.ends_with_sep d = false -> OsPath.has_sep name = false ->
     svg_file env size
       = d +:+ "/" +:+ "../public/icons/" +:+ "icon-" +:+ pretty size +:+ ".svg").
Proof.
  intros Hs.
  assert (svg_file env size
          = dir_prefix (OsPath.dirname (script_file env))
            +:+ "../public/icons/" +:+ "icon-" +:+ pretty size +:+ ".svg") as Hsvg.
  { rewrite (svg_file_eq env size Hs), icons_prefix_eq. apply append_assoc_string. }
  split; [exact Hsvg|]. split.
  { rewrite (png_file_eq env size Hs), icons_prefix_eq. apply append_assoc_string. }
  split.
  - intros Hbare. rewrite Hsvg, (dirname_bare _ Hbare). reflexivity.
  - intros d name E Hd He Hn. rewrite Hsvg, E, (dirname_app d name Hd He Hn).
    unfold dir_prefix. rewrite He, (bool_decide_eq_false_2 _ Hd). cbn [orb].
    apply append_assoc_string.
Qed.

Lemma icons_are_found_beside_the_script_witness :
  svg_file absolute_env 128
    = dir_prefix (OsPath.dirname (script_file absolute_env))
      +:+ "../public/icons/" +:+ "icon-" +:+ pretty 128%Z +:+ ".svg" /\
  png_file absolute_env 128
    = dir_prefix (OsPath.dirname (script_file absolute_env))
      +:+ "../public/icons/" +:+ "icon-" +:+ pretty 128%Z +:+ ".png" /\
  (OsPath.has_sep (script_file absolute_env) = false ->
   svg_file absolute_env 128
     = "../public/icons/" +:+ "icon-" +:+ pretty 128%Z +:+ ".svg") /\
  (forall d name,
     script_file absolute_env = d +:+ "/" +:+ name ->
     d <> "" -> OsPath.ends_with_sep d = false -> OsPath.has_sep name = false ->
     svg_file absolute_env 128
       = d +:+ "/" +:+ "../public/icons/" +:+ "icon-" +:+ pretty 128%Z +:+ ".svg").
Proof.
  apply (icons_are_found_beside_the_script absolute_env 128).
  apply list_elem_of_In. cbn. tauto.
Defined.

(** X14: with a rasterizer that honours its contract, the presence of the
    sources decides everything.  The console shows, per size and in order,
    Generated when the SVG existed at the start and not found otherwise,
    then the closing line; the PNG of every present source exists
    afterwards, the PNG path of a missing source is as it was, and no other
    file is touched. *)
Theorem sources_decide_the_outcome env c w :
  cairosvg env = Some c -> rasterizes c ->
  let w' := snd (main env w) in
  stdout w' = (stdout w ++ map (outcome env (fs w)) sizes ++ [Complete])%list /\
  (forall s, s ∈ sizes -> is_Some (FS.files (fs w) !! svg_file env s) ->
     is_Some (FS.files (fs w') !! png_file env s)) /\
  (forall s, s ∈ sizes -> FS.files (fs w) !! svg_file env s = None ->
     FS.files (fs w') !! png_file env s = FS.files (fs w) !! png_file env s) /\
  (forall p, (forall s, s ∈ sizes -> p <> png_file env s) ->
     FS.files (fs w') !! p = FS.files (fs w) !! p).
Proof.
  intros Hc Hras. cbv zeta.
  destruct (main_contract env c w Hc Hras) as (H1 & H2 & H3 & H4 & _). auto.
Qed.

Lemma sources_decide_the_outcome_witness :
  let w' := snd (main stub_env three_icons) in
  stdout w' = (stdout three_icons ++ map (outcome stub_env (fs three_icons)) sizes
               ++ [Complete])%list /\
  (forall s, s ∈ sizes -> is_Some (FS.files (fs three_icons) !! svg_file stub_env s) ->
     is_Some (FS.files (fs w') !! png_file stub_env s)) /\
  (forall s, s ∈ sizes -> FS.files (fs three_icons) !! svg_file stub_env s = None ->
     FS.files (fs w') !! png_file stub_env s
     = FS.files (fs three_icons) !! png_file stub_env s) /\
  (forall p, (forall s, s ∈ sizes -> p <> png_file stub_env s) ->
     FS.files (fs w') !! p = FS.files (fs three_icons) !! p).
Proof.
  apply (sources_decide_the_outcome stub_env stub_cairosvg three_icons).
  - reflexivity.
  - exact stub_rasterizes.
Defined.

(** X15: running the script again reports the same.  The first run only
    adds PNGs, which are never sources, so with a rasterizer that honours
    its contract the second run prints the very lines of the first. *)
Theorem second_run_reports_the_same env c w :
  cairosvg env = Some c -> rasterizes c ->
  stdout (snd (main env (snd (main env w))))
  = (stdout w ++ (map (outcome env (fs w)) sizes ++ [Complete])
              ++ (map (outcome env (fs w)) sizes ++ [Complete]))%list.
Proof.
  intros Hc Hras.
  destruct (main_contract env c w Hc Hras) as (H1 & _ & _ & _ & Hsvg).
  destruct (main_contract env c (snd (main env w)) Hc Hras) as (H2 & _).
  rewrite H2, H1, <- !app_assoc.
  now rewrite (map_outcome_frame env (fs w) _ sizes Hsvg).
Qed.

Lemma second_run_reports_the_same_witness :
  stdout (snd (main stub_env (snd (main stub_env three_icons))))
  = (stdout three_icons
     ++ (map (outcome stub_env (fs three_icons)) sizes ++ [Complete])
     ++ (map (outcome stub_env (fs three_icons)) sizes ++ [Complete]))%list.
Proof.
  apply (second_run_reports_the_same stub_env stub_cairosvg three_icons).
  - reflexivity.
  - exact stub_rasterizes.
Defined.

(** X16: without sources nothing happens.  When none of the four SVGs
    exists, then whatever the rasterizer is, it is never called: the file
    system is left as it was, the four paths are probed in order, each is
    reported as not found, and the script exits with code 0 after the
    closing line. *)
Theorem no_sources_no_effect env c w :
  cairosvg env = Some c ->
  (forall s, s ∈ sizes -> FS.files (fs w) !! svg_file env s = None) ->
  main env w =
  (0%Z,
   {| fs := fs w;
      stdout := (stdout w ++ map (fun s => NotFound (svg_file env s)) sizes
                 ++ [Complete])%list;
      calls := (calls w ++ map (fun s => Probe (svg_file env s)) sizes)%list |}).
Proof.
  intros Hc Hnone. unfold main. rewrite Hc.
  rewrite (convert_all_missing env c sizes w Hnone).
  unfold print. cbn [fs stdout calls]. now rewrite <- app_assoc.
Qed.

Lemma no_sources_no_effect_witness :
  main stub_env no_icons =
  (0%Z,
   {| fs := fs no_icons;
      stdout := (stdout no_icons ++ map (fun s => NotFound (svg_file stub_env s)) sizes
                 ++ [Complete])%list;
      calls := (calls no_icons ++ map (fun s => Probe (svg_file stub_env s)) sizes)%list |}).
Proof.
  apply (no_sources_no_effect stub_env stub_cairosvg no_icons).
  - reflexivity.
  - intros s _. apply lookup_empty.
Defined.

(** X17: what the rasterizer is asked.  Whatever it does, [svg2png] is
    called at most once per size, in the order of the sizes, each time with
    the SVG of the size as source, the PNG of the same size as destination
    and the size as both width and height. *)
Theorem rasterizer_is_called_per_size env c w :
  cairosvg env = Some c ->
  exists rendered,
    sublist rendered sizes /\
    renders (calls (snd (main env w)))
    = (renders (calls w) ++
       map (fun s => Render (svg_file env s) (png_file env s) s s) rendered)%list.
Proof.
  intros Hc. unfold main. rewrite Hc. cbn [snd].
  destruct (convert_all_renders env c sizes w) as (rendered & Hsub & Hr).
  exists rendered. split; [exact Hsub|]. exact Hr.
Qed.

Lemma rasterizer_is_called_per_size_witness :
  exists rendered,
    sublist rendered sizes /\
    renders (calls (snd (main stub_env three_icons)))
    = (renders (calls three_icons) ++
       map (fun s => Render (svg_file stub_env s) (png_file stub_env s) s s)
         rendered)%list.
Proof.
  apply (rasterizer_is_called_per_size stub_env stub_cairosvg three_icons).
  reflexivity.
Defined.

(** X18: a rasterizer that always fails changes nothing and does not stop
    the script.  Every exception is caught: each present source gets its
    error line with the exception raised, each missing one its not-found
    line, the file system is as before and the exit code is 0. *)
Theorem failing_rasterizer_is_survived env c e w :
  cairosvg env = Some c -> always_fails c e ->
  fst (main env w) = 0%Z /\
  fs (snd (main env w)) = fs w /\
  stdout (snd (main env w))
  = (stdout w ++ map (failed_outcome env e (fs w)) sizes ++ [Complete])%list.
Proof.
  intros Hc Hfail. unfold main. rewrite Hc. cbn [fst snd].
  destruct (convert_all_failing env c e sizes w Hfail) as (F & S).
  unfold print. cbn [fs stdout]. rewrite F, S, <- app_assoc. auto.
Qed.

Lemma failing_rasterizer_is_survived_witness :
  fst (main broken_env three_icons) = 0%Z /\
  fs (snd (main broken_env three_icons)) = fs three_icons /\
  stdout (snd (main broken_env three_icons))
  = (stdout three_icons
     ++ map (failed_outcome broken_env (OtherException "cairo") (fs three_icons)) sizes
     ++ [Complete])%list.
Proof.
  apply (failing_rasterizer_is_survived broken_env broken_cairosvg
           (OtherException "cairo") three_icons).
  - reflexivity.
  - intros url write_to width height f. reflexivity.
Defined.
